(** * A shallow embedding of [lexer.go] (package buffer)

    The file models the two components of the package: the buffer-recycling
    [BufferPool] (functions [swap] and [free]) and the streaming [Lexer]
    (functions [read], [Err], [Peek], [PeekRune], [Move], [Pos], [Rewind],
    [Lexeme], [Shift], [ShiftLen], [Skip]).

    - Go's [int] is a 64-bit two's-complement integer: it is modelled by [Z]
      with the wrap-around written out ([GoInt.wrap]).
    - A Go slice is a window [(arr, off, len, cap)] on a backing array; the
      backing arrays live in an explicit heap, so that two slices on the same
      array alias as they do in Go.
    - A run-time panic (index or slice bounds out of range, [make] with a
      capacity out of range) is the result [None].
    - The byte source ([io.Reader]) is an external collaborator: it is
      modelled by the list of answers it is going to give. *)

From Stdlib Require Import ZArith Lia Strings.Byte.
From stdpp Require Import base option list.

Local Open Scope Z_scope.

(** ** Go's [int] *)

Module GoInt.

Definition wrap (x : Z) : Z := (x + 2 ^ 63) mod 2 ^ 64 - 2 ^ 63.

Definition add (x y : Z) : Z := wrap (x + y).
Definition sub (x y : Z) : Z := wrap (x - y).
Definition mul (x y : Z) : Z := wrap (x * y).

End GoInt.

Infix "+i" := GoInt.add (at level 50, left associativity).
Infix "-i" := GoInt.sub (at level 50, left associativity).
Infix "*i" := GoInt.mul (at level 40, left associativity).

(** ** Backing arrays and slices *)

Module Mem.

(** The heap: one backing array per address; an array never changes size. *)
Abbreviation heap := (list (list byte)).

Record slice : Type := mkSlice {
  arr : nat;  (* address of the backing array *)
  off : Z;    (* index in the array of the slice's element 0 *)
  len : Z;
  cap : Z
}.

(** The runtime refuses [make([]byte, 0, size)] with a panic unless
    [0 <= size <= maxAlloc] (2^48 bytes on 64-bit platforms). *)
Definition maxAlloc : Z := 2 ^ 48.

Definition make (h : heap) (size : Z) : option (heap * slice) :=
  if decide (0 <= size <= maxAlloc)
  then Some (h ++ [replicate (Z.to_nat size) x00], mkSlice (length h) 0 0 size)
  else None.

(** What the type of a Go slice guarantees, with the bound that [make] puts on
    the size of a backing array. *)
Definition slice_ok (s : slice) : Prop :=
  0 <= off s ∧ 0 <= len s <= cap s ∧ off s + cap s <= maxAlloc.

(** [s[a:b]]: panics unless [0 <= a <= b <= cap(s)]. *)
Definition reslice (s : slice) (a b : Z) : option slice :=
  if decide (0 <= a <= b ∧ b <= cap s)
  then Some (mkSlice (arr s) (off s + a) (b - a) (cap s - a))
  else None.

(** [s[i]]: panics unless [0 <= i < len(s)]. *)
Definition index (h : heap) (s : slice) (i : Z) : option byte :=
  if decide (0 <= i < len s)
  then a ← h !! arr s; a !! Z.to_nat (off s + i)
  else None.

(** The bytes a slice shows. *)
Definition bytes (h : heap) (s : slice) : list byte :=
  match h !! arr s with
  | Some a => take (Z.to_nat (len s)) (drop (Z.to_nat (off s)) a)
  | None => []
  end.

(** Overwrite the array from position [i] on with [bs]; the array keeps its
    size. *)
Definition blit (a : list byte) (i : nat) (bs : list byte) : list byte :=
  take (length a) (take i a ++ bs ++ drop (i + length bs) a).

(** Write [bs] at the start of the slice [s]. *)
Definition store (h : heap) (s : slice) (bs : list byte) : heap :=
  match h !! arr s with
  | Some a => <[arr s := blit a (Z.to_nat (off s)) bs]> h
  | None => h
  end.

(** The builtin [copy(dst, src)]: copies [min(len(dst), len(src))] bytes and is
    correct when the two slices overlap (the source is read first). *)
Definition copy (h : heap) (dst src : slice) : heap * Z :=
  let n := Z.min (len dst) (len src) in
  (store h dst (take (Z.to_nat n) (bytes h src)), n).

End Mem.

(** ** The byte source *)

Module Source.

Inductive error : Type :=
  | EOF                      (* io.EOF *)
  | Failure (code : nat).    (* any other error value *)

#[global] Instance error_eq_dec : EqDecision error.
Proof. solve_decision. Defined.

(** A reader is the list of the answers it has in store: each one a chunk of
    bytes and the error reported with its last byte, if any. A reader with
    nothing left answers [0, io.EOF]. *)
Abbreviation Reader := (list (list byte * option error)).

(** [r.Read(p)]: at most [len(p)] bytes are written to [p]; a chunk longer than
    [p] is delivered in pieces, its error with the last one. *)
Definition Read (r : Reader) (h : Mem.heap) (p : Mem.slice)
  : Reader * Mem.heap * Z * option error :=
  match r with
  | [] => (r, h, 0, Some EOF)
  | (data, e) :: rest =>
      let k := Z.to_nat (Mem.len p) in
      if decide (length data ≤ k)%nat
      then (rest, Mem.store h p data, Z.of_nat (length data), e)
      else ((drop k data, e) :: rest, Mem.store h p (take k data), Mem.len p, None)
  end.

(** All the bytes the reader is still going to deliver. *)
Definition stream (r : Reader) : list byte := concat (map fst r).

End Source.

(** ** BufferPool *)

Module Pool.
Import Mem.

Record block : Type := mkBlock {
  buf : slice;
  next : nat;      (* index in pool plus one *)
  active : bool
}.

Record BufferPool : Type := mkPool {
  pool : list block;
  head : nat;      (* index in pool plus one *)
  tail : nat;      (* index in pool plus one *)
  pos : Z          (* byte pos in tail *)
}.

Definition empty : BufferPool := mkPool [] 0 0 0.

(** The search loop of [swap]: the index of the first block that is not active
    and whose capacity is at least [size]; [None] is the code's [-1]. *)
Fixpoint find_reusable (bs : list block) (size : Z) (i : nat) : option nat :=
  match bs with
  | [] => None
  | b :: bs' =>
      if negb (active b) && bool_decide (size <= cap (buf b))
      then Some i
      else find_reusable bs' size (S i)
  end.

(** The second half of [swap] (from [newBuf := z.pool[swap].buf] on), with the
    block list [pl] that the first half leaves. *)
Definition intern (z : BufferPool) (pl : list block) (swap : nat) (oldBuf : slice)
  : option (BufferPool * slice) :=
  b ← pl !! swap;
  let newBuf := buf b in
  let pl1 := <[swap := mkBlock oldBuf 0 true]> pl in
  pl2 ← (if decide (head z ≠ 0%nat)
         then hb ← pl1 !! (head z - 1)%nat;
              Some (<[(head z - 1)%nat := mkBlock (buf hb) (swap + 1) (active hb)]> pl1)
         else Some pl1);
  let tail' := if decide (tail z = 0%nat) then (swap + 1)%nat else tail z in
  out ← reslice newBuf 0 0;
  Some (mkPool pl2 (swap + 1)%nat tail' (pos z), out).

Definition swap (h : heap) (z : BufferPool) (oldBuf : slice) (size : Z)
  : option (heap * BufferPool * slice) :=
  match find_reusable (pool z) size 0 with
  | Some i =>
      '(z', out) ← intern z (pool z) i oldBuf;
      Some (h, z', out)
  | None =>
      if decide (tail z = 0%nat ∧ pos z >= len oldBuf ∧ size <= cap oldBuf)
      then
        out ← reslice oldBuf 0 0;
        Some (h, mkPool (pool z) (head z) (tail z) (pos z -i len oldBuf), out)
      else
        '(h', fresh) ← make h size;
        let pl := pool z ++ [mkBlock fresh 0 true] in
        '(z', out) ← intern z pl (length pl - 1)%nat oldBuf;
        Some (h', z', out)
  end.

(** The loop of [free]. Every turn moves the tail one block along the chain,
    so on a chain without a cycle it stops within [length pool] turns; [fuel]
    bounds the turns and [None] is also the answer when it runs out. *)
Fixpoint free_loop (fuel : nat) (z : BufferPool) : option BufferPool :=
  if decide (tail z = 0%nat) then Some z
  else
    b ← pool z !! (tail z - 1)%nat;
    if decide (pos z >= len (buf b))
    then
      match fuel with
      | O => None
      | S fuel' =>
          free_loop fuel'
            (mkPool (<[(tail z - 1)%nat := mkBlock (buf b) (next b) false]> (pool z))
                    (head z) (next b) (pos z -i len (buf b)))
      end
    else Some z.

Definition free (z : BufferPool) (n : Z) : option BufferPool :=
  z1 ← free_loop (length (pool z)) (mkPool (pool z) (head z) (tail z) (pos z +i n));
  Some (if decide (tail z1 = 0%nat) then mkPool (pool z1) 0 (tail z1) (pos z1) else z1).

End Pool.

(** ** Lexer *)

Module Lex.
Import Mem Source.

Record Lexer : Type := mkLexer {
  r : Reader;
  err : option error;
  pool : Pool.BufferPool;
  buf : slice;
  start : Z;       (* index in buf *)
  pos : Z;         (* index in buf *)
  prevStart : Z
}.

(** The value of a byte as an integer. *)
Definition u8 (b : byte) : Z := Z.of_N (Byte.to_N b).

Definition read (h : heap) (z : Lexer) (pos0 : Z) : option (heap * Lexer * byte) :=
  if decide (err z ≠ None) then Some (h, z, x00)
  else
    (* get new buffer *)
    let c := cap (buf z) in
    let p := pos0 -i start z in
    let c := if decide (2 *i p > c) then 2 *i c +i p else c in
    let d := len (buf z) -i start z in
    oldBuf ← reslice (buf z) 0 (start z);
    '(h1, pool1, nbuf) ← Pool.swap h (pool z) oldBuf c;
    dst ← reslice nbuf 0 d;
    src ← reslice (buf z) (start z) (len (buf z));
    let h2 := (copy h1 dst src).1 in
    (* read in new data for the rest of the buffer *)
    room ← reslice nbuf d (cap nbuf);
    let '(r1, h3, n, e) := Read (r z) h2 room in
    let pos1 := pos0 -i start z in
    let zpos := pos z -i start z in
    buf1 ← reslice nbuf 0 (d +i n);
    let z1 := mkLexer r1 e pool1 buf1 0 zpos (prevStart z) in
    if decide (n = 0)
    then
      Some (h3,
            (if decide (e = None)
             then mkLexer r1 (Some EOF) pool1 buf1 0 zpos (prevStart z)
             else z1),
            x00)
    else
      b ← index h3 buf1 pos1;
      Some (h3, z1, b).

Definition Err (z : Lexer) : option error :=
  if decide (err z = Some EOF ∧ pos z < len (buf z)) then None else err z.

Definition Peek (h : heap) (z : Lexer) (pos0 : Z) : option (heap * Lexer * byte) :=
  let pos1 := pos0 +i pos z in
  if decide (pos1 >= len (buf z)) then read h z pos1
  else b ← index h (buf z) pos1; Some (h, z, b).

(** A [rune] is a 32-bit integer; the values built here are below [2^21], so
    the shifts and ors never overflow it. *)
Definition PeekRune (h : heap) (z : Lexer) (pos0 : Z)
  : option (heap * Lexer * (Z * Z)) :=
  '(h0, z0, c) ← Peek h z pos0;
  if decide (u8 c < 192) then
    Some (h0, z0, (u8 c, 1))
  else if decide (u8 c < 224) then
    '(h1, z1, c1) ← Peek h0 z0 (pos0 +i 1);
    Some (h1, z1,
          (Z.lor (Z.shiftl (Z.land (u8 c) 31) 6) (Z.land (u8 c1) 63), 2))
  else if decide (u8 c < 240) then
    '(h1, z1, c1) ← Peek h0 z0 (pos0 +i 1);
    '(h2, z2, c2) ← Peek h1 z1 (pos0 +i 2);
    Some (h2, z2,
          (Z.lor (Z.lor (Z.shiftl (Z.land (u8 c) 15) 12)
                        (Z.shiftl (Z.land (u8 c1) 63) 6))
                 (Z.land (u8 c2) 63), 3))
  else
    '(h1, z1, c1) ← Peek h0 z0 (pos0 +i 1);
    '(h2, z2, c2) ← Peek h1 z1 (pos0 +i 2);
    '(h3, z3, c3) ← Peek h2 z2 (pos0 +i 3);
    Some (h3, z3,
          (Z.lor (Z.lor (Z.lor (Z.shiftl (Z.land (u8 c) 7) 18)
                               (Z.shiftl (Z.land (u8 c1) 63) 12))
                        (Z.shiftl (Z.land (u8 c2) 63) 6))
                 (Z.land (u8 c3) 63), 4)).

Definition Move (z : Lexer) (n : Z) : Lexer :=
  mkLexer (r z) (err z) (pool z) (buf z) (start z) (pos z +i n) (prevStart z).

Definition Pos (z : Lexer) : Z := pos z -i start z.

Definition Rewind (z : Lexer) (p : Z) : Lexer :=
  mkLexer (r z) (err z) (pool z) (buf z) (start z) (start z +i p) (prevStart z).

Definition Lexeme (z : Lexer) : option slice :=
  reslice (buf z) (start z) (pos z).

Definition Shift (z : Lexer) : option (Lexer * slice) :=
  b ← reslice (buf z) (start z) (pos z);
  Some (mkLexer (r z) (err z) (pool z) (buf z) (pos z) (pos z) (prevStart z), b).

Definition ShiftLen (z : Lexer) : Lexer * Z :=
  let n := start z -i prevStart z in
  (mkLexer (r z) (err z) (pool z) (buf z) (start z) (pos z) (start z), n).

Definition Skip (z : Lexer) : Lexer :=
  mkLexer (r z) (err z) (pool z) (buf z) (pos z) (pos z) (prevStart z).

(** The field [Free] is bound to [z.pool.free] by the constructors. *)
Definition Free (z : Lexer) (n : Z) : option Lexer :=
  pool1 ← Pool.free (pool z) n;
  Some (mkLexer (r z) (err z) pool1 (buf z) (start z) (pos z) (prevStart z)).

(** What a lexer is built on: a reader that has its bytes in memory already
    (it implements [Bytes() []byte], which answers the slice [b]), or any
    other reader. *)
Inductive input : Type :=
  | InMemory (b : slice)
  | Streaming (rd : Reader).

Definition NewLexerSize (h : heap) (src : input) (size : Z)
  : option (heap * Lexer) :=
  match src with
  | InMemory b =>
      Some (h, mkLexer [] (Some EOF) Pool.empty b 0 0 0)
  | Streaming rd =>
      '(h0, b) ← make h size;
      '(h1, z, _) ← Peek h0 (mkLexer rd None Pool.empty b 0 0 0) 0;
      Some (h1, z)
  end.

(** [defaultBufSize] is declared in another file of the package (4kB by the
    comment on [NewLexer]); it is a parameter here. *)
Definition NewLexer (defaultBufSize : Z) (h : heap) (src : input)
  : option (heap * Lexer) :=
  NewLexerSize h src defaultBufSize.

End Lex.

(** ** Runs of a lexer

    The tokenizer drives the lexer by a sequence of calls. *)

Module Run.
Import Mem Source Lex.

Inductive op : Type :=
  | OPeek (n : Z)
  | OPeekRune (n : Z)
  | OMove (n : Z)
  | OPos
  | ORewind (p : Z)
  | OLexeme
  | OShift
  | OShiftLen
  | OSkip
  | OFree (n : Z)
  | OErr.

Inductive result : Type :=
  | RByte (b : byte)
  | RRune (c n : Z)
  | RInt (n : Z)
  | RSlice (s : slice)
  | RError (e : option error)
  | RNone.

Definition exec (h : heap) (z : Lexer) (o : op) : option (heap * Lexer * result) :=
  match o with
  | OPeek n => '(h', z', b) ← Peek h z n; Some (h', z', RByte b)
  | OPeekRune n => '(h', z', cn) ← PeekRune h z n; Some (h', z', RRune cn.1 cn.2)
  | OMove n => Some (h, Move z n, RNone)
  | OPos => Some (h, z, RInt (Pos z))
  | ORewind p => Some (h, Rewind z p, RNone)
  | OLexeme => s ← Lexeme z; Some (h, z, RSlice s)
  | OShift => '(z', s) ← Shift z; Some (h, z', RSlice s)
  | OShiftLen => let '(z', n) := ShiftLen z in Some (h, z', RInt n)
  | OSkip => Some (h, Skip z, RNone)
  | OFree n => z' ← Free z n; Some (h, z', RNone)
  | OErr => Some (h, z, RError (Err z))
  end.

(** What a call commits: the bytes [Shift] returns (read when it returns),
    and the bytes between token-start and cursor that [Skip] drops. *)
Inductive event : Type :=
  | Shifted (bs : list byte)
  | Skipped (bs : list byte).

Definition event_bytes (e : event) : list byte :=
  match e with Shifted bs | Skipped bs => bs end.

Definition events (h : heap) (z : Lexer) (o : op) : list event :=
  match o with
  | OShift =>
      match Lexeme z with Some s => [Shifted (bytes h s)] | None => [] end
  | OSkip =>
      match Lexeme z with Some s => [Skipped (bytes h s)] | None => [] end
  | _ => []
  end.

Fixpoint run (h : heap) (z : Lexer) (ops : list op)
  : option (heap * Lexer * list event) :=
  match ops with
  | [] => Some (h, z, [])
  | o :: ops' =>
      '(h1, z1, _) ← exec h z o;
      '(h2, z2, evs) ← run h1 z1 ops';
      Some (h2, z2, events h z o ++ evs)
  end.

(** The results of the calls to [Shift] alone. *)
Definition shifts (evs : list event) : list (list byte) :=
  omap (λ e, match e with Shifted bs => Some bs | Skipped _ => None end) evs.

(** A call keeps the cursor in the buffered window: [Move] and [Rewind] leave
    it between token-start and the end of the buffered bytes. *)
Definition in_window (z : Lexer) (o : op) : Prop :=
  match o with
  | OMove n => start z <= pos z + n <= len (buf z)
  | ORewind p => 0 <= p <= len (buf z) - start z
  | _ => True
  end.

Fixpoint guarded (h : heap) (z : Lexer) (ops : list op) : Prop :=
  match ops with
  | [] => True
  | o :: ops' =>
      in_window z o ∧
      match exec h z o with
      | Some (h1, z1, _) => guarded h1 z1 ops'
      | None => True
      end
  end.

(** The content of the source a lexer is built on. *)
Definition content (h : heap) (src : input) : list byte :=
  match src with
  | InMemory b => bytes h b
  | Streaming rd => stream rd
  end.

End Run.

(** ** What is stated about the memory, the pool and the lexer *)

Module MemSpec.
Import Mem.

(** The bytes of [s[a:b]]. *)
Definition view (h : heap) (s : slice) (a b : Z) : list byte :=
  bytes h (mkSlice (arr s) (off s + a) (b - a) (cap s - a)).

(** The slice is well formed and its backing array is in the heap, long
    enough for the capacity of the slice. *)
Definition backed (h : heap) (s : slice) : Prop :=
  slice_ok s ∧ ∃ a, h !! arr s = Some a ∧ off s + cap s <= Z.of_nat (length a).

(** The arrays of [h] are still there in [h'], with their sizes. *)
Definition extends (h h' : heap) : Prop :=
  ∀ i a, h !! i = Some a → ∃ a', h' !! i = Some a' ∧ length a' = length a.

End MemSpec.

Module PoolSpec.
Import Mem Pool.

(** The blocks met when following the [next] links from the block [t - 1]
    (the links are indices plus one, [0] ends the walk). *)
Fixpoint follow (fuel : nat) (pl : list block) (t : nat) : list nat :=
  match fuel, t with
  | S fuel', S i =>
      match pl !! i with
      | Some b => i :: follow fuel' pl (next b)
      | None => []
      end
  | _, _ => []
  end.

(** The chain of a pool, from the tail to the head. *)
Definition chain (z : BufferPool) : list nat :=
  follow (length (pool z)) (pool z) (tail z).

(** The block [i] of the pool is there and its flag is set. *)
Definition is_active (z : BufferPool) (i : nat) : Prop :=
  ∃ b, pool z !! i = Some b ∧ active b = true.

(** [linked pl t l]: the walk from [t] visits exactly the blocks [l], all of
    them active, and ends on a link [0]. *)
Fixpoint linked (pl : list block) (t : nat) (l : list nat) : Prop :=
  match l with
  | [] => t = 0%nat
  | i :: l' =>
      t = S i ∧ ∃ b, pl !! i = Some b ∧ active b = true ∧ linked pl (next b) l'
  end.

(** The link to the last block of [l] (its index plus one), [0] for no block. *)
Definition last_plus_one (l : list nat) : nat :=
  match last l with Some j => S j | None => 0%nat end.

(** The invariant of the pool: the chain is a list without repetition of
    active blocks that ends at the head. *)
Record wf (z : BufferPool) (l : list nat) : Prop := mkWf {
  wf_nodup : NoDup l;
  wf_linked : linked (pool z) (tail z) l;
  wf_head : head z = last_plus_one l;
  wf_slices : Forall (λ b, slice_ok (buf b)) (pool z)
}.

(** The pool states of a program: what a sequence of calls to [swap] and
    [free] makes of the empty pool. *)
Inductive reachable : BufferPool → Prop :=
  | reach_empty : reachable empty
  | reach_swap h z oldBuf size h' z' out :
      reachable z → slice_ok oldBuf →
      swap h z oldBuf size = Some (h', z', out) → reachable z'
  | reach_free z n z' :
      reachable z → free z n = Some z' → reachable z'.

(** The length of the buffer of the block [i]. *)
Definition block_len (pl : list block) (i : nat) : Z :=
  match pl !! i with Some b => len (buf b) | None => 0 end.

(** The total length of the first [k] blocks of the chain [l]. *)
Definition drained (pl : list block) (l : list nat) (k : nat) : Z :=
  foldr Z.add 0 (map (block_len pl) (take k l)).

(** The consumed-byte counter points into the tail block. *)
Definition pos_in_tail (z : BufferPool) : Prop :=
  tail z ≠ 0%nat →
  ∃ b, pool z !! (tail z - 1)%nat = Some b ∧ pos z < len (buf b).

(** The three ways [swap] finds its buffer. *)
Inductive swap_path (h : heap) (z : BufferPool) (oldBuf : slice) (size : Z)
  (h' : heap) (out : slice) : Prop :=
  | path_reuse i b :
      find_reusable (pool z) size 0 = Some i →
      pool z !! i = Some b → active b = false →
      h' = h → out = mkSlice (arr (buf b)) (off (buf b)) 0 (cap (buf b)) →
      swap_path h z oldBuf size h' out
  | path_in_place :
      find_reusable (pool z) size 0 = None →
      tail z = 0%nat → pos z >= len oldBuf → size <= cap oldBuf →
      h' = h → out = mkSlice (arr oldBuf) (off oldBuf) 0 (cap oldBuf) →
      swap_path h z oldBuf size h' out
  | path_allocate :
      find_reusable (pool z) size 0 = None →
      ¬ (tail z = 0%nat ∧ pos z >= len oldBuf ∧ size <= cap oldBuf) →
      h' = h ++ [replicate (Z.to_nat size) x00] →
      out = mkSlice (length h) 0 0 size →
      swap_path h z oldBuf size h' out.

(** The block [b] once [free] has walked past it. *)
Definition retire (b : block) : block := mkBlock (buf b) (next b) false.

(** A pool with one block of 3 bytes on its chain, as [swap] leaves the empty
    pool when it has to allocate. *)
Definition one_block : BufferPool :=
  mkPool [mkBlock (mkSlice 0 0 3 4) 0 true] 1 1 0.

(** Several consumption reports in a row. *)
Fixpoint frees (z : BufferPool) (ns : list Z) : option BufferPool :=
  match ns with
  | [] => Some z
  | n :: ns' => z1 ← free z n; frees z1 ns'
  end.

(** The consumption reported by the calls [ns] together. *)
Definition total (ns : list Z) : Z := foldr Z.add 0 ns.

(** Two blocks of 3 and 2 bytes on the chain, the counter at 0:
    [free(1); free(2); free(1)] retires the first when the consumption
    reaches 3 and leaves the second. *)
Definition two_blocks : BufferPool :=
  mkPool [mkBlock (mkSlice 0 0 3 4) 2 true; mkBlock (mkSlice 1 0 2 4) 0 true] 2 1 0.

End PoolSpec.

Module LexSpec.
Import Mem Source Lex Run MemSpec.

(** The invariant of the data model: [0 <= start <= pos <= len(buf) <= cap(buf)]. *)
Definition window (z : Lexer) : Prop :=
  0 <= start z ∧ start z <= pos z ∧ pos z <= len (buf z) ∧ len (buf z) <= cap (buf z).

(** The buffers held by the pool are backed. *)
Definition blocks_backed (h : heap) (p : Pool.BufferPool) : Prop :=
  Forall (λ b, backed h (Pool.buf b)) (Pool.pool p).

(** What holds of a lexer between two calls. *)
Record good (h : heap) (z : Lexer) : Prop := mkGood {
  good_window : window z;
  good_buf : backed h (buf z);
  good_pool : ∃ l, PoolSpec.wf (pool z) l;
  good_blocks : blocks_backed h (pool z)
}.

(** A reader with its bytes in memory answers a slice that is in the heap. *)
Definition input_ok (h : heap) (src : input) : Prop :=
  match src with
  | InMemory b => backed h b
  | Streaming _ => True
  end.

(** [carried h z h' z']: from [(h, z)] to [(h', z')] the invariant holds at
    the end, the heap kept its arrays, the bytes not yet committed followed by
    the rest of the stream are the same, and so is the cursor relative to
    token-start. Peeking does this and nothing else. *)
Definition carried (h : heap) (z : Lexer) (h' : heap) (z' : Lexer) : Prop :=
  good h' z' ∧ extends h h'
  ∧ view h' (buf z') (start z') (len (buf z')) ++ stream (r z')
    = view h (buf z) (start z) (len (buf z)) ++ stream (r z)
  ∧ pos z' - start z' = pos z - start z.

(** A source that delivers ["abc"] and then ["XYZ"], in two reads. *)
Definition abc_XYZ : input :=
  Streaming [(["a"; "b"; "c"]%byte, None); (["X"; "Y"; "Z"]%byte, None)].

(** Peek at the offsets 0 to 3 (the last one refills), move over the six
    bytes, shift. *)
Definition scan_abcXYZ : list op :=
  [OPeek 0; OPeek 1; OPeek 2; OPeek 3; OMove 6; OShift].

(** A source that delivers ["ab"] in one read. *)
Definition ab : input := Streaming [(["a"; "b"]%byte, None)].

(** A source that delivers ["a"] and then ["b"], in two reads. *)
Definition a_b : input :=
  Streaming [(["a"%byte], None); (["b"%byte], None)].

(** A source that delivers ["abcdefgh"] in one read. *)
Definition abcdefgh : input :=
  Streaming [(["a"; "b"; "c"; "d"; "e"; "f"; "g"; "h"]%byte, None)].

(** A source that delivers ["ab"] together with an error that is not
    end-of-stream. *)
Definition ab_failing : input :=
  Streaming [(["a"; "b"]%byte, Some (Failure 1))].

(** The bytes [E2 82 AC] (the encoding of U+20AC) held in memory. *)
Definition euro_heap : list (list byte) := [[xe2; x82; xac]].
Definition euro : input := InMemory (mkSlice 0 0 3 3).

Definition euro_lexer : Lexer :=
  mkLexer [] (Some EOF) Pool.empty (mkSlice 0 0 3 3) 0 0 0.

End LexSpec.

(** ** Further notions *)

Module MoreSpec.
Import Mem Source Lex Run MemSpec PoolSpec LexSpec.

(** The bytes from the cursor on: the buffered ones, then what the reader has
    still to deliver. *)
Definition ahead (h : heap) (z : Lexer) : list byte :=
  view h (buf z) (pos z) (len (buf z)) ++ stream (r z).

(** The offset of the cursor in the source: the bytes committed so far, then
    those between token-start and the cursor. *)
Definition cursor_offset (evs : list event) (z : Lexer) : nat :=
  (length (concat (map event_bytes evs)) + Z.to_nat (pos z - start z))%nat.

(** The calls that commit nothing. *)
Definition scanning (o : op) : Prop :=
  match o with OShift | OSkip => False | _ => True end.

(** The bytes the pool is waiting for: those of the blocks of the chain, less
    the ones already reported as consumed. *)
Definition pending (z : Pool.BufferPool) : Z :=
  drained (Pool.pool z) (chain z) (length (chain z)) - Pool.pos z.

(** Nothing was reported to the pool as consumed: its counter is 0 and no
    block has been retired. *)
Definition untouched (p : Pool.BufferPool) : Prop :=
  Pool.pos p = 0 ∧ Forall (λ b, Pool.active b = true) (Pool.pool p).

(** The slice [s] is out of the way of the writes of a refill: it lies in
    another array than the buffer, or it ends within the buffered bytes. *)
Definition settled (z : Lexer) (s : slice) : Prop :=
  arr s ≠ arr (buf z) ∨ off s + len s <= off (buf z) + len (buf z).

(** From [(h, z)] to [(h', z')] nothing is reported to the pool, and the
    slices that were out of the way still are and show the same bytes. *)
Definition kept (h : heap) (z : Lexer) (h' : heap) (z' : Lexer) : Prop :=
  untouched (pool z) →
  untouched (pool z')
  ∧ ∀ s, backed h s → settled z s → settled z' s ∧ bytes h' s = bytes h s.

(** The calls that report no consumption. *)
Definition holding (o : op) : Prop :=
  match o with OFree _ => False | _ => True end.

(** A reader that keeps to the contract of [io.Reader] as the lexer needs it:
    no answer is empty without an error, and nothing follows an answer that
    reports end-of-stream. *)
Fixpoint orderly (rd : Reader) : Prop :=
  match rd with
  | [] => True
  | (data, e) :: rest =>
      (data ≠ [] ∨ e ≠ None) ∧ (e = Some EOF → stream rest = []) ∧ orderly rest
  end.

(** A source whose end-of-stream can be trusted: bytes in memory, or an
    orderly reader with a buffer size that is not zero. *)
Definition trusted (src : input) (size : Z) : Prop :=
  match src with
  | InMemory _ => True
  | Streaming rd => 0 < size ∧ orderly rd
  end.

(** The calls whose offset is an [int] far from overflow. *)
Definition modest (o : op) : Prop :=
  match o with
  | OPeek n | OPeekRune n => - 2 ^ 63 <= n < 2 ^ 60
  | _ => True
  end.

(** The lexer has recorded end-of-stream only if the reader has nothing left,
    the reader is orderly, and a buffer that may still be refilled has room. *)
Definition faithful (z : Lexer) : Prop :=
  (err z = Some EOF → stream (r z) = [])
  ∧ orderly (r z)
  ∧ (err z = None → 0 < cap (buf z)).

(** The backing arrays the lexer holds: that of its buffer, then those of
    the blocks of its pool. *)
Definition arrays (z : Lexer) : list nat :=
  arr (buf z) :: (arr <$> (Pool.buf <$> Pool.pool (pool z))).

(** With [C] bytes committed so far, the offset in the stream of the first
    byte of the tail block of the pool (of the buffer, when the chain is
    empty). *)
Definition base (z : Lexer) (C : Z) : Z :=
  C - start z
  - drained (Pool.pool (pool z)) (chain (pool z)) (length (chain (pool z))).

(** The books of a lexer after [C] bytes were committed and [F] reported as
    consumed: no array is held twice, and the counter of the pool is the
    consumption that reaches into the tail block. *)
Record owned (z : Lexer) (F C : Z) : Prop := mkOwned {
  owned_arrays : NoDup (arrays z);
  owned_pos : Pool.pos (pool z) = F - base z C;
  owned_freed : 0 <= F;
  owned_base : 0 <= base z C
}.

(** The slice [s] shows the bytes [bs], and its first byte, at the offset
    [t] of the stream, is committed: it lies in the array of the buffer, or
    in that of a block of the chain that ends beyond [t]. *)
Definition lodged (h : heap) (z : Lexer) (C : Z) (s : slice) (t : Z)
    (bs : list byte) : Prop :=
  bytes h s = bs
  ∧ ((arr s = arr (buf z) ∧ t < C)
     ∨ (∃ k i b,
          chain (pool z) !! k = Some i ∧ Pool.pool (pool z) !! i = Some b
          ∧ arr (Pool.buf b) = arr s
          ∧ t < base z C
                + drained (Pool.pool (pool z)) (chain (pool z)) (S k))).

(** The consumption a call reports, and that of a sequence of calls. *)
Definition freed_by (o : op) : Z :=
  match o with OFree n => n | _ => 0 end.

Definition freed (ops : list op) : Z :=
  foldr (λ o a, freed_by o + a) 0 ops.

(** The calls that report no negative consumption. *)
Definition sober (o : op) : Prop :=
  match o with OFree n => 0 <= n | _ => True end.

(** The capacity [read] asks of the pool for a buffer of capacity [c] and
    an offset [q] from token-start, as numbers. *)
Definition grown (c q : Z) : Z := if decide (2 * q > c) then 2 * c + q else c.

(** The size of the next answer of the reader ([0] when it has none left). *)
Definition next_chunk (rd : Reader) : Z :=
  match rd with
  | [] => 0
  | (data, _) :: _ => Z.of_nat (length data)
  end.

End MoreSpec.

(** * Properties *)

(** ** Integer facts *)

Module GoIntFacts.
Import GoInt.

Lemma wrap_small (x : Z) : - 2 ^ 63 <= x < 2 ^ 63 → wrap x = x.
Proof.
  intros Hx. unfold wrap.
  rewrite Z.mod_small by lia. lia.
Qed.

Lemma wrap_range (x : Z) : - 2 ^ 63 <= wrap x < 2 ^ 63.
Proof.
  unfold wrap.
  pose proof (Z.mod_pos_bound (x + 2 ^ 63) (2 ^ 64) ltac:(lia)). lia.
Qed.

Lemma add_small (x y : Z) : - 2 ^ 63 <= x + y < 2 ^ 63 → x +i y = x + y.
Proof. apply wrap_small. Qed.

Lemma sub_small (x y : Z) : - 2 ^ 63 <= x - y < 2 ^ 63 → x -i y = x - y.
Proof. apply wrap_small. Qed.

Lemma mul_small (x y : Z) : - 2 ^ 63 <= x * y < 2 ^ 63 → x *i y = x * y.
Proof. apply wrap_small. Qed.

End GoIntFacts.

(** ** Memory facts *)

Module MemFacts.
Import Mem MemSpec.

Lemma extends_refl h : extends h h.
Proof. intros i a Ha. by exists a. Qed.

Lemma extends_trans h1 h2 h3 : extends h1 h2 → extends h2 h3 → extends h1 h3.
Proof.
  intros H12 H23 i a Ha.
  destruct (H12 i a Ha) as (a2 & Ha2 & Hl2).
  destruct (H23 i a2 Ha2) as (a3 & Ha3 & Hl3).
  exists a3. split; [done|congruence].
Qed.

Lemma extends_app h k : extends h (h ++ k).
Proof.
  intros i a Ha. exists a. split; [|done].
  rewrite lookup_app_l; [done|]. by eapply lookup_lt_Some.
Qed.

Lemma backed_extends h h' s : extends h h' → backed h s → backed h' s.
Proof.
  intros Hext [Hok (a & Ha & Hlen)].
  destruct (Hext _ _ Ha) as (a' & Ha' & Hl').
  split; [done|]. exists a'. split; [done|lia].
Qed.

Lemma blit_length a i bs : length (blit a i bs) = length a.
Proof.
  unfold blit. rewrite length_take, !length_app, length_take, length_drop. lia.
Qed.

Lemma blit_lookup a i bs j :
  (i + length bs ≤ length a)%nat →
  blit a i bs !! j
  = if decide (i ≤ j < i + length bs)%nat then bs !! (j - i)%nat else a !! j.
Proof.
  intros Hfit. unfold blit.
  rewrite take_ge by (rewrite !length_app, length_take, length_drop; lia).
  destruct (decide (j < i)%nat) as [Hlt|Hge].
  - rewrite lookup_app_l by (rewrite length_take; lia).
    rewrite lookup_take_lt by done. rewrite decide_False by lia. done.
  - rewrite lookup_app_r by (rewrite length_take; lia).
    rewrite length_take. replace (i `min` length a)%nat with i by lia.
    destruct (decide (j < i + length bs)%nat) as [Hin|Hout].
    + rewrite lookup_app_l by lia. rewrite decide_True by lia. done.
    + rewrite lookup_app_r by lia. rewrite lookup_drop.
      rewrite decide_False by lia. f_equal. lia.
Qed.

Lemma blit_nil a i : blit a i [] = a.
Proof.
  unfold blit. simpl. rewrite Nat.add_0_r, take_drop. by rewrite take_ge.
Qed.

Lemma store_nil h s : store h s [] = h.
Proof.
  unfold store. destruct (h !! arr s) as [a|] eqn:Ha; [|done].
  rewrite blit_nil. by apply list_insert_id.
Qed.

Lemma store_extends h s bs : extends h (store h s bs).
Proof.
  unfold store. destruct (h !! arr s) as [a|] eqn:Ha; [|apply extends_refl].
  intros i a' Ha'. destruct (decide (i = arr s)) as [->|Hne].
  - exists (blit a (Z.to_nat (off s)) bs). split.
    + apply list_lookup_insert_eq. by eapply lookup_lt_Some.
    + rewrite blit_length. congruence.
  - exists a'. split; [|done]. by rewrite list_lookup_insert_ne.
Qed.

Lemma bytes_prefix h k s : (arr s < length h)%nat → bytes (h ++ k) s = bytes h s.
Proof. intros Hs. unfold bytes. by rewrite lookup_app_l. Qed.

(** What a slice shows has the length of the slice when its array is there. *)
Lemma length_bytes h s :
  backed h s → length (bytes h s) = Z.to_nat (len s).
Proof.
  intros [(Ho & Hl & Hc) (a & Ha & Hlen)]. unfold bytes. rewrite Ha.
  rewrite length_take, length_drop. lia.
Qed.

Lemma length_view h s a b :
  backed h s → 0 <= a <= b → b <= cap s → length (view h s a b) = Z.to_nat (b - a).
Proof.
  intros [(Ho & Hl & Hc) (ar & Ha & Hlen)] Hab Hb. unfold view, bytes. simpl.
  rewrite Ha, length_take, length_drop. lia.
Qed.

Lemma view_split h s a b c :
  0 <= off s → 0 <= a <= b → b <= c →
  view h s a c = view h s a b ++ view h s b c.
Proof.
  intros Ho Hab Hbc. unfold view, bytes. simpl.
  destruct (h !! arr s) as [ar|]; [|done].
  replace (Z.to_nat (c - a)) with (Z.to_nat (b - a) + Z.to_nat (c - b))%nat by lia.
  rewrite <- take_take_drop. f_equal.
  rewrite drop_drop. do 2 f_equal. lia.
Qed.

(** Two writes one behind the other at the start of a buffer, as a refill
    makes them: the left-over bytes [X], then the bytes [D] just read. *)
Lemma bytes_refill h s dst room out X D :
  backed h s →
  arr dst = arr s → off dst = off s →
  arr room = arr s → off room = off s + Z.of_nat (length X) →
  arr out = arr s → off out = off s →
  len out = Z.of_nat (length X) + Z.of_nat (length D) →
  len out <= cap s →
  bytes (store (store h dst X) room D) out = X ++ D.
Proof.
  intros [(Ho & Hl & Hc) (a & Ha & Hlen)] Hd1 Hd2 Hr1 Hr2 Ho1 Ho2 Ho3 Hfit.
  assert (arr s < length h)%nat as Hlt by by eapply lookup_lt_Some.
  unfold store, bytes. rewrite Hd1, Hd2, Ha, Hr1, Hr2, Ho1, Ho2, Ho3.
  rewrite list_lookup_insert_eq by done.
  rewrite list_lookup_insert_eq by by rewrite length_insert.
  set (o := Z.to_nat (off s)).
  replace (Z.to_nat (off s + Z.of_nat (length X))) with (o + length X)%nat by lia.
  replace (Z.to_nat (Z.of_nat (length X) + Z.of_nat (length D)))
    with (length X + length D)%nat by lia.
  assert (o + length X + length D ≤ length a)%nat as Hfit' by lia.
  apply list_eq. intros j.
  destruct (decide (j < length X + length D)%nat) as [Hj|Hj].
  - rewrite lookup_take_lt by done. rewrite lookup_drop.
    rewrite blit_lookup by (rewrite blit_length; lia).
    destruct (decide (j < length X)%nat) as [HjX|HjX].
    + rewrite decide_False by lia. rewrite blit_lookup by lia.
      rewrite decide_True by lia. rewrite lookup_app_l by done. f_equal. lia.
    + rewrite decide_True by lia. rewrite lookup_app_r by lia. f_equal. lia.
  - rewrite lookup_take_ge by lia. symmetry. apply lookup_ge_None.
    rewrite length_app. lia.
Qed.

Lemma reslice_Some s a b s' :
  reslice s a b = Some s' →
  0 <= a <= b ∧ b <= cap s
  ∧ s' = mkSlice (arr s) (off s + a) (b - a) (cap s - a).
Proof.
  unfold reslice. case_decide as H; [|done]. intros [= <-].
  destruct H as (? & ?). done.
Qed.

Lemma backed_reslice h s a b s' :
  backed h s → reslice s a b = Some s' → backed h s'.
Proof.
  intros [(Ho & Hl & Hc) (ar & Ha & Hlen)] (Hab & Hb & ->)%reslice_Some.
  split.
  - unfold slice_ok. simpl. lia.
  - exists ar. simpl. split; [done|lia].
Qed.

End MemFacts.

(** ** The chain of a pool *)

Module PoolFacts.
Import Mem Pool PoolSpec GoIntFacts.

Lemma linked_in_range pl t l i :
  linked pl t l → i ∈ l → is_Some (pl !! i) .
Proof.
  revert t. induction l as [|j l IH]; intros t Hl Hi.
  - by apply elem_of_nil in Hi.
  - destruct Hl as [-> (b & Hb & Hact & Hl)].
    apply elem_of_cons in Hi as [->|Hi]; [by eexists|eauto].
Qed.

Lemma linked_active pl t l i :
  linked pl t l → i ∈ l → ∃ b, pl !! i = Some b ∧ active b = true.
Proof.
  revert t. induction l as [|j l IH]; intros t Hl Hi.
  - by apply elem_of_nil in Hi.
  - destruct Hl as [-> (b & Hb & Hact & Hl)].
    apply elem_of_cons in Hi as [->|Hi]; [by eexists|eauto].
Qed.

(** The walk only looks at the blocks it visits. *)
Lemma linked_agree pl pl' t l :
  linked pl t l → (∀ i, i ∈ l → pl' !! i = pl !! i) → linked pl' t l.
Proof.
  revert t. induction l as [|j l IH]; intros t Hl Hag; [done|].
  destruct Hl as [-> (b & Hb & Hact & Hl)].
  split; [done|]. exists b. split_and!; [|done|].
  - rewrite Hag; [done|]. apply elem_of_cons; by left.
  - apply IH; [done|]. intros i Hi. apply Hag, elem_of_cons; by right.
Qed.

(** Appending the block [s] behind the last block [j] of a chain. *)
Lemma linked_snoc pl pl' t l j s :
  linked pl t (l ++ [j]) → NoDup (l ++ [j]) →
  (∀ i, i ∈ l → pl' !! i = pl !! i) →
  (∃ b, pl' !! j = Some b ∧ active b = true ∧ next b = S s) →
  (∃ b, pl' !! s = Some b ∧ active b = true ∧ next b = 0%nat) →
  linked pl' t (l ++ [j; s]).
Proof.
  revert t. induction l as [|i l IH]; intros t Hl Hnd Hag Hj Hs; simpl in *.
  - destruct Hl as [-> _]. split; [done|].
    destruct Hj as (b & Hb & Hact & Hn). exists b. split_and!; [done..|].
    done.
  - destruct Hl as [-> (b & Hb & Hact & Hl)]. split; [done|].
    apply NoDup_cons in Hnd as [Hi Hnd].
    exists b. split_and!; [|done|].
    + rewrite Hag; [done|]. apply elem_of_cons; by left.
    + apply IH; [done..| |done|done].
      intros i' Hi'. apply Hag, elem_of_cons; by right.
Qed.

Lemma linked_length pl t l : linked pl t l → NoDup l → (length l ≤ length pl)%nat.
Proof.
  intros Hl Hnd.
  assert (l ⊆+ seq 0 (length pl)) as Hsub.
  { apply NoDup_submseteq; [done|]. intros i Hi.
    destruct (linked_in_range _ _ _ _ Hl Hi) as [b Hb].
    apply lookup_lt_Some in Hb. apply elem_of_seq. lia. }
  apply submseteq_length in Hsub. by rewrite length_seq in Hsub.
Qed.

Lemma follow_linked pl t l fuel :
  linked pl t l → (length l ≤ fuel)%nat → follow fuel pl t = l.
Proof.
  revert t l. induction fuel as [|fuel IH]; intros t l Hl Hlen.
  - destruct l; [by destruct t|simpl in Hlen; lia].
  - destruct l as [|i l]; simpl in *.
    + by subst t.
    + destruct Hl as [-> (b & Hb & Hact & Hl)]. rewrite Hb.
      f_equal. apply IH; [done|lia].
Qed.

(** On a well-formed pool the walk from the tail is the chain. *)
Lemma wf_chain z l : wf z l → chain z = l.
Proof.
  intros [Hnd Hl _ _]. apply follow_linked; [done|].
  by eapply linked_length.
Qed.

(** *** [swap] *)

Lemma find_reusable_Some bs size i0 i :
  find_reusable bs size i0 = Some i →
  (i0 ≤ i)%nat ∧
  ∃ b, bs !! (i - i0)%nat = Some b ∧ active b = false ∧ size <= cap (buf b).
Proof.
  revert i0. induction bs as [|b bs IH]; intros i0 Hf; simpl in Hf; [done|].
  destruct (negb (active b) && bool_decide (size <= cap (buf b))) eqn:Hc.
  - injection Hf as <-. split; [lia|]. exists b.
    apply andb_true_iff in Hc as [Ha Hs].
    apply negb_true_iff in Ha. apply bool_decide_eq_true in Hs.
    by rewrite Nat.sub_diag.
  - apply IH in Hf as [Hle (b' & Hb' & Ha & Hs)]. split; [lia|].
    exists b'. split_and!; [|done..].
    replace (i - i0)%nat with (S (i - S i0)) by lia. done.
Qed.

Lemma find_reusable_None bs size i0 :
  find_reusable bs size i0 = None →
  Forall (λ b, active b = true ∨ cap (buf b) < size) bs.
Proof.
  revert i0. induction bs as [|b bs IH]; intros i0 Hf; simpl in Hf; [done|].
  destruct (negb (active b) && bool_decide (size <= cap (buf b))) eqn:Hc; [done|].
  constructor; [|by eapply IH].
  apply andb_false_iff in Hc as [Ha|Hs].
  - left. by apply negb_false_iff in Ha.
  - right. apply bool_decide_eq_false in Hs. lia.
Qed.

Lemma last_plus_one_snoc l j : last_plus_one (l ++ [j]) = S j.
Proof. unfold last_plus_one. by rewrite last_snoc. Qed.

Lemma slice_ok_make h size h' s : make h size = Some (h', s) → slice_ok s.
Proof.
  unfold make. case_decide; [|done]. intros [= <- <-].
  unfold slice_ok; simpl. lia.
Qed.

Lemma reslice_empty s : slice_ok s → reslice s 0 0 = Some (mkSlice (arr s) (off s) 0 (cap s)).
Proof.
  intros (Ho & Hl & Hc). unfold reslice.
  rewrite decide_True by lia. do 2 f_equal; lia.
Qed.

(** Interning the retired buffer in the slot [s], which is not on the chain,
    puts [s] at the head of the chain and hands out the buffer the slot held. *)
Lemma intern_wf z pl l s b oldBuf :
  NoDup l → linked pl (tail z) l → head z = last_plus_one l →
  Forall (λ b, slice_ok (buf b)) pl →
  s ∉ l → pl !! s = Some b → slice_ok oldBuf →
  ∃ z', intern z pl s oldBuf = Some (z', mkSlice (arr (buf b)) (off (buf b)) 0 (cap (buf b)))
        ∧ wf z' (l ++ [s]) ∧ pos z' = pos z
        ∧ tail z' = (if decide (tail z = 0%nat) then S s else tail z)
        ∧ block_len (pool z') s = len oldBuf
        ∧ ∀ i, i ≠ s → block_len (pool z') i = block_len pl i.
Proof.
  intros Hnd Hl Hhead Hsl Hs Hb Hold.
  assert (s < length pl)%nat as Hlt by by eapply lookup_lt_Some.
  assert (slice_ok (buf b)) as Hokb.
  { eapply Forall_lookup_1 in Hsl; [|exact Hb]. done. }
  assert (Forall (λ b, slice_ok (buf b)) (<[s:=mkBlock oldBuf 0 true]> pl)) as Hsl1.
  { apply Forall_insert; done. }
  unfold intern. rewrite Hb. simpl. rewrite reslice_empty by done.
  destruct (decide (l = [])) as [->|Hne].
  - simpl in Hl. unfold last_plus_one in Hhead; simpl in Hhead.
    rewrite Hhead, Hl. simpl. eexists. split; [done|].
    split_and!; simpl.
    + constructor; simpl.
      * apply NoDup_singleton.
      * split; [lia|]. eexists. split_and!; [by apply list_lookup_insert_eq|done|done].
      * unfold last_plus_one. simpl. lia.
      * done.
    + done.
    + lia.
    + unfold block_len. by rewrite list_lookup_insert_eq.
    + intros i Hi. unfold block_len. by rewrite list_lookup_insert_ne.
  - destruct (exists_last Hne) as (l0 & j & ->).
    rewrite last_plus_one_snoc in Hhead. rewrite Hhead.
    assert (j ∈ l0 ++ [j]) as Hj by (apply elem_of_app; right; by apply list_elem_of_singleton).
    destruct (linked_active _ _ _ _ Hl Hj) as (hb & Hhb & Hact).
    assert (j ≠ s) as Hjs by (intros ->; done).
    assert (tail z ≠ 0%nat) as Htl.
    { destruct l0; simpl in Hl; destruct Hl as [-> _]; lia. }
    destruct (decide (S j ≠ 0%nat)) as [_|?]; [|lia].
    replace (S j - 1)%nat with j by lia.
    rewrite list_lookup_insert_ne by done. rewrite Hhb. simpl.
    destruct (decide (tail z = 0%nat)) as [?|_]; [lia|].
    eexists. split; [done|]. split_and!; simpl.
    + constructor; simpl.
      * apply NoDup_app. split_and!; [done| |apply NoDup_singleton].
        intros i Hi Hi'. apply list_elem_of_singleton in Hi'. by subst i.
      * rewrite <- app_assoc. simpl.
        apply (linked_snoc pl); [done|done| | |].
        -- intros i Hi.
           apply NoDup_app in Hnd as (_ & Hdis & _).
           rewrite !list_lookup_insert_ne; [done| |].
           ++ intros ->. apply Hs, elem_of_app. by left.
           ++ intros ->. eapply Hdis; [done|]. by apply list_elem_of_singleton.
        -- eexists. split; [apply list_lookup_insert_eq|].
           ++ rewrite length_insert. by eapply lookup_lt_Some.
           ++ simpl. split; [done|lia].
        -- eexists. split.
           ++ rewrite list_lookup_insert_ne by done. by apply list_lookup_insert_eq.
           ++ done.
      * rewrite last_plus_one_snoc. lia.
      * apply Forall_insert; [done|]. simpl.
        eapply Forall_lookup_1 in Hsl; [|exact Hhb]. done.
    + done.
    + done.
    + unfold block_len. rewrite list_lookup_insert_ne by done.
      by rewrite list_lookup_insert_eq.
    + intros i Hi. unfold block_len.
      destruct (decide (i = j)) as [->|Hij].
      * rewrite list_lookup_insert_eq.
        -- simpl. by rewrite Hhb.
        -- rewrite length_insert. by eapply lookup_lt_Some.
      * by rewrite !list_lookup_insert_ne.
Qed.

Lemma swap_total h z l oldBuf size :
  wf z l → slice_ok oldBuf → 0 <= size <= maxAlloc →
  ∃ h' z' out, swap h z oldBuf size = Some (h', z', out)
    ∧ len out = 0 ∧ size <= cap out ∧ slice_ok out
    ∧ swap_path h z oldBuf size h' out.
Proof.
  intros [Hnd Hl Hhead Hsl] Hold Hsize. unfold swap.
  destruct (find_reusable (pool z) size 0) as [i|] eqn:Hfind.
  - pose proof Hfind as Hfind'.
    apply find_reusable_Some in Hfind' as (_ & b & Hb & Ha & Hs).
    rewrite Nat.sub_0_r in Hb.
    assert (i ∉ l) as Hil.
    { intros Hi. destruct (linked_active _ _ _ _ Hl Hi) as (b' & Hb' & Ha').
      congruence. }
    destruct (intern_wf z (pool z) l i b oldBuf) as (z' & -> & _); try done.
    simpl. eexists _, _, _. split; [done|]. simpl.
    assert (slice_ok (buf b)) as (? & ? & ?).
    { eapply Forall_lookup_1 in Hsl; [|exact Hb]. done. }
    split_and!; try done; [unfold slice_ok; simpl; lia|].
    by eapply path_reuse.
  - case_decide as Hc.
    + rewrite reslice_empty by done. simpl.
      destruct Hold as (? & ? & ?). destruct Hc as (? & ? & ?).
      eexists _, _, _. split; [done|]. simpl.
      split_and!; try done; try lia; [unfold slice_ok; simpl; lia|].
      by apply path_in_place.
    + unfold make. rewrite decide_True by done. simpl.
      rewrite length_app. simpl. rewrite Nat.add_sub.
      set (fresh := mkSlice (length h) 0 0 size).
      destruct (intern_wf z (pool z ++ [mkBlock fresh 0 true]) l (length (pool z))
                  (mkBlock fresh 0 true) oldBuf) as (z' & -> & _); try done.
      * eapply linked_agree; [done|]. intros i Hi.
        destruct (linked_in_range _ _ _ _ Hl Hi) as [b Hb].
        rewrite lookup_app_l; [done|]. by eapply lookup_lt_Some.
      * apply Forall_app. split; [done|]. constructor; [|done].
        unfold slice_ok; simpl. lia.
      * intros Hi. destruct (linked_in_range _ _ _ _ Hl Hi) as [b Hb].
        apply lookup_lt_Some in Hb. lia.
      * rewrite lookup_app_r by lia. by rewrite Nat.sub_diag.
      * simpl. eexists _, _, _. split; [done|]. simpl.
        split_and!; try done; try lia; [unfold slice_ok; simpl; lia|].
        by apply path_allocate.
Qed.

Lemma swap_wf h z l oldBuf size h' z' out :
  wf z l → slice_ok oldBuf → swap h z oldBuf size = Some (h', z', out) →
  (z' = mkPool (pool z) (head z) (tail z) ((pos z) -i (len oldBuf)) ∧ l = []
     ∧ len oldBuf <= pos z ∧ wf z' l)
  ∨ (∃ s, (s ∉ l) ∧ wf z' (l ++ [s]) ∧ pos z' = pos z
        ∧ tail z' = (if decide (tail z = 0%nat) then S s else tail z)
        ∧ block_len (pool z') s = len oldBuf
        ∧ ∀ i, i ∈ l → block_len (pool z') i = block_len (pool z) i).
Proof.
  intros Hwf Hold. pose proof Hwf as [Hnd Hl Hhead Hsl]. unfold swap.
  destruct (find_reusable (pool z) size 0) as [i|] eqn:Hfind.
  - apply find_reusable_Some in Hfind as (_ & b & Hb & Ha & Hs).
    rewrite Nat.sub_0_r in Hb.
    assert (i ∉ l) as Hil.
    { intros Hi. destruct (linked_active _ _ _ _ Hl Hi) as (b' & Hb' & Ha').
      congruence. }
    destruct (intern_wf z (pool z) l i b oldBuf)
      as (z1 & -> & Hwf1 & Hpos & Htail & Hlens & Hlen); try done.
    simpl. intros [= <- <- <-]. right. exists i. split_and!; try done.
    intros j Hj. apply Hlen. by intros ->.
  - case_decide as Hc.
    + rewrite reslice_empty by done. simpl. intros [= <- <- <-].
      destruct Hc as (Ht & Hp & _). left.
      assert (l = []) as ->.
      { destruct l; [done|]. simpl in Hl. destruct Hl as [Hl _]. lia. }
      split_and!; try done. lia.
    + destruct (make h size) as [[h1 fresh]|] eqn:Hmk; [|done]. simpl.
      pose proof (slice_ok_make _ _ _ _ Hmk) as Hfresh.
      rewrite length_app. simpl. rewrite Nat.add_sub.
      destruct (intern_wf z (pool z ++ [mkBlock fresh 0 true]) l (length (pool z))
                  (mkBlock fresh 0 true) oldBuf)
        as (z1 & -> & Hwf1 & Hpos & Htail & Hlens & Hlen); try done.
      * eapply linked_agree; [done|]. intros i Hi.
        destruct (linked_in_range _ _ _ _ Hl Hi) as [b Hb].
        rewrite lookup_app_l; [done|]. by eapply lookup_lt_Some.
      * apply Forall_app. split; [done|]. by constructor.
      * intros Hi. destruct (linked_in_range _ _ _ _ Hl Hi) as [b Hb].
        apply lookup_lt_Some in Hb. lia.
      * rewrite lookup_app_r by lia. by rewrite Nat.sub_diag.
      * simpl. intros [= <- <- <-]. right. exists (length (pool z)).
        assert (∀ i, i ∈ l → (i < length (pool z))%nat) as Hin.
        { intros i Hi. destruct (linked_in_range _ _ _ _ Hl Hi) as [b Hb].
          by eapply lookup_lt_Some. }
        split_and!; try done.
        -- intros Hi. apply Hin in Hi. lia.
        -- intros i Hi. rewrite Hlen.
           ++ unfold block_len. rewrite lookup_app_l; [done|]. by apply Hin.
           ++ apply Hin in Hi. lia.
Qed.


(** *** [free] *)

Lemma drained_0 pl l : drained pl l 0 = 0.
Proof. done. Qed.

Lemma drained_S pl i l k :
  drained pl (i :: l) (S k) = block_len pl i + drained pl l k.
Proof. done. Qed.

Lemma drained_agree pl pl' l k :
  (∀ i, i ∈ l → block_len pl' i = block_len pl i) →
  drained pl' l k = drained pl l k.
Proof.
  revert k. induction l as [|i l IH]; intros k Hag.
  - by destruct k.
  - destruct k as [|k]; [done|]. rewrite !drained_S.
    rewrite Hag by (apply elem_of_cons; by left).
    rewrite IH; [done|]. intros j Hj. apply Hag, elem_of_cons; by right.
Qed.

Lemma drained_mono pl l k k' :
  (∀ i, i ∈ l → 0 <= block_len pl i) → (k ≤ k')%nat →
  drained pl l k <= drained pl l k'.
Proof.
  revert k k'. induction l as [|i l IH]; intros k k' Hpos Hk.
  - destruct k, k'; unfold drained; simpl; lia.
  - assert (0 <= block_len pl i) as Hi by (apply Hpos, elem_of_cons; by left).
    assert (∀ j, j ∈ l → 0 <= block_len pl j) as Hl
      by (intros j Hj; apply Hpos, elem_of_cons; by right).
    destruct k as [|k], k' as [|k']; try lia.
    + rewrite drained_0, drained_S.
      specialize (IH 0%nat k' Hl ltac:(lia)). rewrite drained_0 in IH. lia.
    + rewrite !drained_S. specialize (IH k k' Hl ltac:(lia)). lia.
Qed.

Lemma free_loop_end fuel pl hd p :
  free_loop fuel (mkPool pl hd 0 p) = Some (mkPool pl hd 0 p).
Proof. by destruct fuel. Qed.

Lemma free_loop_stop fuel pl hd i p b :
  pl !! i = Some b → ¬ p >= len (buf b) →
  free_loop fuel (mkPool pl hd (S i) p) = Some (mkPool pl hd (S i) p).
Proof.
  intros Hb Hp.
  destruct fuel; simpl; replace (i - 0)%nat with i by lia; rewrite Hb; simpl;
    by rewrite decide_False by done.
Qed.

Lemma free_loop_step fuel pl hd i p b :
  pl !! i = Some b → p >= len (buf b) →
  free_loop (S fuel) (mkPool pl hd (S i) p)
  = free_loop fuel (mkPool (<[i := retire b]> pl) hd (next b) (p -i len (buf b))).
Proof.
  intros Hb Hp. simpl. replace (i - 0)%nat with i by lia. rewrite Hb. simpl.
  by rewrite decide_True by done.
Qed.

(** The loop of [free] on a chain [l]: it walks past the first [k] blocks,
    where [k] is the number of leading blocks whose total length the counter
    has reached, and retires exactly them. *)
Lemma free_loop_spec l : ∀ pl hd t p fuel,
  NoDup l → linked pl t l →
  (∀ i, i ∈ l → 0 <= block_len pl i) →
  - 2 ^ 63 <= p < 2 ^ 63 → (length l ≤ fuel)%nat →
  ∃ k pl' t',
    (k ≤ length l)%nat
    ∧ free_loop fuel (mkPool pl hd t p) = Some (mkPool pl' hd t' (p - drained pl l k))
    ∧ linked pl' t' (drop k l)
    ∧ (∀ i b, pl !! i = Some b →
         pl' !! i = Some (if decide (i ∈ take k l) then retire b else b))
    ∧ length pl' = length pl
    ∧ (∀ j, (j < k)%nat → drained pl l (S j) <= p)
    ∧ ((k < length l)%nat → p < drained pl l (S k)).
Proof.
  induction l as [|i l IH]; intros pl hd t p fuel Hnd Hl Hlen Hp Hfuel.
  - simpl in Hl. subst t. exists 0%nat, pl, 0%nat.
    split_and!.
    + done.
    + rewrite free_loop_end, drained_0. do 2 f_equal; lia.
    + done.
    + intros i b Hb. rewrite decide_False; [done|]. rewrite take_nil. apply not_elem_of_nil.
    + done.
    + intros j Hj. lia.
    + simpl. lia.
  - simpl in Hl. destruct Hl as [-> (b & Hb & Hact & Hl)].
    apply NoDup_cons in Hnd as [Hi Hnd].
    assert (block_len pl i = len (buf b)) as Hbl by (unfold block_len; by rewrite Hb).
    assert (0 <= len (buf b)) as Hb0.
    { rewrite <- Hbl. apply Hlen, elem_of_cons. by left. }
    destruct (decide (p >= len (buf b))) as [Hge|Hlt].
    + destruct fuel as [|fuel]; [simpl in Hfuel; lia|].
      set (pl1 := <[i := retire b]> pl).
      assert (∀ j, block_len pl1 j = block_len pl j) as Hag.
      { intros j. unfold block_len, pl1. destruct (decide (j = i)) as [->|Hne].
        - rewrite list_lookup_insert_eq by by eapply lookup_lt_Some. by rewrite Hb.
        - by rewrite list_lookup_insert_ne. }
      destruct (IH pl1 hd (next b) (p - len (buf b)) fuel)
        as (k & pl' & t' & Hk & Hrun & Hl' & Hpl' & Hlenpl & Hdr & Hstop).
      * done.
      * eapply linked_agree; [done|]. intros j Hj. unfold pl1.
        rewrite list_lookup_insert_ne; [done|]. by intros ->.
      * intros j Hj. rewrite Hag. apply Hlen, elem_of_cons. by right.
      * lia.
      * simpl in Hfuel. lia.
      * exists (S k), pl', t'.
        rewrite (drained_agree pl pl1) in Hrun, Hstop by done.
        split_and!.
        -- simpl. lia.
        -- rewrite (free_loop_step _ _ _ _ _ b) by done.
           rewrite sub_small by lia. fold pl1. rewrite Hrun.
           rewrite drained_S, Hbl. do 2 f_equal. lia.
        -- done.
        -- intros j bj Hbj. simpl. destruct (decide (j = i)) as [->|Hne].
           ++ rewrite decide_True by (apply elem_of_cons; by left).
              assert (bj = b) as -> by congruence.
              erewrite Hpl'; [|unfold pl1; apply list_lookup_insert_eq; by eapply lookup_lt_Some].
              by case_decide.
           ++ erewrite Hpl'; [|unfold pl1; by rewrite list_lookup_insert_ne].
              f_equal. do 2 case_decide; try done.
              ** exfalso. apply H0. apply elem_of_cons. by right.
              ** apply elem_of_cons in H0 as [?|?]; done.
        -- rewrite Hlenpl. unfold pl1. by rewrite length_insert.
        -- intros j Hj. destruct j as [|j].
           ++ rewrite drained_S, drained_0, Hbl. lia.
           ++ rewrite drained_S, Hbl.
              specialize (Hdr j ltac:(lia)).
              rewrite (drained_agree pl pl1) in Hdr by done. lia.
        -- intros Hk'. simpl in Hk'. rewrite drained_S, Hbl.
           specialize (Hstop ltac:(lia)). lia.
    + exists 0%nat, pl, (S i). split_and!.
      * lia.
      * rewrite (free_loop_stop _ _ _ _ _ b) by done.
        rewrite drained_0. do 2 f_equal; lia.
      * simpl. split; [done|]. by exists b.
      * intros j bj Hbj. rewrite decide_False; [done|]. simpl. apply not_elem_of_nil.
      * done.
      * intros j Hj. lia.
      * intros _. rewrite drained_S, drained_0, Hbl. lia.
Qed.

Lemma wf_block_len z l i : wf z l → 0 <= block_len (pool z) i.
Proof.
  intros [_ _ _ Hsl]. unfold block_len.
  destruct (pool z !! i) as [b|] eqn:Hb; [|lia].
  eapply Forall_lookup_1 in Hsl; [|exact Hb].
  destruct Hsl as (_ & ? & _). lia.
Qed.

(** [free] on a well-formed pool: it returns, retires the first [k] blocks of
    the chain and leaves the rest as the chain. *)
Lemma free_spec z l n :
  wf z l →
  ∃ k z',
    free z n = Some z' ∧ (k ≤ length l)%nat ∧ wf z' (drop k l)
    ∧ pos z' = (pos z +i n) - drained (pool z) l k
    ∧ (∀ i b, pool z !! i = Some b →
         pool z' !! i = Some (if decide (i ∈ take k l) then retire b else b))
    ∧ (∀ j, (j < k)%nat → drained (pool z) l (S j) <= pos z +i n)
    ∧ ((k < length l)%nat → pos z +i n < drained (pool z) l (S k))
    ∧ length (pool z') = length (pool z).
Proof.
  intros Hwf. pose proof Hwf as [Hnd Hl Hhead Hsl].
  destruct (free_loop_spec l (pool z) (head z) (tail z) (pos z +i n) (length (pool z)))
    as (k & pl' & t' & Hk & Hrun & Hl' & Hpl' & Hlen & Hdr & Hstop).
  - done.
  - done.
  - intros i _. by eapply wf_block_len.
  - apply wrap_range.
  - by eapply linked_length.
  - assert (Forall (λ b, slice_ok (buf b)) pl') as Hsl'.
    { apply Forall_lookup_2. intros i b' Hb'.
      assert (is_Some (pool z !! i)) as [b Hb].
      { apply lookup_lt_is_Some. rewrite <- Hlen. by eapply lookup_lt_Some. }
      pose proof (Hpl' i b Hb) as Hb''. rewrite Hb' in Hb''.
      injection Hb'' as ->.
      eapply Forall_lookup_1 in Hsl; [|exact Hb]. by case_decide. }
    assert (NoDup (drop k l)) as Hnd'.
    { apply (sublist_NoDup (drop k l) l Hnd (sublist_drop l k)). }
    exists k. unfold free. rewrite Hrun. simpl.
    destruct (decide (t' = 0%nat)) as [->|Ht'].
    + eexists. split; [done|]. split_and!; try done.
      destruct (drop k l) as [|i l0] eqn:Hd.
      * by constructor.
      * simpl in Hl'. destruct Hl' as [? _]. lia.
    + eexists. split; [done|]. split_and!; try done.
      constructor; simpl; try done.
      destruct (drop k l) as [|i l0] eqn:Hd; [done|].
      rewrite Hhead. unfold last_plus_one.
      rewrite <- (take_drop k l) at 1. rewrite last_app, Hd.
      by destruct (last (i :: l0)) eqn:Hlast;
        [|apply last_None in Hlast].
Qed.

(** *** The invariant holds in every pool state *)

Lemma wf_empty : wf empty [].
Proof. constructor; simpl; [apply NoDup_nil_2|done|done|apply Forall_nil_2]. Qed.

Lemma reachable_wf z : reachable z → ∃ l, wf z l.
Proof.
  induction 1 as [|h z oldBuf size h' z' out _ [l Hwf] Hold Hswap
                  |z n z' _ [l Hwf] Hfree].
  - exists []. apply wf_empty.
  - destruct (swap_wf _ _ _ _ _ _ _ _ Hwf Hold Hswap)
      as [(_ & _ & _ & Hwf')|(s & _ & Hwf' & _)]; eauto.
  - destruct (free_spec z l n Hwf) as (k & z1 & Hfree' & _ & Hwf' & _).
    rewrite Hfree in Hfree'. injection Hfree' as <-. eauto.
Qed.

Lemma intern_keeps_active z pl s oldBuf z' out i :
  intern z pl s oldBuf = Some (z', out) →
  (∃ b, pl !! i = Some b ∧ active b = true) → is_active z' i.
Proof.
  unfold intern. destruct (pl !! s) as [b|] eqn:Hb; simpl; [|done].
  intros Hi (bi & Hbi & Hact). unfold is_active.
  destruct (decide (head z ≠ 0%nat)).
  - destruct (<[s:=mkBlock oldBuf 0 true]> pl !! (head z - 1)%nat) as [hb|] eqn:Hhb;
      simpl in Hi; [|done].
    destruct (reslice (buf b) 0 0); simpl in Hi; [|done].
    injection Hi as <- <-. simpl.
    rewrite list_lookup_insert in Hhb. rewrite !list_lookup_insert.
    rewrite length_insert.
    repeat case_decide; simplify_eq; simpl; eauto.
    destruct_and!. simplify_eq. eauto.
  - simpl in Hi. destruct (reslice (buf b) 0 0); simpl in Hi; [|done].
    injection Hi as <- <-. simpl.
    rewrite list_lookup_insert. case_decide; eauto.
Qed.

Lemma swap_keeps_active h z oldBuf size h' z' out i :
  swap h z oldBuf size = Some (h', z', out) → is_active z i → is_active z' i.
Proof.
  unfold swap. intros Hswap Hi.
  destruct (find_reusable (pool z) size 0) as [j|].
  - destruct (intern z (pool z) j oldBuf) as [[z1 o1]|] eqn:Hint; [|done].
    simpl in Hswap. injection Hswap as <- <- <-.
    by eapply intern_keeps_active.
  - case_decide.
    + destruct (reslice oldBuf 0 0); [|done]. simpl in Hswap.
      by injection Hswap as <- <- <-.
    + destruct (make h size) as [[h1 fresh]|]; [|done]. simpl in Hswap.
      destruct (intern z _ _ oldBuf) as [[z1 o1]|] eqn:Hint; [|done].
      simpl in Hswap. injection Hswap as <- <- <-.
      eapply intern_keeps_active; [done|].
      destruct Hi as (b & Hb & Hact). exists b. split; [|done].
      rewrite lookup_app_l; [done|]. by eapply lookup_lt_Some.
Qed.

Lemma reachable_one_block : reachable one_block.
Proof.
  apply (reach_swap [replicate 4 x00] empty (mkSlice 0 0 3 4) 4
           [replicate 4 x00; replicate 4 x00] _ (mkSlice 1 0 0 4)).
  - apply reach_empty.
  - unfold slice_ok, maxAlloc. simpl. lia.
  - reflexivity.
Defined.

Lemma free_loop_exit fuel z z' : free_loop fuel z = Some z' → pos_in_tail z'.
Proof.
  revert z. induction fuel as [|fuel IH]; intros z; simpl.
  - case_decide as Ht; [intros [= <-]; by intros ?|].
    destruct (pool z !! (tail z - 1)%nat) as [b|] eqn:Hb; simpl; [|done].
    case_decide; [done|]. intros [= <-] _. exists b. split; [done|lia].
  - case_decide as Ht; [intros [= <-]; by intros ?|].
    destruct (pool z !! (tail z - 1)%nat) as [b|] eqn:Hb; simpl; [|done].
    case_decide; [apply IH|]. intros [= <-] _. exists b. split; [done|lia].
Qed.

Lemma free_pos_in_tail z n z' : free z n = Some z' → pos_in_tail z'.
Proof.
  unfold free.
  destruct (free_loop _ _) as [z1|] eqn:Hloop; simpl; [|done].
  intros [= <-]. apply free_loop_exit in Hloop.
  case_decide; [by intros ?|done].
Qed.

Lemma block_len_lookup pl i b : pl !! i = Some b → block_len pl i = len (buf b).
Proof. intros Hb. unfold block_len. by rewrite Hb. Qed.

(** *** The claims about the pool *)

(** C9. In every pool state, for every retired buffer and every capacity that
    [make] accepts, [swap] returns a buffer of length 0 and of capacity at
    least the requested one, by one of its three paths: the first inactive
    block that is large enough, the retired buffer itself, or a new array. *)
Theorem swap_returns_empty_buffer h z oldBuf size :
  reachable z → slice_ok oldBuf → 0 <= size <= maxAlloc →
  ∃ h' z' out,
    swap h z oldBuf size = Some (h', z', out)
    ∧ len out = 0 ∧ size <= cap out
    ∧ swap_path h z oldBuf size h' out.
Proof.
  intros Hz Hold Hsize. destruct (reachable_wf z Hz) as [l Hwf].
  destruct (swap_total h z l oldBuf size Hwf Hold Hsize)
    as (h' & z' & out & Hswap & Hlen & Hcap & _ & Hpath).
  by exists h', z', out.
Qed.

Lemma swap_returns_empty_buffer_witness :
  ∃ h' z' out,
    swap [replicate 4 x00] empty (mkSlice 0 0 0 4) 12 = Some (h', z', out)
    ∧ len out = 0 ∧ 12 <= cap out
    ∧ swap_path [replicate 4 x00] empty (mkSlice 0 0 0 4) 12 h' out.
Proof.
  apply swap_returns_empty_buffer.
  - apply reach_empty.
  - unfold slice_ok, maxAlloc. simpl. lia.
  - unfold maxAlloc. lia.
Defined.

(** C10. In every pool state every block of the chain is active; [swap] never
    clears an active flag, and [free] clears it only for blocks that it takes
    off the chain in the same call. *)
Theorem chain_blocks_active z :
  reachable z →
  (∀ i, i ∈ chain z → is_active z i)
  ∧ (∀ h oldBuf size h' z' out i,
       swap h z oldBuf size = Some (h', z', out) → is_active z i → is_active z' i)
  ∧ (∀ n z' i,
       free z n = Some z' → is_active z i → ¬ is_active z' i →
       i ∈ chain z ∧ i ∉ chain z').
Proof.
  intros Hz. destruct (reachable_wf z Hz) as [l Hwf].
  rewrite (wf_chain z l Hwf). split_and!.
  - intros i Hi. destruct Hwf as [_ Hl _ _]. by eapply linked_active.
  - intros h oldBuf size h' z' out i. apply swap_keeps_active.
  - intros n z' i Hfree (b & Hb & Hact) Hoff.
    destruct (free_spec z l n Hwf) as (k & z1 & Hfree' & Hk & Hwf' & _ & Hpl & _).
    rewrite Hfree in Hfree'. injection Hfree' as <-.
    rewrite (wf_chain z' _ Hwf').
    specialize (Hpl i b Hb).
    destruct (decide (i ∈ take k l)) as [Hin|Hout].
    + split; [by eapply subseteq_take|].
      destruct Hwf as [Hnd _ _ _].
      rewrite <- (take_drop k l) in Hnd.
      apply NoDup_app in Hnd as (_ & Hdis & _). by apply Hdis.
    + exfalso. apply Hoff. by exists b.
Qed.

Lemma chain_blocks_active_witness : reachable one_block ∧ is_active one_block 0.
Proof.
  split; [exact reachable_one_block|].
  apply (proj1 (chain_blocks_active _ reachable_one_block)).
  unfold chain. simpl. apply list_elem_of_here.
Defined.

Lemma drained_app pl l k0 k :
  drained pl l (k0 + k) = drained pl l k0 + drained pl (drop k0 l) k.
Proof.
  revert k0. induction l as [|i l IH]; intros k0.
  - unfold drained. by rewrite drop_nil, !take_nil.
  - destruct k0 as [|k0]; [done|].
    simpl plus. rewrite !drained_S, IH. simpl. lia.
Qed.

Lemma retired_block_len pl pl' (P : nat → Prop) `{∀ i, Decision (P i)} :
  (∀ i b, pl !! i = Some b → pl' !! i = Some (if decide (P i) then retire b else b)) →
  length pl' = length pl →
  ∀ i, block_len pl' i = block_len pl i.
Proof.
  intros Hlook Hlen i. unfold block_len.
  destruct (pl !! i) as [b|] eqn:Hb.
  - rewrite (Hlook i b Hb). by case_decide.
  - apply lookup_ge_None in Hb.
    rewrite (proj2 (lookup_ge_None pl' i)); [done|lia].
Qed.

(** [free] called with [n] and then with each count of [ns]: together the
    calls retire the first [k] blocks of the chain, where [k] is the number
    of leading blocks whose total length the consumption has reached. *)
Lemma frees_spec ns : ∀ n z l,
  wf z l → Forall (λ m, 0 <= m) ns →
  - 2 ^ 63 <= pos z + n → pos z + n + total ns < 2 ^ 63 →
  ∃ k z',
    frees z (n :: ns) = Some z' ∧ (k ≤ length l)%nat ∧ wf z' (drop k l)
    ∧ pos z' = pos z + n + total ns - drained (pool z) l k
    ∧ (∀ i b, pool z !! i = Some b →
         pool z' !! i = Some (if decide (i ∈ take k l) then retire b else b))
    ∧ (∀ j, (j < k)%nat → drained (pool z) l (S j) <= pos z + n + total ns)
    ∧ ((k < length l)%nat → pos z + n + total ns < drained (pool z) l (S k))
    ∧ length (pool z') = length (pool z).
Proof.
  induction ns as [|m ns IH]; intros n z l Hwf Hns Hlo Hhi.
  - simpl in Hhi.
    destruct (free_spec z l n Hwf)
      as (k & z' & Hfree & Hk & Hwf' & Hpos & Hlook & Hdr & Hstop & Hlen).
    rewrite add_small in Hpos, Hdr, Hstop by lia.
    exists k, z'. simpl. rewrite Hfree, Z.add_0_r. simpl.
    split_and!; done.
  - apply Forall_cons in Hns as [Hm Hns]. simpl in Hhi.
    assert (0 <= total ns) as Htot.
    { clear -Hns. induction Hns; simpl; lia. }
    destruct (free_spec z l n Hwf)
      as (k0 & z1 & Hfree & Hk0 & Hwf1 & Hpos1 & Hlook1 & Hdr1 & Hstop1 & Hlen1).
    rewrite add_small in Hpos1, Hdr1, Hstop1 by lia.
    assert (∀ i, 0 <= block_len (pool z) i) as Hnn
      by (intros i; by eapply wf_block_len).
    assert (0 <= drained (pool z) l k0) as Hd0.
    { rewrite <- (drained_0 (pool z) l). apply drained_mono; [done|lia]. }
    assert (drained (pool z) l k0 <= pos z + n ∨ k0 = 0%nat) as Hd1.
    { destruct k0 as [|k0]; [by right|left]. apply Hdr1. lia. }
    assert (∀ i, block_len (pool z1) i = block_len (pool z) i) as Hbl
      by by apply (retired_block_len _ _ (λ i, i ∈ take k0 l)).
    destruct (IH m z1 (drop k0 l) Hwf1 Hns)
      as (k1 & z' & Hfrees & Hk1 & Hwf' & Hpos' & Hlook' & Hdr' & Hstop' & Hlen').
    { destruct Hd1 as [?| ->]; [lia|]. rewrite drained_0 in Hpos1. lia. }
    { lia. }
    assert (∀ k, drained (pool z1) (drop k0 l) k = drained (pool z) (drop k0 l) k)
      as Hagd by (intros k; by apply drained_agree).
    rewrite Hagd in Hpos', Hstop'.
    rewrite length_drop in Hk1, Hstop'.
    exists (k0 + k1)%nat, z'.
    change (frees z (n :: m :: ns)) with (free z n ≫= λ z1, frees z1 (m :: ns)).
    rewrite Hfree. simpl option_bind. simpl in Hfrees |- *.
    split_and!.
    + exact Hfrees.
    + lia.
    + by rewrite <- drop_drop.
    + rewrite Hpos', Hpos1, drained_app. lia.
    + intros i b Hb. rewrite (Hlook' i _ (Hlook1 i b Hb)).
      rewrite <- take_take_drop. f_equal.
      destruct (decide (i ∈ take k0 l)) as [Hi0|Hi0];
        destruct (decide (i ∈ take k1 (drop k0 l))) as [Hi1|Hi1];
        destruct (decide (i ∈ take k0 l ++ take k1 (drop k0 l))) as [Hi|Hi];
        try done; exfalso; apply Hi || (apply elem_of_app in Hi as [?|?]; done);
        apply elem_of_app; auto.
    + intros j Hj. destruct (decide (j < k0)%nat) as [Hlt|Hge].
      * specialize (Hdr1 j Hlt). lia.
      * replace (S j) with (k0 + S (j - k0))%nat by lia.
        rewrite drained_app. specialize (Hdr' (j - k0)%nat ltac:(lia)).
        rewrite Hagd in Hdr'. lia.
    + intros Hk. replace (S (k0 + k1)) with (k0 + S k1)%nat by lia.
      rewrite drained_app. specialize (Hstop' ltac:(lia)). lia.
    + lia.
Qed.

(** C8. [free] retires exactly the blocks of the chain whose end the reported
    consumption has reached. After any number of reports in a row (the first
    of any sign, the later ones not negative), the block at place [k] of the
    chain (from the tail) is still active if and only if the counter plus the
    sum of the counts reported is below the total length of the chain blocks
    up to and including it: its flag is cleared at the call with which the
    cumulative consumption first reaches that total, at no earlier call and
    at no later one. Nothing else in the pool changes. *)
Theorem free_exact z n ns :
  reachable z → Forall (λ m, 0 <= m) ns →
  - 2 ^ 63 <= pos z + n → pos z + n + total ns < 2 ^ 63 →
  ∃ z', frees z (n :: ns) = Some z'
    ∧ (∀ k i, chain z !! k = Some i →
         (is_active z' i
          ↔ pos z + total (n :: ns) < drained (pool z) (chain z) (S k)))
    ∧ (∀ i, i ∉ chain z → pool z' !! i = pool z !! i).
Proof.
  intros Hz Hns Hlo Hhi. destruct (reachable_wf z Hz) as [l Hwf].
  rewrite (wf_chain z l Hwf).
  destruct (frees_spec ns n z l Hwf Hns Hlo Hhi)
    as (k0 & z' & Hfree & Hk0 & Hwf' & _ & Hpl & Hdr & Hstop & Hlen).
  pose proof Hwf as [Hnd Hl _ _].
  replace (pos z + total (n :: ns)) with (pos z + n + total ns) by (simpl; lia).
  exists z'. split_and!.
  - done.
  - intros k i Hki.
    assert (i ∈ l) as Hi by by eapply list_elem_of_lookup_2.
    destruct (linked_active _ _ _ _ Hl Hi) as (b & Hb & Hact).
    specialize (Hpl i b Hb). unfold is_active.
    destruct (decide (k < k0)%nat) as [Hlt|Hge].
    + rewrite decide_True in Hpl by (apply elem_of_take; eauto).
      specialize (Hdr k Hlt). split; [|lia].
      intros (b' & Hb' & Hact'). rewrite Hpl in Hb'. by injection Hb' as <-.
    + rewrite decide_False in Hpl.
      * split; [|by eauto]. intros _.
        assert (k < length l)%nat as Hkl by by eapply lookup_lt_Some.
        specialize (Hstop ltac:(lia)).
        pose proof (drained_mono (pool z) l (S k0) (S k)
                      (λ j _, wf_block_len z l j Hwf) ltac:(lia)). lia.
      * intros (j & Hj & Hjk)%elem_of_take.
        pose proof (NoDup_lookup _ _ _ _ Hnd Hki Hj). lia.
  - intros i Hi.
    destruct (pool z !! i) as [b|] eqn:Hb.
    + rewrite (Hpl i b Hb). rewrite decide_False; [done|].
      intros Hin. by apply subseteq_take in Hin.
    + apply lookup_ge_None in Hb. apply lookup_ge_None. lia.
Qed.

Lemma reachable_two_blocks : reachable two_blocks.
Proof.
  apply (reach_swap [replicate 4 x00; replicate 4 x00] one_block (mkSlice 1 0 2 4) 4
           [replicate 4 x00; replicate 4 x00; replicate 4 x00] _ (mkSlice 2 0 0 4)).
  - apply reachable_one_block.
  - unfold slice_ok, maxAlloc. simpl. lia.
  - reflexivity.
Defined.

Lemma free_exact_witness :
  ∃ z', frees two_blocks [1; 2; 1] = Some z'
    ∧ (∀ k i, chain two_blocks !! k = Some i →
         (is_active z' i
          ↔ pos two_blocks + total [1; 2; 1]
            < drained (pool two_blocks) (chain two_blocks) (S k)))
    ∧ (∀ i, i ∉ chain two_blocks → pool z' !! i = pool two_blocks !! i).
Proof.
  apply (free_exact two_blocks 1 [2; 1]).
  - exact reachable_two_blocks.
  - repeat constructor; lia.
  - simpl. lia.
  - simpl. lia.
Defined.

(** C7 (amended). After every [free], whatever the count reported, the
    counter is below the length of the tail block whenever the chain is not
    empty. [swap] keeps this on a chain that is not empty; when [swap] starts
    a chain with the retired buffer, it holds exactly if the counter is below
    the length of that buffer (the counter is left as it is, and the next
    [free] settles it). *)
Theorem pos_in_tail_after z :
  reachable z →
  (∀ n, ∃ z', free z n = Some z' ∧ pos_in_tail z')
  ∧ (∀ h oldBuf size h' z' out,
       slice_ok oldBuf → swap h z oldBuf size = Some (h', z', out) →
       (tail z ≠ 0%nat → pos_in_tail z → pos_in_tail z')
       ∧ (tail z = 0%nat → tail z' ≠ 0%nat →
          (pos_in_tail z' ↔ pos z < len oldBuf))).
Proof.
  intros Hz. destruct (reachable_wf z Hz) as [l Hwf]. split.
  - intros n. destruct (free_spec z l n Hwf) as (k & z' & Hfree & _).
    exists z'. split; [done|]. by eapply free_pos_in_tail.
  - intros h oldBuf size h' z' out Hold Hswap.
    pose proof Hwf as [Hnd Hl Hhead Hsl].
    destruct (swap_wf _ _ _ _ _ _ _ _ Hwf Hold Hswap)
      as [(-> & -> & Hpos & Hwf')|(s & Hs & Hwf' & Hpos & Htail & Hlens & Hlen)].
    + simpl in Hl. simpl. split; [done|]. intros _ Ht. done.
    + pose proof Hwf' as [_ Hl' _ _]. split.
      * intros Ht Hin. destruct (Hin Ht) as (b & Hb & Hlt).
        rewrite decide_False in Htail by done.
        destruct l as [|i l]; simpl in Hl; [done|].
        destruct Hl as [Hti _]. rewrite Hti in Hb. simpl in Hb.
        rewrite Nat.sub_0_r in Hb.
        assert (i ∈ i :: l) as Hi by apply list_elem_of_here.
        assert (i ∈ (i :: l) ++ [s]) as Hi' by (apply elem_of_app; by left).
        destruct (linked_in_range _ _ _ _ Hl' Hi') as [b' Hb'].
        intros _. exists b'. rewrite Htail, Hti. simpl. rewrite Nat.sub_0_r.
        split; [done|].
        rewrite <- (block_len_lookup _ _ _ Hb'), (Hlen i Hi),
          (block_len_lookup _ _ _ Hb), Hpos. done.
      * intros Ht Ht'. rewrite decide_True in Htail by done.
        assert (s ∈ l ++ [s]) as Hs' by (apply elem_of_app; right; apply list_elem_of_here).
        destruct (linked_in_range _ _ _ _ Hl' Hs') as [b' Hb'].
        rewrite (block_len_lookup _ _ _ Hb') in Hlens.
        unfold pos_in_tail. rewrite Htail. simpl. rewrite Nat.sub_0_r, Hpos.
        split.
        -- intros Hin. destruct (Hin ltac:(lia)) as (b & Hb & Hlt).
           assert (b = b') as -> by congruence. lia.
        -- intros Hlt _. exists b'. split; [done|lia].
Qed.

Lemma pos_in_tail_after_witness :
  (∃ z', free one_block 5 = Some z' ∧ pos_in_tail z').
Proof.
  apply (proj1 (pos_in_tail_after one_block reachable_one_block) 5).
Defined.

End PoolFacts.

(** ** The lexer *)

Module LexFacts.
Import Mem Source Lex Run MemSpec LexSpec GoIntFacts MemFacts.

Lemma blocks_backed_extends h h' p :
  extends h h' → blocks_backed h p → blocks_backed h' p.
Proof.
  intros Hext Hpl. unfold blocks_backed in *.
  eapply Forall_impl; [exact Hpl|]. intros b. by apply backed_extends.
Qed.

Lemma backed_empty h s :
  backed h s → backed h (mkSlice (arr s) (off s + 0) (0 - 0) (cap s - 0)).
Proof.
  intros [(Ho & Hl & Hc) (a & Ha & Hlen)]. split.
  - unfold slice_ok. simpl. lia.
  - exists a. simpl. split; [done|lia].
Qed.

Lemma intern_backed h z pl s oldBuf z' out :
  Pool.intern z pl s oldBuf = Some (z', out) →
  Forall (λ b, backed h (Pool.buf b)) pl → backed h oldBuf →
  blocks_backed h z' ∧ backed h out ∧ len out = 0.
Proof.
  unfold Pool.intern, blocks_backed. intros Hi Hpl Hold.
  destruct (pl !! s) as [b|] eqn:Hb; simpl in Hi; [|done].
  assert (backed h (Pool.buf b)) as Hbb by by eapply Forall_lookup_1 in Hpl.
  assert (Forall (λ b, backed h (Pool.buf b)) (<[s:=Pool.mkBlock oldBuf 0 true]> pl))
    as Hpl1 by by apply Forall_insert.
  unfold reslice in Hi. rewrite (decide_True (P := 0 <= 0 <= 0 ∧ _)) in Hi
    by (destruct Hbb as [(? & ? & ?) _]; lia).
  destruct (decide (Pool.head z ≠ 0%nat)).
  - destruct (<[s:=Pool.mkBlock oldBuf 0 true]> pl !! (Pool.head z - 1)%nat)
      as [hb|] eqn:Hhb; simpl in Hi; [|done].
    injection Hi as <- <-. simpl. split_and!; [|by apply backed_empty|done].
    apply Forall_insert; [done|]. simpl. by eapply Forall_lookup_1 in Hpl1.
  - simpl in Hi. injection Hi as <- <-. simpl.
    split_and!; [done|by apply backed_empty|done].
Qed.

(** [swap] in a heap where the buffers of the pool and the retired buffer are
    backed: the heap only grows, and the buffer handed out is backed. *)
Lemma swap_backed h z oldBuf size h' z' out :
  Pool.swap h z oldBuf size = Some (h', z', out) →
  blocks_backed h z → backed h oldBuf →
  (∃ k, h' = h ++ k) ∧ blocks_backed h' z' ∧ backed h' out ∧ len out = 0.
Proof.
  unfold Pool.swap. intros Hswap Hpl Hold.
  destruct (Pool.find_reusable (Pool.pool z) size 0) as [j|].
  - destruct (Pool.intern z (Pool.pool z) j oldBuf) as [[z1 o1]|] eqn:Hint; [|done].
    simpl in Hswap. injection Hswap as <- <- <-.
    split; [exists []; by rewrite app_nil_r|]. by eapply intern_backed.
  - case_decide.
    + unfold reslice in Hswap.
      rewrite decide_True in Hswap by (destruct Hold as [(? & ? & ?) _]; lia).
      simpl in Hswap. injection Hswap as <- <- <-.
      split; [exists []; by rewrite app_nil_r|].
      split_and!; [done|by apply backed_empty|done].
    + destruct (make h size) as [[h1 fresh]|] eqn:Hmk; [|done]. simpl in Hswap.
      destruct (Pool.intern z _ _ oldBuf) as [[z1 o1]|] eqn:Hint; [|done].
      simpl in Hswap. injection Hswap as <- <- <-.
      unfold make in Hmk. case_decide as Hsz; [|done]. injection Hmk as <- <-.
      split; [by eexists|].
      eapply intern_backed; [done| |].
      * apply Forall_app. split.
        -- eapply Forall_impl; [exact Hpl|]. intros b.
           apply backed_extends, extends_app.
        -- constructor; [|done]. simpl. split.
           ++ unfold slice_ok. simpl. lia.
           ++ eexists. simpl. split.
              ** rewrite lookup_app_r by lia. by rewrite Nat.sub_diag.
              ** rewrite length_replicate. lia.
      * eapply backed_extends; [apply extends_app|done].
Qed.

Lemma free_backed h z l n z' :
  PoolSpec.wf z l → Pool.free z n = Some z' →
  blocks_backed h z → blocks_backed h z'.
Proof.
  intros Hwf Hfree Hpl.
  destruct (PoolFacts.free_spec z l n Hwf)
    as (k & z1 & Hfree' & _ & _ & _ & Hlook & _ & _ & Hlen).
  rewrite Hfree in Hfree'. injection Hfree' as <-.
  unfold blocks_backed in *. apply Forall_lookup_2. intros i b' Hb'.
  assert (is_Some (Pool.pool z !! i)) as [b Hb].
  { apply lookup_lt_is_Some. rewrite <- Hlen. by eapply lookup_lt_Some. }
  rewrite (Hlook i b Hb) in Hb'. injection Hb' as <-.
  eapply Forall_lookup_1 in Hpl; [|exact Hb]. by case_decide.
Qed.

(** One answer of the reader: it delivers the next bytes of the stream, no
    more than the room it is given, and writes them at the start of it. *)
Lemma Read_spec rd h p r1 h1 n e :
  Read rd h p = (r1, h1, n, e) → 0 <= len p →
  ∃ D, stream rd = D ++ stream r1 ∧ n = Z.of_nat (length D) ∧ n <= len p
       ∧ h1 = store h p D.
Proof.
  intros HR Hp. destruct rd as [|[data e0] rest]; simpl in HR.
  - injection HR as <- <- <- <-. exists []. rewrite store_nil. simpl.
    split_and!; [done|done|lia|done].
  - case_decide as Hfit.
    + injection HR as <- <- <- <-. exists data. unfold stream. simpl.
      split_and!; [done|done|lia|done].
    + injection HR as <- <- <- <-. exists (take (Z.to_nat (len p)) data).
      unfold stream. simpl. rewrite app_assoc, take_drop.
      split_and!; [done| |lia|done].
      rewrite length_take. lia.
Qed.

(** The steps of a refill, when [read] returns. *)
Lemma read_inv h z p h' z' b :
  err z = None → read h z p = Some (h', z', b) →
  ∃ c oldBuf h1 pool1 nbuf dst src room r1 n e buf1,
    reslice (buf z) 0 (start z) = Some oldBuf
    ∧ Pool.swap h (pool z) oldBuf c = Some (h1, pool1, nbuf)
    ∧ reslice nbuf 0 (len (buf z) -i start z) = Some dst
    ∧ reslice (buf z) (start z) (len (buf z)) = Some src
    ∧ reslice nbuf (len (buf z) -i start z) (cap nbuf) = Some room
    ∧ Read (r z) (copy h1 dst src).1 room = (r1, h', n, e)
    ∧ reslice nbuf 0 (len (buf z) -i start z +i n) = Some buf1
    ∧ r z' = r1 ∧ pool z' = pool1 ∧ buf z' = buf1 ∧ start z' = 0
    ∧ pos z' = pos z -i start z ∧ prevStart z' = prevStart z
    ∧ (err z' = e ∨ (n = 0 ∧ e = None ∧ err z' = Some EOF))
    ∧ (n = 0 ∨ index h' buf1 (p -i start z) = Some b).
Proof.
  intros Herr Hread. unfold read in Hread.
  rewrite decide_False in Hread by (by intros []).
  destruct (reslice (buf z) 0 (start z)) as [oldBuf|] eqn:Hold;
    simpl in Hread; [|done].
  destruct (Pool.swap h (pool z) oldBuf _) as [[[h1 pool1] nbuf]|] eqn:Hswap;
    simpl in Hread; [|done].
  destruct (reslice nbuf 0 _) as [dst|] eqn:Hdst; simpl in Hread; [|done].
  destruct (reslice (buf z) (start z) _) as [src|] eqn:Hsrc; simpl in Hread; [|done].
  destruct (reslice nbuf _ (cap nbuf)) as [room|] eqn:Hroom; simpl in Hread; [|done].
  destruct (Read (r z) _ room) as [[[r1 h3] n] e] eqn:HR.
  destruct (reslice nbuf 0 (_ +i n)) as [buf1|] eqn:Hbuf1; simpl in Hread; [|done].
  eexists _, oldBuf, h1, pool1, nbuf, dst, src, room, r1, n, e, buf1.
  destruct (decide (n = 0)) as [Hn|Hn].
  - injection Hread as <- <- <-.
    split_and!; try done.
    + by destruct (decide (e = None)).
    + by destruct (decide (e = None)).
    + by destruct (decide (e = None)).
    + by destruct (decide (e = None)).
    + by destruct (decide (e = None)).
    + by destruct (decide (e = None)).
    + destruct (decide (e = None)); [right|left]; done.
    + by left.
  - destruct (index h3 buf1 _) as [b'|] eqn:Hidx; simpl in Hread; [|done].
    injection Hread as <- <- <-.
    split_and!; try done; [by left|by right].
Qed.

(** A refill keeps the invariant, and moves the bytes not yet committed,
    followed by what the reader delivers, to the start of the new buffer. *)
Lemma read_spec h z p h' z' b :
  good h z → read h z p = Some (h', z', b) →
  good h' z' ∧ extends h h'
  ∧ view h' (buf z') (start z') (len (buf z')) ++ stream (r z')
    = view h (buf z) (start z) (len (buf z)) ++ stream (r z)
  ∧ pos z' - start z' = pos z - start z.
Proof.
  intros Hgood Hread.
  destruct (err z) as [e0|] eqn:Herr.
  { unfold read in Hread. rewrite Herr in Hread.
    rewrite decide_True in Hread by done. injection Hread as <- <- <-.
    split_and!; try done. apply extends_refl. }
  destruct (read_inv _ _ _ _ _ _ Herr Hread)
    as (c & oldBuf & h1 & pool1 & nbuf & dst & src & room & r1 & n & e & buf1
        & Hold & Hswap & Hdst & Hsrc & Hroom & HR & Hbuf1
        & Hr' & Hpool' & Hbuf' & Hstart' & Hpos' & Hprev' & _ & _).
  destruct Hgood as [(Hs0 & Hsp & Hpl & Hlc) Hbuf [l Hwf] Hblocks].
  pose proof Hbuf as [(Ho & Hl & Hc) (a & Ha & Hlen)].
  assert (maxAlloc = 2 ^ 48) as HmA by reflexivity.
  rewrite (sub_small (len (buf z)) (start z)) in * by lia.
  rewrite (sub_small (pos z) (start z)) in Hpos' by lia.
  set (d := len (buf z) - start z) in *.
  assert (backed h oldBuf) as Hbold by by eapply backed_reslice.
  destruct (swap_backed _ _ _ _ _ _ _ Hswap Hblocks Hbold)
    as ((k & ->) & Hblocks1 & Hnb & Hlen0).
  assert (∃ l', PoolSpec.wf pool1 l') as Hwf1.
  { destruct Hbold as [Hok _].
    destruct (PoolFacts.swap_wf _ _ _ _ _ _ _ _ Hwf Hok Hswap)
      as [(_ & _ & _ & ?)|(? & _ & ? & _)]; eauto. }
  pose proof Hnb as [(Hno & Hnl & Hnc) _].
  apply reslice_Some in Hdst as (Hd0 & Hd1 & ->).
  apply reslice_Some in Hsrc as (_ & _ & ->).
  apply reslice_Some in Hroom as (_ & _ & ->).
  set (X := view h (buf z) (start z) (len (buf z))).
  assert (length X = Z.to_nat d) as HX by (apply length_view; [done|lia..]).
  assert ((copy (h ++ k)
             (mkSlice (arr nbuf) (off nbuf + 0) (d - 0) (cap nbuf - 0))
             (mkSlice (arr (buf z)) (off (buf z) + start z)
                (len (buf z) - start z) (cap (buf z) - start z))).1
          = store (h ++ k) (mkSlice (arr nbuf) (off nbuf + 0) (d - 0) (cap nbuf - 0)) X)
    as Hcopy.
  { unfold copy. simpl. f_equal.
    rewrite bytes_prefix by (simpl; by eapply lookup_lt_Some).
    fold (view h (buf z) (start z) (len (buf z))). fold X.
    apply take_ge. lia. }
  rewrite Hcopy in HR.
  apply Read_spec in HR as (D & Hstream & Hn & Hnroom & ->); [|simpl; lia].
  simpl in Hnroom.
  rewrite add_small in Hbuf1 by lia.
  assert (backed (h ++ k) buf1) as Hb1 by by eapply backed_reslice.
  apply reslice_Some in Hbuf1 as (_ & _ & Hbuf1).
  assert (extends (h ++ k)
            (store (store (h ++ k)
               (mkSlice (arr nbuf) (off nbuf + 0) (d - 0) (cap nbuf - 0)) X)
               (mkSlice (arr nbuf) (off nbuf + d) (cap nbuf - d) (cap nbuf - d)) D))
    as Hext1.
  { eapply extends_trans; apply store_extends. }
  split_and!.
  - constructor.
    + unfold window. rewrite Hstart', Hpos', Hbuf', Hbuf1. simpl. lia.
    + rewrite Hbuf'. by eapply backed_extends.
    + by rewrite Hpool'.
    + rewrite Hpool'. by eapply blocks_backed_extends.
  - eapply extends_trans; [apply extends_app|done].
  - rewrite Hstart', Hr', Hbuf', Hstream, app_assoc. f_equal.
    unfold view. rewrite Hbuf1. simpl.
    apply (bytes_refill _ nbuf); simpl; try done; lia.
  - rewrite Hstart', Hpos'. lia.
Qed.

Lemma carried_refl h z : good h z → carried h z h z.
Proof. intros Hg. split_and!; try done. apply extends_refl. Qed.

Lemma carried_trans h1 z1 h2 z2 h3 z3 :
  carried h1 z1 h2 z2 → carried h2 z2 h3 z3 → carried h1 z1 h3 z3.
Proof.
  intros (_ & He1 & Hv1 & Hp1) (Hg & He2 & Hv2 & Hp2).
  split_and!; [done|by eapply extends_trans|congruence|lia].
Qed.

Lemma Peek_spec h z n h' z' b :
  good h z → Peek h z n = Some (h', z', b) → carried h z h' z'.
Proof.
  intros Hg. unfold Peek. case_decide.
  - by apply read_spec.
  - destruct (index h (buf z) _); simpl; [|done].
    intros [= <- <- <-]. by apply carried_refl.
Qed.

Lemma PeekRune_spec h z n h' z' cn :
  good h z → PeekRune h z n = Some (h', z', cn) → carried h z h' z'.
Proof.
  intros Hg. unfold PeekRune.
  destruct (Peek h z n) as [[[h0 z0] c]|] eqn:HP0; simpl; [|done].
  pose proof (Peek_spec _ _ _ _ _ _ Hg HP0) as C0. pose proof C0 as [Hg0 _].
  case_decide; [by intros [= <- <- <-]|].
  destruct (Peek h0 z0 (n +i 1)) as [[[h1 z1] c1]|] eqn:HP1.
  2:{ by repeat case_decide. }
  pose proof (Peek_spec _ _ _ _ _ _ Hg0 HP1) as C1. pose proof C1 as [Hg1 _].
  simpl. case_decide.
  { intros [= <- <- <-]. by eapply carried_trans. }
  destruct (Peek h1 z1 (n +i 2)) as [[[h2 z2] c2]|] eqn:HP2.
  2:{ by repeat case_decide. }
  pose proof (Peek_spec _ _ _ _ _ _ Hg1 HP2) as C2. pose proof C2 as [Hg2 _].
  simpl. case_decide.
  { intros [= <- <- <-]. eapply carried_trans; [|done]. by eapply carried_trans. }
  destruct (Peek h2 z2 (n +i 3)) as [[[h3 z3] c3]|] eqn:HP3; simpl; [|done].
  pose proof (Peek_spec _ _ _ _ _ _ Hg2 HP3) as C3.
  intros [= <- <- <-].
  eapply carried_trans; [|done]. eapply carried_trans; [|done].
  by eapply carried_trans.
Qed.

(** One call: the invariant is kept, and the bytes not yet committed before
    the call are what the call commits followed by those not yet committed
    after it. *)
Lemma exec_spec h z o h' z' res :
  good h z → in_window z o → exec h z o = Some (h', z', res) →
  good h' z'
  ∧ view h (buf z) (start z) (len (buf z)) ++ stream (r z)
    = concat (map event_bytes (events h z o))
      ++ view h' (buf z') (start z') (len (buf z')) ++ stream (r z').
Proof.
  intros Hg Hw Hex. pose proof Hg as [(Hs0 & Hsp & Hpl & Hlc) Hbuf Hpool Hblocks].
  pose proof Hbuf as [(Ho & Hl & Hc) _].
  assert (maxAlloc = 2 ^ 48) as HmA by reflexivity.
  destruct o; simpl in *.
  - destruct (Peek h z n) as [[[h0 z0] c]|] eqn:HP; simpl in Hex; [|done].
    injection Hex as <- <- <-.
    destruct (Peek_spec _ _ _ _ _ _ Hg HP) as (? & _ & ? & _). done.
  - destruct (PeekRune h z n) as [[[h0 z0] c]|] eqn:HP; simpl in Hex; [|done].
    injection Hex as <- <- <-.
    destruct (PeekRune_spec _ _ _ _ _ _ Hg HP) as (? & _ & ? & _). done.
  - injection Hex as <- <- <-. split; [|done].
    constructor; [|exact Hbuf|exact Hpool|exact Hblocks].
    unfold window, Move. simpl. rewrite add_small by lia. lia.
  - injection Hex as <- <- <-. done.
  - injection Hex as <- <- <-. split; [|done].
    constructor; [|exact Hbuf|exact Hpool|exact Hblocks].
    unfold window, Rewind. simpl. rewrite add_small by lia. lia.
  - destruct (Lexeme z); simpl in Hex; [|done]. injection Hex as <- <- <-. done.
  - unfold Shift in Hex. unfold Lexeme.
    destruct (reslice (buf z) (start z) (pos z)) as [s|] eqn:Hs; simpl in Hex; [|done].
    injection Hex as <- <- <-. split.
    + constructor; [|exact Hbuf|exact Hpool|exact Hblocks].
      unfold window. simpl. lia.
    + apply reslice_Some in Hs as (_ & _ & ->). simpl. rewrite app_nil_r.
      fold (view h (buf z) (start z) (pos z)).
      rewrite (view_split h (buf z) (start z) (pos z) (len (buf z))) by lia.
      by rewrite <- app_assoc.
  - injection Hex as <- <- <-. split; [|done].
    constructor; [|exact Hbuf|exact Hpool|exact Hblocks]. done.
  - injection Hex as <- <- <-. unfold Lexeme, reslice.
    rewrite decide_True by lia. simpl. rewrite app_nil_r. split.
    + constructor; [|exact Hbuf|exact Hpool|exact Hblocks].
      unfold window. simpl. lia.
    + fold (view h (buf z) (start z) (pos z)).
      rewrite (view_split h (buf z) (start z) (pos z) (len (buf z))) by lia.
      by rewrite <- app_assoc.
  - unfold Free in Hex.
    destruct (Pool.free (pool z) n) as [pool1|] eqn:Hfree; simpl in Hex; [|done].
    injection Hex as <- <- <-. split; [|done].
    destruct Hpool as [l Hwf].
    constructor; simpl; [done|done| |].
    + destruct (PoolFacts.free_spec _ l n Hwf) as (k & z1 & Hfree' & _ & Hwf' & _).
      rewrite Hfree in Hfree'. injection Hfree' as <-. eauto.
    + by eapply free_backed.
  - injection Hex as <- <- <-. done.
Qed.

Lemma run_spec ops : ∀ h z h1 z1 evs,
  good h z → guarded h z ops → run h z ops = Some (h1, z1, evs) →
  good h1 z1
  ∧ view h (buf z) (start z) (len (buf z)) ++ stream (r z)
    = concat (map event_bytes evs)
      ++ view h1 (buf z1) (start z1) (len (buf z1)) ++ stream (r z1).
Proof.
  induction ops as [|o ops IH]; intros h z h1 z1 evs Hg Hgd Hrun; simpl in *.
  - by injection Hrun as <- <- <-.
  - destruct Hgd as [Hw Hgd].
    destruct (exec h z o) as [[[h' z'] res]|] eqn:Hex; simpl in Hrun; [|done].
    destruct (run h' z' ops) as [[[h2 z2] evs']|] eqn:Hrun'; simpl in Hrun; [|done].
    injection Hrun as <- <- <-.
    destruct (exec_spec _ _ _ _ _ _ Hg Hw Hex) as [Hg' Heq].
    destruct (IH _ _ _ _ _ Hg' Hgd Hrun') as [Hg2 Heq'].
    split; [done|].
    rewrite Heq, Heq', map_app, concat_app, <- !app_assoc. done.
Qed.

(** Without [Skip] every event is the result of a [Shift]. *)
Lemma run_no_skip ops : ∀ h z h1 z1 evs,
  (∀ o, o ∈ ops → o ≠ OSkip) → run h z ops = Some (h1, z1, evs) →
  map event_bytes evs = shifts evs.
Proof.
  induction ops as [|o ops IH]; intros h z h1 z1 evs Hns Hrun; simpl in *.
  - by injection Hrun as <- <- <-.
  - destruct (exec h z o) as [[[h' z'] res]|] eqn:Hex; simpl in Hrun; [|done].
    destruct (run h' z' ops) as [[[h2 z2] evs']|] eqn:Hrun'; simpl in Hrun; [|done].
    injection Hrun as <- <- <-.
    assert (map event_bytes evs' = shifts evs') as IH'.
    { eapply IH; [|done]. intros o' Ho'. apply Hns, elem_of_cons. by right. }
    assert (o ≠ OSkip) as Ho by (apply Hns, elem_of_cons; by left).
    unfold shifts in *. rewrite map_app, omap_app, IH'. f_equal.
    destruct o; simpl; try done. by destruct (Lexeme z).
Qed.

(** The constructor establishes the invariant; nothing is committed yet. *)
Lemma NewLexerSize_spec h src size h0 z0 :
  input_ok h src → NewLexerSize h src size = Some (h0, z0) →
  good h0 z0
  ∧ content h src
    = view h0 (buf z0) (start z0) (len (buf z0)) ++ stream (r z0).
Proof.
  intros Hin Hnew. destruct src as [b|rd]; simpl in *.
  - injection Hnew as <- <-. pose proof Hin as [(Ho & Hl & Hc) _]. split.
    + constructor; simpl;
        [unfold window; simpl; lia|done
        |exists []; apply PoolFacts.wf_empty|apply Forall_nil_2].
    + simpl. unfold view, bytes, stream. simpl.
      rewrite app_nil_r, Z.add_0_r, Z.sub_0_r. done.
  - destruct (make h size) as [[h' b]|] eqn:Hmk; simpl in Hnew; [|done].
    destruct (Peek h' _ 0) as [[[h1 z1] c]|] eqn:HP; simpl in Hnew; [|done].
    injection Hnew as <- <-.
    unfold make in Hmk. case_decide as Hsz; [|done]. injection Hmk as <- <-.
    eapply Peek_spec in HP as (Hg & _ & Hv & _).
    + split; [done|]. rewrite Hv. simpl. unfold view, bytes. simpl.
      rewrite Z.sub_diag. simpl. by destruct (_ !! _).
    + constructor; simpl.
      * unfold window. simpl. lia.
      * split; [unfold slice_ok; simpl; lia|]. eexists. simpl. split.
        -- rewrite lookup_app_r by lia. by rewrite Nat.sub_diag.
        -- rewrite length_replicate. lia.
      * exists []. apply PoolFacts.wf_empty.
      * apply Forall_nil_2.
Qed.

(** *** Concrete sources *)

(** Checks the guards of a run on concrete data. *)
Ltac check_guards :=
  vm_compute; repeat split; first [exact I | discriminate].

(** *** The claims about the cursor *)

(** C6 (amended). From the construction of the lexer on, after every call
    that returns ([Peek] and [PeekRune] at any offset, [Pos], [Lexeme],
    [Shift], [ShiftLen], [Skip], [Free], [Err], and [Move] and [Rewind] as
    long as they leave the cursor between token-start and the end of the
    buffered bytes), [0 <= start <= pos <= len(buf) <= cap(buf)]. *)
Theorem window_invariant h src size h0 z0 ops h1 z1 evs :
  input_ok h src → NewLexerSize h src size = Some (h0, z0) →
  guarded h0 z0 ops → run h0 z0 ops = Some (h1, z1, evs) →
  window z1.
Proof.
  intros Hin Hnew Hgd Hrun.
  destruct (NewLexerSize_spec _ _ _ _ _ Hin Hnew) as [Hg0 _].
  destruct (run_spec _ _ _ _ _ _ Hg0 Hgd Hrun) as [[Hw _ _ _] _].
  exact Hw.
Qed.

Lemma window_invariant_witness :
  ∃ h0 z0 h1 z1 evs,
    NewLexerSize [] abc_XYZ 4 = Some (h0, z0)
    ∧ run h0 z0 scan_abcXYZ = Some (h1, z1, evs)
    ∧ window z1.
Proof.
  eexists _, _, _, _, _.
  split; [vm_compute; reflexivity|].
  split; [vm_compute; reflexivity|].
  eapply (window_invariant [] abc_XYZ 4 _ _ scan_abcXYZ).
  - exact I.
  - vm_compute. reflexivity.
  - check_guards.
  - vm_compute. reflexivity.
Defined.

(** C6 as stated fails: [Move] takes any signed [n] and does not check it.
    On a new lexer [Move(-1)] leaves the cursor before token-start. *)
Lemma Move_leaves_window :
  ∃ h0 z0 z1,
    NewLexerSize [] ab 4 = Some (h0, z0)
    ∧ run h0 z0 [OMove (-1)] = Some (h0, z1, [])
    ∧ pos z1 = -1 ∧ start z1 = 0 ∧ ¬ window z1.
Proof.
  eexists _, _, _.
  split; [vm_compute; reflexivity|].
  split; [vm_compute; reflexivity|].
  split; [reflexivity|]. split; [reflexivity|].
  unfold window. simpl. lia.
Qed.

(** C3 (amended). From the construction of the lexer on, for every sequence
    of calls that return and keep the cursor in the buffered window: the
    results of [Shift] and the spans dropped by [Skip], concatenated in call
    order, followed by the current lexeme, then by the buffered bytes after
    the cursor and by what the reader has still to deliver, are the content
    of the source. When the sequence has no [Skip], the results of [Shift]
    alone, followed by the lexeme, reproduce the content up to the cursor. *)
Theorem shifts_reproduce_stream h src size h0 z0 ops h1 z1 evs :
  input_ok h src → NewLexerSize h src size = Some (h0, z0) →
  guarded h0 z0 ops → run h0 z0 ops = Some (h1, z1, evs) →
  ∃ lex, Lexeme z1 = Some lex
    ∧ content h src
      = concat (map event_bytes evs) ++ bytes h1 lex
        ++ view h1 (buf z1) (pos z1) (len (buf z1)) ++ stream (r z1)
    ∧ ((∀ o, o ∈ ops → o ≠ OSkip) →
       content h src
       = concat (shifts evs) ++ bytes h1 lex
         ++ view h1 (buf z1) (pos z1) (len (buf z1)) ++ stream (r z1)).
Proof.
  intros Hin Hnew Hgd Hrun.
  destruct (NewLexerSize_spec _ _ _ _ _ Hin Hnew) as [Hg0 Hc0].
  destruct (run_spec _ _ _ _ _ _ Hg0 Hgd Hrun) as [Hg1 Heq].
  pose proof Hg1 as [(Hs0 & Hsp & Hpl & Hlc) [(Ho & _) _] _ _].
  unfold Lexeme, reslice. rewrite decide_True by lia. eexists. split; [done|].
  assert (content h src
          = concat (map event_bytes evs)
            ++ view h1 (buf z1) (start z1) (pos z1)
            ++ view h1 (buf z1) (pos z1) (len (buf z1)) ++ stream (r z1)) as Hall.
  { rewrite Hc0, Heq.
    rewrite (view_split h1 (buf z1) (start z1) (pos z1) (len (buf z1))) by lia.
    by rewrite <- !app_assoc. }
  split; [exact Hall|].
  intros Hns. rewrite <- (run_no_skip _ _ _ _ _ _ Hns Hrun). exact Hall.
Qed.

Lemma shifts_reproduce_stream_witness :
  ∃ h0 z0 h1 z1 evs,
    NewLexerSize [] abc_XYZ 4 = Some (h0, z0)
    ∧ run h0 z0 scan_abcXYZ = Some (h1, z1, evs)
    ∧ shifts evs = [["a"; "b"; "c"; "X"; "Y"; "Z"]%byte]
    ∧ ∃ lex, Lexeme z1 = Some lex
      ∧ content [] abc_XYZ
        = concat (map event_bytes evs) ++ bytes h1 lex
          ++ view h1 (buf z1) (pos z1) (len (buf z1)) ++ stream (r z1)
      ∧ ((∀ o, o ∈ scan_abcXYZ → o ≠ OSkip) →
         content [] abc_XYZ
         = concat (shifts evs) ++ bytes h1 lex
           ++ view h1 (buf z1) (pos z1) (len (buf z1)) ++ stream (r z1)).
Proof.
  eexists _, _, _, _, _.
  split; [vm_compute; reflexivity|].
  split; [vm_compute; reflexivity|].
  split; [reflexivity|].
  eapply (shifts_reproduce_stream [] abc_XYZ 4 _ _ scan_abcXYZ).
  - exact I.
  - vm_compute. reflexivity.
  - check_guards.
  - vm_compute. reflexivity.
Defined.

(** C3 as stated fails: [Skip] commits bytes without returning them. On the
    source ["ab"], after [Move(1); Skip; Move(1); Shift] the cursor is at
    offset 2 of the stream and the only result of [Shift] is ["b"]: the
    results of [Shift] are not the content of the stream up to the cursor. *)
Lemma Skip_leaves_a_gap :
  ∃ h0 z0 h1 z1 evs,
    NewLexerSize [] ab 4 = Some (h0, z0)
    ∧ guarded h0 z0 [OMove 1; OSkip; OMove 1; OShift]
    ∧ run h0 z0 [OMove 1; OSkip; OMove 1; OShift] = Some (h1, z1, evs)
    ∧ concat (shifts evs) = ["b"%byte]
    ∧ take 2 (content [] ab) = ["a"; "b"]%byte
    ∧ ¬ concat (shifts evs) `prefix_of` content [] ab.
Proof.
  eexists _, _, _, _, _.
  split; [vm_compute; reflexivity|].
  split; [check_guards|].
  split; [vm_compute; reflexivity|].
  split; [reflexivity|]. split; [reflexivity|].
  intros [k Hk]. vm_compute in Hk. discriminate Hk.
Qed.

(** *** The claims about peeking and errors *)

(** C1 (the code fails it). The lexer on the source ["a"], ["b"] holds ["a"]
    after its construction. [Peek(2)] refills; the one read of the refill
    delivers ["b"], the buffer now holds two bytes, and [read] indexes it at
    2: the call panics instead of returning 0, and so does [PeekRune(2)].
    [Peek(1)] on the same lexer returns ['b']. *)
Theorem Peek_short_read_panics :
  ∃ h z,
    NewLexerSize [] a_b 4 = Some (h, z)
    ∧ bytes h (buf z) = ["a"%byte] ∧ pos z = 0 ∧ Err z = None
    ∧ Peek h z 2 = None
    ∧ PeekRune h z 2 = None
    ∧ ∃ h' z', Peek h z 1 = Some (h', z', "b"%byte).
Proof.
  eexists _, _.
  split; [vm_compute; reflexivity|].
  repeat (split; [vm_compute; reflexivity|]).
  eexists _, _. vm_compute. reflexivity.
Qed.

(** C5 (the code fails it). On the source ["abcdefgh"] with a buffer of 4:
    three bytes are shifted and [ShiftLen] answers 3; the cursor moves on by
    one byte and [Peek(0)] refills, which renumbers token-start to 0 and
    leaves [prevStart] at 3; [Shift] then commits the one byte ["d"], and
    [ShiftLen] answers -2 where one byte was committed since the call
    before. *)
Theorem ShiftLen_after_refill :
  ∃ h z z1 s1 z2 h3 z3 c z4 s4 z5,
    NewLexerSize [] abcdefgh 4 = Some (h, z)
    ∧ Shift (Move z 3) = Some (z1, s1)
    ∧ bytes h s1 = ["a"; "b"; "c"]%byte
    ∧ ShiftLen z1 = (z2, 3)
    ∧ Peek h (Move z2 1) 0 = Some (h3, z3, c)
    ∧ start z3 = 0 ∧ prevStart z3 = 3
    ∧ Shift z3 = Some (z4, s4)
    ∧ bytes h3 s4 = ["d"%byte]
    ∧ ShiftLen z4 = (z5, -2).
Proof.
  eexists _, _, _, _, _, _, _, _, _, _, _.
  repeat (split; [vm_compute; reflexivity|]).
  vm_compute. reflexivity.
Qed.

(** C2 (amended). [Err] answers nil exactly when no error is recorded, or
    when the recorded error is end-of-stream and the cursor is before the end
    of the buffered bytes. Any other recorded error is answered as it is,
    wherever the cursor is; end-of-stream is answered once the cursor is at
    or beyond the end of the buffered bytes. *)
Theorem Err_suppresses_only_EOF z :
  (Err z = None ↔ err z = None ∨ (err z = Some EOF ∧ pos z < len (buf z)))
  ∧ (∀ e, Err z = Some e ↔ err z = Some e ∧ (e = EOF → len (buf z) <= pos z)).
Proof.
  unfold Err. split.
  - case_decide as Hc.
    + split; [|done]. intros _. by right.
    + split; [by left|]. intros [Hn|Hs]; [done|]. by destruct Hc.
  - intros e. case_decide as Hc.
    + split; [done|]. intros [He Hpos]. destruct Hc as [Heof Hlt].
      rewrite He in Heof. injection Heof as ->. specialize (Hpos eq_refl). lia.
    + split.
      * intros He. split; [done|]. intros ->.
        destruct (decide (pos z < len (buf z))); [|lia]. by destruct Hc.
      * by intros [He _].
Qed.

(** C2 as stated fails: an error of the source other than end-of-stream is
    answered by [Err] while two buffered bytes are still ahead of the
    cursor. *)
Lemma Err_reports_failure_early :
  ∃ h z,
    NewLexerSize [] ab_failing 4 = Some (h, z)
    ∧ err z = Some (Failure 1)
    ∧ pos z = 0 ∧ len (buf z) = 2
    ∧ Err z = Some (Failure 1).
Proof.
  eexists _, _. repeat (split; [vm_compute; reflexivity|]).
  vm_compute. reflexivity.
Qed.

(** C7 as stated fails after [swap]. On the source ["abcdefgh"] with a buffer
    of 4, [Peek(4)] refills a lexer that has committed nothing: [swap] gets
    the retired buffer truncated to 0 bytes and has to allocate, so the chain
    starts with a block of length 0 while the counter is 0. *)
Lemma swap_leaves_pos_at_tail_length :
  ∃ h z h1 z1 c b,
    NewLexerSize [] abcdefgh 4 = Some (h, z)
    ∧ Peek h z 4 = Some (h1, z1, c)
    ∧ (∃ h' out, Pool.swap h (pool z) (mkSlice 0 0 0 4) 12 = Some (h', pool z1, out))
    ∧ Pool.tail (pool z1) = 1%nat
    ∧ Pool.pool (pool z1) !! 0%nat = Some b
    ∧ len (Pool.buf b) = 0 ∧ Pool.pos (pool z1) = 0
    ∧ ¬ PoolSpec.pos_in_tail (pool z1).
Proof.
  eexists _, _, _, _, _, _.
  split; [vm_compute; reflexivity|].
  split; [vm_compute; reflexivity|].
  split; [eexists _, _; vm_compute; reflexivity|].
  repeat (split; [vm_compute; reflexivity|]).
  intros Hin. destruct (Hin ltac:(simpl; lia)) as (b & Hb & Hlt).
  simpl in Hb. injection Hb as <-. simpl in Hlt. lia.
Qed.

(** *** Decoding *)

Lemma u8_range c : 0 <= u8 c < 256.
Proof. unfold u8. pose proof (Byte.to_N_bounded c). lia. Qed.

Lemma land_low x k : 0 <= k → Z.land x (2 ^ k - 1) = x mod 2 ^ k.
Proof.
  intros Hk. rewrite <- Z.land_ones by done. f_equal.
  rewrite Z.ones_equiv. lia.
Qed.

(** An or with bits below the shift is an addition. *)
Lemma lor_shift_add hi lo k :
  0 <= k → 0 <= lo < 2 ^ k → Z.lor (hi * 2 ^ k) lo = hi * 2 ^ k + lo.
Proof.
  intros Hk Hlo.
  assert (Z.land (hi * 2 ^ k) lo = 0) as Hland.
  { apply Z.bits_inj'. intros n Hn. rewrite Z.land_spec, Z.bits_0.
    destruct (Z.lt_ge_cases n k) as [Hlt|Hge].
    - by rewrite Z.mul_pow2_bits_low by done.
    - destruct (decide (lo = 0)) as [->|Hne].
      + rewrite Z.bits_0. apply andb_false_r.
      + rewrite (Z.bits_above_log2 lo n); [apply andb_false_r|lia|].
        apply Z.log2_lt_pow2; [lia|].
        eapply Z.lt_le_trans; [apply Hlo|]. apply Z.pow_le_mono_r; lia. }
  pose proof (Z.add_lor_land (hi * 2 ^ k) lo). lia.
Qed.

Lemma land_mask x :
  Z.land x 63 = x mod 64 ∧ Z.land x 31 = x mod 32
  ∧ Z.land x 15 = x mod 16 ∧ Z.land x 7 = x mod 8.
Proof.
  split_and!.
  - apply (land_low x 6). lia.
  - apply (land_low x 5). lia.
  - apply (land_low x 4). lia.
  - apply (land_low x 3). lia.
Qed.

(** Masks become remainders and shifts become products. *)
Ltac bits_to_arith :=
  repeat match goal with
  | |- context [Z.land ?x 63] => rewrite (proj1 (land_mask x))
  | |- context [Z.land ?x 31] => rewrite (proj1 (proj2 (land_mask x)))
  | |- context [Z.land ?x 15] => rewrite (proj1 (proj2 (proj2 (land_mask x))))
  | |- context [Z.land ?x 7] => rewrite (proj2 (proj2 (proj2 (land_mask x))))
  end;
  rewrite !Z.shiftl_mul_pow2 by lia.

(** C4 (amended). [PeekRune] reads the leading byte [c] with [Peek] and
    classifies it: length 1 exactly when [c < 0xC0] (so the bytes 0x80..0xBF
    count as one-byte codepoints), length 2 when [0xC0 <= c < 0xE0], length 3
    when [0xE0 <= c < 0xF0], length 4 otherwise. It then peeks the
    continuation bytes in order and, as long as these calls return, answers
    the codepoint made of the low 5, 4 or 3 bits of [c] followed by the low
    6 bits of each continuation byte. *)
Theorem PeekRune_length h z n h0 z0 c :
  Peek h z n = Some (h0, z0, c) →
  (u8 c < 192 → PeekRune h z n = Some (h0, z0, (u8 c, 1)))
  ∧ (192 <= u8 c < 224 →
     ∀ h1 z1 c1,
       Peek h0 z0 (n +i 1) = Some (h1, z1, c1) →
       PeekRune h z n
       = Some (h1, z1, (u8 c mod 32 * 64 + u8 c1 mod 64, 2)))
  ∧ (224 <= u8 c < 240 →
     ∀ h1 z1 c1 h2 z2 c2,
       Peek h0 z0 (n +i 1) = Some (h1, z1, c1) →
       Peek h1 z1 (n +i 2) = Some (h2, z2, c2) →
       PeekRune h z n
       = Some (h2, z2, (u8 c mod 16 * 4096 + u8 c1 mod 64 * 64 + u8 c2 mod 64, 3)))
  ∧ (240 <= u8 c →
     ∀ h1 z1 c1 h2 z2 c2 h3 z3 c3,
       Peek h0 z0 (n +i 1) = Some (h1, z1, c1) →
       Peek h1 z1 (n +i 2) = Some (h2, z2, c2) →
       Peek h2 z2 (n +i 3) = Some (h3, z3, c3) →
       PeekRune h z n
       = Some (h3, z3,
               (u8 c mod 8 * 262144 + u8 c1 mod 64 * 4096
                + u8 c2 mod 64 * 64 + u8 c3 mod 64, 4))).
Proof.
  intros HP. unfold PeekRune. rewrite HP. simpl.
  split_and!.
  - intros Hc. by rewrite decide_True by done.
  - intros Hc h1 z1 c1 HP1.
    rewrite decide_False by lia. rewrite decide_True by lia.
    rewrite HP1. simpl. do 3 f_equal. bits_to_arith.
    pose proof (Z.mod_pos_bound (u8 c1) 64 ltac:(lia)).
    rewrite (lor_shift_add _ _ 6) by lia. lia.
  - intros Hc h1 z1 c1 h2 z2 c2 HP1 HP2.
    do 2 rewrite decide_False by lia. rewrite decide_True by lia.
    rewrite HP1. simpl. rewrite HP2. simpl. do 3 f_equal. bits_to_arith.
    pose proof (Z.mod_pos_bound (u8 c1) 64 ltac:(lia)).
    pose proof (Z.mod_pos_bound (u8 c2) 64 ltac:(lia)).
    rewrite (lor_shift_add _ (u8 c1 mod 64 * 2 ^ 6) 12) by lia.
    replace (u8 c mod 16 * 2 ^ 12 + u8 c1 mod 64 * 2 ^ 6)
      with ((u8 c mod 16 * 64 + u8 c1 mod 64) * 2 ^ 6) by lia.
    rewrite (lor_shift_add _ _ 6) by lia. lia.
  - intros Hc h1 z1 c1 h2 z2 c2 h3 z3 c3 HP1 HP2 HP3.
    do 3 rewrite decide_False by lia.
    rewrite HP1. simpl. rewrite HP2. simpl. rewrite HP3. simpl. do 3 f_equal.
    bits_to_arith.
    pose proof (Z.mod_pos_bound (u8 c1) 64 ltac:(lia)).
    pose proof (Z.mod_pos_bound (u8 c2) 64 ltac:(lia)).
    pose proof (Z.mod_pos_bound (u8 c3) 64 ltac:(lia)).
    rewrite (lor_shift_add _ (u8 c1 mod 64 * 2 ^ 12) 18) by lia.
    replace (u8 c mod 8 * 2 ^ 18 + u8 c1 mod 64 * 2 ^ 12)
      with ((u8 c mod 8 * 64 + u8 c1 mod 64) * 2 ^ 12) by lia.
    rewrite (lor_shift_add _ (u8 c2 mod 64 * 2 ^ 6) 12) by lia.
    replace ((u8 c mod 8 * 64 + u8 c1 mod 64) * 2 ^ 12 + u8 c2 mod 64 * 2 ^ 6)
      with (((u8 c mod 8 * 64 + u8 c1 mod 64) * 64 + u8 c2 mod 64) * 2 ^ 6) by lia.
    rewrite (lor_shift_add _ _ 6) by lia. lia.
Qed.

Lemma PeekRune_length_witness :
  NewLexerSize euro_heap euro 0 = Some (euro_heap, euro_lexer)
  ∧ PeekRune euro_heap euro_lexer 0 = Some (euro_heap, euro_lexer, (8364, 3)).
Proof.
  split; [reflexivity|].
  pose proof (PeekRune_length euro_heap euro_lexer 0 euro_heap euro_lexer xe2 eq_refl)
    as (_ & _ & H3 & _).
  assert (224 <= u8 xe2 < 240) as Hc by (unfold u8; simpl; lia).
  apply (H3 Hc euro_heap euro_lexer x82 euro_heap euro_lexer xac);
    reflexivity.
Defined.

(** C4 as stated fails: the leading byte 0x80 is not below 0x80, and
    [PeekRune] answers length 1 for it, not length 2. *)
Lemma PeekRune_0x80_has_length_1 :
  ∃ h z,
    NewLexerSize [[x80; x80]] (InMemory (mkSlice 0 0 2 2)) 0 = Some (h, z)
    ∧ Peek h z 0 = Some (h, z, x80)
    ∧ u8 x80 = 128
    ∧ PeekRune h z 0 = Some (h, z, (128, 1))
    ∧ ¬ ∃ h' z' c, PeekRune h z 0 = Some (h', z', (c, 2)).
Proof.
  eexists _, _. repeat (split; [vm_compute; reflexivity|]).
  intros (h' & z' & c & H). vm_compute in H. discriminate H.
Qed.

End LexFacts.

(** ** Further properties of the pool *)

Module PoolMore.
Import Mem Pool PoolSpec MoreSpec GoIntFacts MemFacts PoolFacts.

Lemma intern_out z pl s oldBuf z' out :
  intern z pl s oldBuf = Some (z', out) →
  ∃ b, pl !! s = Some b ∧ cap out = cap (buf b) ∧ arr out = arr (buf b)
       ∧ pos z' = pos z.
Proof.
  unfold intern. destruct (pl !! s) as [b|]; simpl; [|done].
  destruct (if decide (head z ≠ 0%nat) then _ else _) as [pl2|]; simpl; [|done].
  destruct (reslice (buf b) 0 0) as [o|] eqn:Ho; simpl; [|done].
  intros [= <- <-]. apply reslice_Some in Ho as (_ & _ & ->). simpl.
  exists b. split_and!; [done|lia|done|done].
Qed.

(** Whatever its path, [swap] hands out a buffer of at least the capacity
    asked for. *)
Lemma swap_cap h z oldBuf size h' z' out :
  swap h z oldBuf size = Some (h', z', out) → size <= cap out.
Proof.
  unfold swap. intros Hswap.
  destruct (find_reusable (pool z) size 0) as [i|] eqn:Hfind.
  - destruct (intern z (pool z) i oldBuf) as [[z1 o1]|] eqn:Hint; [|done].
    simpl in Hswap. injection Hswap as <- <- <-.
    apply find_reusable_Some in Hfind as (_ & b & Hb & _ & Hs).
    rewrite Nat.sub_0_r in Hb.
    apply intern_out in Hint as (b' & Hb' & -> & _). congruence.
  - case_decide as Hc.
    + destruct (reslice oldBuf 0 0) as [o|] eqn:Ho; [|done]. simpl in Hswap.
      injection Hswap as <- <- <-. apply reslice_Some in Ho as (_ & _ & ->).
      simpl. lia.
    + destruct (make h size) as [[h1 fresh]|] eqn:Hmk; [|done]. simpl in Hswap.
      destruct (intern z _ _ oldBuf) as [[z1 o1]|] eqn:Hint; [|done].
      simpl in Hswap. injection Hswap as <- <- <-.
      apply intern_out in Hint as (b' & Hb' & -> & _).
      rewrite length_app in Hb'. simpl in Hb'.
      rewrite lookup_app_r in Hb' by lia.
      replace (length (pool z) + 1 - 1 - length (pool z))%nat with 0%nat in Hb' by lia.
      injection Hb' as <-. simpl.
      unfold make in Hmk. case_decide; [|done]. injection Hmk as <- <-. done.
Qed.

(** *** Accounting *)

Lemma reachable_pos_range z : reachable z → - 2 ^ 63 <= pos z < 2 ^ 63.
Proof.
  induction 1 as [|h z oldBuf size h' z' out Hz IH Hold Hswap
                  |z n z' Hz IH Hfree].
  - simpl. lia.
  - destruct (reachable_wf z Hz) as [l Hwf].
    destruct (swap_wf _ _ _ _ _ _ _ _ Hwf Hold Hswap)
      as [(-> & _)|(s & _ & _ & -> & _)]; [|done].
    simpl. apply wrap_range.
  - destruct (reachable_wf z Hz) as [l Hwf].
    destruct (free_spec z l n Hwf)
      as (k & z1 & Hfree' & Hk & Hwf' & Hpos & _ & Hdr & _).
    rewrite Hfree in Hfree'. injection Hfree' as <-.
    pose proof (wrap_range (pos z + n)) as Hw. fold (pos z +i n) in Hw.
    rewrite Hpos. destruct k as [|k].
    + rewrite drained_0. lia.
    + specialize (Hdr k ltac:(lia)).
      assert (0 <= drained (pool z) l (S k)).
      { rewrite <- (drained_0 (pool z) l). apply drained_mono; [|lia].
        intros i _. by eapply wf_block_len. }
      lia.
Qed.

Lemma drained_all_snoc pl l s :
  drained pl (l ++ [s]) (length (l ++ [s]))
  = drained pl l (length l) + block_len pl s.
Proof.
  unfold drained. rewrite !firstn_all, map_app, foldr_app. simpl.
  generalize (map (block_len pl) l). intros xs.
  induction xs as [|x xs IH]; simpl; lia.
Qed.

(** X7. The pool keeps exact accounts. Whatever path it takes (reuse of a
    block, reuse of the retired buffer in place, allocation), [swap] adds the
    length of the retired buffer to the bytes the pool is waiting for, and
    [free(n)] takes [n] from them, however many blocks it retires. *)
Theorem pending_accounting z :
  reachable z →
  (∀ h oldBuf size h' z' out,
     slice_ok oldBuf → swap h z oldBuf size = Some (h', z', out) →
     pending z' = pending z + len oldBuf)
  ∧ (∀ n z',
       - 2 ^ 63 <= pos z + n < 2 ^ 63 → free z n = Some z' →
       pending z' = pending z - n).
Proof.
  intros Hz. destruct (reachable_wf z Hz) as [l Hwf].
  pose proof (reachable_pos_range z Hz) as Hrange.
  unfold pending. rewrite (wf_chain z l Hwf). split.
  - intros h oldBuf size h' z' out Hold Hswap.
    destruct (swap_wf _ _ _ _ _ _ _ _ Hwf Hold Hswap)
      as [(-> & -> & Hpos & Hwf')|(s & Hs & Hwf' & Hpos & _ & Hlens & Hlen)].
    + rewrite (wf_chain _ _ Hwf'). simpl. unfold drained. simpl.
      destruct Hold as (_ & ? & _). rewrite sub_small by lia. lia.
    + rewrite (wf_chain _ _ Hwf'), drained_all_snoc, Hlens, Hpos.
      rewrite (drained_agree (pool z) (pool z')) by done. lia.
  - intros n z' Hn Hfree.
    destruct (free_spec z l n Hwf)
      as (k & z1 & Hfree' & Hk & Hwf' & Hpos & Hlook & _ & _ & Hlen).
    rewrite Hfree in Hfree'. injection Hfree' as <-.
    rewrite (wf_chain _ _ Hwf'), Hpos. rewrite add_small by lia.
    rewrite (drained_agree (pool z) (pool z')).
    2:{ intros i _. by apply (retired_block_len _ _ (λ i, i ∈ take k l)). }
    replace (length l) with (k + length (drop k l))%nat
      by (rewrite length_drop; lia).
    rewrite drained_app. lia.
Qed.

Lemma pending_accounting_witness :
  ∃ z',
    free two_blocks 4 = Some z'
    ∧ pending two_blocks = 5
    ∧ chain z' = [1%nat]
    ∧ pending z' = pending two_blocks - 4.
Proof.
  eexists. split; [vm_compute; reflexivity|].
  split; [reflexivity|]. split; [reflexivity|].
  apply (proj2 (pending_accounting two_blocks reachable_two_blocks) 4).
  - simpl. lia.
  - vm_compute. reflexivity.
Defined.

(** *** Batching the reports *)

Lemma linked_tail pl t l :
  linked pl t l → t = match l with [] => 0%nat | i :: _ => S i end.
Proof. destruct l; simpl; [done|]. by intros [-> _]. Qed.

Lemma frees_one z m : frees z [m] = free z m.
Proof. simpl. by destruct (free z m). Qed.

(** X8. Reports can be batched: calling [free] with several counts in a row
    (the first of any sign, the later ones not negative) leaves the pool
    exactly as one call with their sum does. *)
Theorem frees_batch z n ns :
  reachable z → Forall (λ m, 0 <= m) ns →
  - 2 ^ 63 <= pos z + n → pos z + n + total ns < 2 ^ 63 →
  frees z (n :: ns) = free z (n + total ns).
Proof.
  intros Hz Hns Hlo Hhi. destruct (reachable_wf z Hz) as [l Hwf].
  assert (0 <= total ns) as Htot.
  { clear -Hns. induction Hns; simpl; lia. }
  destruct (frees_spec ns n z l Hwf Hns Hlo Hhi)
    as (k & z1 & -> & Hk & Hwf1 & Hpos1 & Hlook1 & Hdr1 & Hstop1 & Hlen1).
  destruct (frees_spec [] (n + total ns) z l Hwf ltac:(constructor)
              ltac:(lia) ltac:(simpl; lia))
    as (k' & z2 & Hfree2 & Hk' & Hwf2 & Hpos2 & Hlook2 & Hdr2 & Hstop2 & Hlen2).
  rewrite frees_one in Hfree2. rewrite Hfree2. f_equal.
  simpl in Hpos2, Hdr2, Hstop2. rewrite Z.add_0_r in Hpos2.
  assert (k = k') as <-.
  { destruct (Nat.lt_trichotomy k k') as [Hlt|[?|Hgt]]; [|done|].
    - specialize (Hdr2 k Hlt). specialize (Hstop1 ltac:(lia)). lia.
    - specialize (Hdr1 k' Hgt). specialize (Hstop2 ltac:(lia)). lia. }
  destruct Hwf1 as [_ Hl1 Hh1 _], Hwf2 as [_ Hl2 Hh2 _].
  apply linked_tail in Hl1, Hl2.
  assert (pool z1 = pool z2) as Hpool.
  { apply list_eq. intros i. destruct (pool z !! i) as [b|] eqn:Hb.
    - by rewrite (Hlook1 i b Hb), (Hlook2 i b Hb).
    - apply lookup_ge_None in Hb.
      rewrite (proj2 (lookup_ge_None (pool z1) i)) by lia.
      by rewrite (proj2 (lookup_ge_None (pool z2) i)) by lia. }
  destruct z1, z2. simpl in *. subst. f_equal. lia.
Qed.

Lemma frees_batch_witness :
  frees two_blocks [1; 2; 1] = free two_blocks (1 + total [2; 1]).
Proof.
  apply frees_batch.
  - exact reachable_two_blocks.
  - repeat constructor; lia.
  - simpl. lia.
  - simpl. lia.
Defined.

(** *** A pool nothing was reported to *)

Lemma find_reusable_active bs size i :
  Forall (λ b, active b = true) bs → find_reusable bs size i = None.
Proof.
  intros H. revert i. induction H as [|b bs Hb _ IH]; intros i; simpl; [done|].
  rewrite Hb. simpl. apply IH.
Qed.

Lemma intern_untouched z pl s oldBuf z' out :
  intern z pl s oldBuf = Some (z', out) →
  Forall (λ b, active b = true) pl →
  Forall (λ b, active b = true) (pool z') ∧ pos z' = pos z
  ∧ ∃ b, pl !! s = Some b ∧ arr out = arr (buf b).
Proof.
  unfold intern. intros Hi Hpl.
  destruct (pl !! s) as [b|] eqn:Hb; simpl in Hi; [|done].
  assert (Forall (λ b, active b = true) (<[s:=mkBlock oldBuf 0 true]> pl))
    as Hpl1 by by apply Forall_insert.
  destruct (reslice (buf b) 0 0) as [o|] eqn:Ho.
  2:{ destruct (decide (head z ≠ 0%nat)); [|done].
      by destruct (_ !! (head z - 1)%nat). }
  apply reslice_Some in Ho as (_ & _ & ->).
  destruct (decide (head z ≠ 0%nat)).
  - destruct (<[s:=mkBlock oldBuf 0 true]> pl !! (head z - 1)%nat)
      as [hb|] eqn:Hhb; simpl in Hi; [|done].
    injection Hi as <- <-. simpl. split_and!; [|done|by exists b].
    apply Forall_insert; [done|]. simpl. by eapply Forall_lookup_1 in Hpl1.
  - simpl in Hi. injection Hi as <- <-. simpl. split_and!; [done|done|by exists b].
Qed.

(** With nothing reported, [swap] never hands out a buffer that holds data:
    it answers the retired buffer itself only when that is empty, and a new
    array otherwise. *)
Lemma swap_untouched h z oldBuf size h' z' out :
  untouched z → 0 <= len oldBuf → swap h z oldBuf size = Some (h', z', out) →
  (h' = h ∧ z' = z ∧ len oldBuf = 0 ∧ arr out = arr oldBuf ∧ off out = off oldBuf)
  ∨ (h' = h ++ [replicate (Z.to_nat size) x00] ∧ untouched z'
     ∧ arr out = length h).
Proof.
  intros [Hpos Hact] Hlen. unfold swap.
  rewrite (find_reusable_active _ _ _ Hact). case_decide as Hc.
  - destruct (reslice oldBuf 0 0) as [o|] eqn:Ho; simpl; [|done].
    intros [= <- <- <-]. left. apply reslice_Some in Ho as (_ & _ & ->). simpl.
    destruct Hc as (_ & Hge & _). assert (len oldBuf = 0) as H0 by lia.
    split_and!; [done| |done|done|lia].
    rewrite H0, Hpos. destruct z; simpl in *; subst. reflexivity.
  - destruct (make h size) as [[h1 fresh]|] eqn:Hmk; simpl; [|done].
    destruct (intern z _ _ oldBuf) as [[z1 o1]|] eqn:Hint; simpl; [|done].
    intros [= <- <- <-]. right.
    unfold make in Hmk. case_decide; [|done]. injection Hmk as <- <-.
    destruct (intern_untouched _ _ _ _ _ _ Hint) as (Hact' & Hpos' & b & Hb & Harr).
    { apply Forall_app. split; [done|]. by constructor. }
    split_and!; [done|split; [congruence|done]|].
    rewrite Harr. rewrite length_app in Hb. simpl in Hb.
    rewrite lookup_app_r in Hb by lia.
    replace (length (pool z) + 1 - 1 - length (pool z))%nat with 0%nat in Hb by lia.
    by injection Hb as <-.
Qed.

(** *** The buffers of the blocks *)

Lemma intern_bufs z pl s oldBuf z' out :
  intern z pl s oldBuf = Some (z', out) →
  buf <$> pool z' = <[s := oldBuf]> (buf <$> pl) ∧ head z' = S s.
Proof.
  unfold intern. intros Hi.
  destruct (pl !! s) as [b|] eqn:Hb; simpl in Hi; [|done].
  destruct (reslice (buf b) 0 0) as [o|] eqn:Ho.
  2:{ destruct (decide (head z ≠ 0%nat)); [|done].
      by destruct (_ !! (head z - 1)%nat). }
  set (pl1 := <[s:=mkBlock oldBuf 0 true]> pl) in *.
  assert (buf <$> pl1 = <[s := oldBuf]> (buf <$> pl)) as Hpl1
    by (unfold pl1; by rewrite list_fmap_insert).
  destruct (decide (head z ≠ 0%nat)).
  - destruct (pl1 !! (head z - 1)%nat) as [hb|] eqn:Hhb; simpl in Hi; [|done].
    injection Hi as <- <-. simpl. split; [|lia].
    rewrite list_fmap_insert. simpl. rewrite <- Hpl1.
    apply list_insert_id. by rewrite list_lookup_fmap, Hhb.
  - simpl in Hi. injection Hi as <- <-. simpl. split; [done|lia].
Qed.

(** Where the buffer that [swap] hands out comes from, and what becomes of
    the buffers of the blocks. *)
Lemma swap_arrays h z oldBuf size h' z' out :
  swap h z oldBuf size = Some (h', z', out) →
  (h' = h ∧ z' = mkPool (pool z) (head z) (tail z) (pos z -i len oldBuf)
   ∧ tail z = 0%nat ∧ pos z >= len oldBuf ∧ arr out = arr oldBuf)
  ∨ (∃ s b pl,
       pl !! s = Some b ∧ arr out = arr (buf b)
       ∧ buf <$> pool z' = <[s := oldBuf]> (buf <$> pl)
       ∧ head z' = S s
       ∧ ((pl = pool z ∧ h' = h)
          ∨ (pl = pool z ++ [mkBlock (mkSlice (length h) 0 0 size) 0 true]
             ∧ h' = h ++ [replicate (Z.to_nat size) x00]))).
Proof.
  unfold swap. destruct (find_reusable (pool z) size 0) as [j|] eqn:Hfind.
  - destruct (intern z (pool z) j oldBuf) as [[z1 o1]|] eqn:Hint; simpl; [|done].
    intros [= <- <- <-]. right.
    destruct (intern_out _ _ _ _ _ _ Hint) as (b & Hb & _ & Harr & _).
    destruct (intern_bufs _ _ _ _ _ _ Hint) as [Hbufs Hhead].
    exists j, b, (pool z). split_and!; [done|done|done|done|by left].
  - case_decide as Hc.
    + destruct (reslice oldBuf 0 0) as [o|] eqn:Ho; simpl; [|done].
      intros [= <- <- <-]. left. apply reslice_Some in Ho as (_ & _ & ->).
      destruct Hc as (? & ? & ?). done.
    + destruct (make h size) as [[h1 fresh]|] eqn:Hmk; simpl; [|done].
      destruct (intern z _ _ oldBuf) as [[z1 o1]|] eqn:Hint; simpl; [|done].
      intros [= <- <- <-]. right.
      unfold make in Hmk. case_decide; [|done]. injection Hmk as <- <-.
      destruct (intern_out _ _ _ _ _ _ Hint) as (b & Hb & _ & Harr & _).
      destruct (intern_bufs _ _ _ _ _ _ Hint) as [Hbufs Hhead].
      eexists _, b, _. split_and!; [exact Hb|done|exact Hbufs|done|by right].
Qed.

Lemma free_bufs z l n z' :
  wf z l → free z n = Some z' → buf <$> pool z' = buf <$> pool z.
Proof.
  intros Hwf Hfree.
  destruct (free_spec z l n Hwf) as (k & z1 & Hfree' & _ & _ & _ & Hlook & _ & _ & Hlen).
  rewrite Hfree in Hfree'. injection Hfree' as <-.
  apply list_eq. intros i. rewrite !list_lookup_fmap.
  destruct (pool z !! i) as [b|] eqn:Hb.
  - rewrite (Hlook i b Hb). simpl. by case_decide.
  - apply lookup_ge_None in Hb.
    by rewrite (proj2 (lookup_ge_None (pool z') i)) by lia.
Qed.

Lemma NoDup_exchange {A} (x y : A) (l : list A) s :
  NoDup (x :: l) → l !! s = Some y → NoDup (y :: <[s := x]> l).
Proof.
  intros Hnd Hs.
  pose proof (take_drop_middle l s y Hs) as Hl.
  rewrite insert_take_drop by by eapply lookup_lt_Some.
  rewrite <- Hl in Hnd.
  rewrite <- Permutation_middle in Hnd |- *. by rewrite perm_swap.
Qed.

End PoolMore.

(** ** Further properties of the lexer *)

Module LexMore.
Import Mem Source Lex Run MemSpec PoolSpec LexSpec MoreSpec.
Import GoIntFacts MemFacts LexFacts PoolMore.

(** *** A recorded error is final *)

Lemma Peek_sticky h z n h' z' b :
  err z ≠ None → Peek h z n = Some (h', z', b) → h' = h ∧ z' = z.
Proof.
  intros Herr. unfold Peek. case_decide.
  - unfold read. rewrite decide_True by done. by intros [= <- <- <-].
  - destruct (index h (buf z) _); simpl; [|done]. by intros [= <- <- <-].
Qed.

Lemma PeekRune_sticky h z n h' z' cn :
  err z ≠ None → PeekRune h z n = Some (h', z', cn) → h' = h ∧ z' = z.
Proof.
  intros Herr. unfold PeekRune.
  destruct (Peek h z n) as [[[h0 z0] c]|] eqn:HP0; simpl; [|done].
  destruct (Peek_sticky _ _ _ _ _ _ Herr HP0) as [-> ->].
  case_decide; [by intros [= <- <- <-]|].
  destruct (Peek h z (n +i 1)) as [[[h1 z1] c1]|] eqn:HP1.
  2:{ by repeat case_decide. }
  destruct (Peek_sticky _ _ _ _ _ _ Herr HP1) as [-> ->].
  simpl. case_decide; [by intros [= <- <- <-]|].
  destruct (Peek h z (n +i 2)) as [[[h2 z2] c2]|] eqn:HP2.
  2:{ by repeat case_decide. }
  destruct (Peek_sticky _ _ _ _ _ _ Herr HP2) as [-> ->].
  simpl. case_decide; [by intros [= <- <- <-]|].
  destruct (Peek h z (n +i 3)) as [[[h3 z3] c3]|] eqn:HP3; simpl; [|done].
  destruct (Peek_sticky _ _ _ _ _ _ Herr HP3) as [-> ->].
  by intros [= <- <- <-].
Qed.

Lemma exec_sticky h z o h' z' res e :
  err z = Some e → exec h z o = Some (h', z', res) →
  h' = h ∧ err z' = Some e ∧ r z' = r z ∧ buf z' = buf z.
Proof.
  intros Herr Hex.
  assert (err z ≠ None) as Hne by (by rewrite Herr).
  destruct o; simpl in Hex.
  - destruct (Peek h z n) as [[[h0 z0] c]|] eqn:HP; simpl in Hex; [|done].
    injection Hex as <- <- <-.
    by destruct (Peek_sticky _ _ _ _ _ _ Hne HP) as [-> ->].
  - destruct (PeekRune h z n) as [[[h0 z0] c]|] eqn:HP; simpl in Hex; [|done].
    injection Hex as <- <- <-.
    by destruct (PeekRune_sticky _ _ _ _ _ _ Hne HP) as [-> ->].
  - by injection Hex as <- <- <-.
  - by injection Hex as <- <- <-.
  - by injection Hex as <- <- <-.
  - destruct (Lexeme z); simpl in Hex; [|done]. by injection Hex as <- <- <-.
  - unfold Shift in Hex. destruct (reslice _ _ _); simpl in Hex; [|done].
    by injection Hex as <- <- <-.
  - by injection Hex as <- <- <-.
  - by injection Hex as <- <- <-.
  - unfold Free in Hex. destruct (Pool.free _ _); simpl in Hex; [|done].
    by injection Hex as <- <- <-.
  - by injection Hex as <- <- <-.
Qed.

(** X1. Once an error of the source is recorded (end-of-stream or any
    other), no call clears or replaces it, the reader is never asked again,
    and neither the buffer nor the memory changes: whatever calls follow. *)
Theorem error_is_final h z ops h1 z1 evs e :
  err z = Some e → run h z ops = Some (h1, z1, evs) →
  err z1 = Some e ∧ r z1 = r z ∧ buf z1 = buf z ∧ h1 = h.
Proof.
  revert h z h1 z1 evs. induction ops as [|o ops IH];
    intros h z h1 z1 evs Herr Hrun; simpl in Hrun.
  - by injection Hrun as <- <- <-.
  - destruct (exec h z o) as [[[h' z'] res]|] eqn:Hex; simpl in Hrun; [|done].
    destruct (run h' z' ops) as [[[h2 z2] evs']|] eqn:Hrun'; simpl in Hrun; [|done].
    injection Hrun as <- <- <-.
    destruct (exec_sticky _ _ _ _ _ _ _ Herr Hex) as (-> & Herr' & Hr & Hb).
    destruct (IH _ _ _ _ _ Herr' Hrun') as (? & ? & ? & ?).
    split_and!; congruence.
Qed.

Lemma error_is_final_witness :
  ∃ h z h1 z1 evs,
    NewLexerSize euro_heap euro 0 = Some (h, z)
    ∧ run h z [OPeek 5; OMove 3; OShift; OPeekRune 0] = Some (h1, z1, evs)
    ∧ err z1 = Some EOF ∧ r z1 = r z ∧ buf z1 = buf z ∧ h1 = h.
Proof.
  eexists _, _, _, _, _.
  split; [vm_compute; reflexivity|].
  split; [vm_compute; reflexivity|].
  eapply (error_is_final euro_heap euro_lexer [OPeek 5; OMove 3; OShift; OPeekRune 0]).
  - reflexivity.
  - vm_compute. reflexivity.
Defined.

(** *** What [Peek] returns *)

Lemma index_view h s i a b :
  backed h s → index h s i = Some b → 0 <= a <= i →
  view h s a (len s) !! Z.to_nat (i - a) = Some b.
Proof.
  intros [(Ho & Hl & Hc) (ar & Ha & Hlen)] Hidx Hai.
  unfold index in Hidx. case_decide as Hi; [|done].
  rewrite Ha in Hidx. simpl in Hidx.
  unfold view, bytes. simpl. rewrite Ha.
  rewrite lookup_take_lt by lia. rewrite lookup_drop.
  rewrite <- Hidx. f_equal. lia.
Qed.

Lemma ahead_drop h z :
  good h z →
  ahead h z
  = drop (Z.to_nat (pos z - start z))
         (view h (buf z) (start z) (len (buf z)) ++ stream (r z)).
Proof.
  intros [(Hs0 & Hsp & Hpl & Hlc) Hbuf _ _].
  pose proof Hbuf as [(Ho & _) _]. unfold ahead.
  rewrite (view_split h (buf z) (start z) (pos z) (len (buf z))) by lia.
  rewrite <- app_assoc. rewrite drop_app_length'; [done|].
  symmetry. apply length_view; [done|lia..].
Qed.

(** Peeking leaves the bytes ahead of the cursor as they are. *)
Lemma carried_ahead h z h' z' :
  good h z → carried h z h' z' → ahead h' z' = ahead h z.
Proof.
  intros Hg (Hg' & _ & Hv & Hp).
  rewrite (ahead_drop h z Hg), (ahead_drop h' z' Hg'). by rewrite Hv, Hp.
Qed.

(** The end of [read]: with no byte delivered it answers 0 and an error is
    recorded; otherwise it indexes the new buffer. *)
Lemma read_end h z p h' z' b :
  err z = None → read h z p = Some (h', z', b) →
  ∃ c oldBuf h1 pool1 nbuf dst src room r1 n e buf1,
    reslice (buf z) 0 (start z) = Some oldBuf
    ∧ Pool.swap h (pool z) oldBuf c = Some (h1, pool1, nbuf)
    ∧ c = (if decide (2 *i (p -i start z) > cap (buf z))
           then 2 *i cap (buf z) +i (p -i start z) else cap (buf z))
    ∧ reslice nbuf 0 (len (buf z) -i start z) = Some dst
    ∧ reslice (buf z) (start z) (len (buf z)) = Some src
    ∧ reslice nbuf (len (buf z) -i start z) (cap nbuf) = Some room
    ∧ Read (r z) (copy h1 dst src).1 room = (r1, h', n, e)
    ∧ reslice nbuf 0 (len (buf z) -i start z +i n) = Some buf1
    ∧ buf z' = buf1 ∧ pool z' = pool1
    ∧ ((n = 0 ∧ b = x00 ∧ err z' ≠ None)
       ∨ (n ≠ 0 ∧ index h' buf1 (p -i start z) = Some b)).
Proof.
  intros Herr Hread. unfold read in Hread.
  rewrite decide_False in Hread by (by intros []).
  destruct (reslice (buf z) 0 (start z)) as [oldBuf|] eqn:Hold;
    simpl in Hread; [|done].
  destruct (Pool.swap h (pool z) oldBuf _) as [[[h1 pool1] nbuf]|] eqn:Hswap;
    simpl in Hread; [|done].
  destruct (reslice nbuf 0 _) as [dst|] eqn:Hdst; simpl in Hread; [|done].
  destruct (reslice (buf z) (start z) _) as [src|] eqn:Hsrc; simpl in Hread; [|done].
  destruct (reslice nbuf _ (cap nbuf)) as [room|] eqn:Hroom; simpl in Hread; [|done].
  destruct (Read (r z) _ room) as [[[r1 h3] n] e] eqn:HR.
  destruct (reslice nbuf 0 (_ +i n)) as [buf1|] eqn:Hbuf1; simpl in Hread; [|done].
  eexists _, oldBuf, h1, pool1, nbuf, dst, src, room, r1, n, e, buf1.
  split; [done|]. split; [exact Hswap|].
  repeat (split; [first [reflexivity|assumption]|]).
  destruct (decide (n = 0)) as [Hn|Hn].
  - injection Hread as <- <- <-.
    split; [exact HR|]. split; [exact Hbuf1|].
    destruct (decide (e = None)) as [He|He]; simpl;
      (split; [done|]); (split; [done|]); left; done.
  - destruct (index h3 buf1 _) as [b'|] eqn:Hidx; simpl in Hread; [|done].
    injection Hread as <- <- <-.
    split; [exact HR|]. split; [exact Hbuf1|].
    split; [done|]. split; [done|]. by right.
Qed.

(** A refill that returns, in numbers: the new buffer holds the bytes not
    yet committed and the [n] bytes delivered, token-start is 0, and the
    capacity is at least the one asked of the pool. *)
Lemma read_shape h z p h' z' b :
  good h z → err z = None → read h z p = Some (h', z', b) →
  ∃ n,
    0 <= n
    ∧ len (buf z') = len (buf z) - start z + n
    ∧ start z' = 0 ∧ pos z' = pos z - start z
    ∧ ((n = 0 ∧ b = x00 ∧ err z' ≠ None)
       ∨ (0 < n ∧ index h' (buf z') (p -i start z) = Some b)).
Proof.
  intros Hgood Herr Hread.
  destruct (read_inv _ _ _ _ _ _ Herr Hread)
    as (? & ? & ? & ? & ? & ? & ? & ? & ? & ? & ? & ?
        & _ & _ & _ & _ & _ & _ & _ & _ & _ & _ & Hstart' & Hpos' & _).
  destruct (read_end _ _ _ _ _ _ Herr Hread)
    as (c & oldBuf & h1 & pool1 & nbuf & dst & src & room & r1 & n & e & buf1
        & Hold & Hswap & _ & Hdst & Hsrc & Hroom & HR & Hbuf1 & Hbuf' & _ & Hres).
  destruct Hgood as [(Hs0 & Hsp & Hpl & Hlc) Hbuf [l Hwf] Hblocks].
  pose proof Hbuf as [(Ho & Hl & Hc) _].
  assert (maxAlloc = 2 ^ 48) as HmA by reflexivity.
  rewrite (sub_small (len (buf z)) (start z)) in * by lia.
  rewrite (sub_small (pos z) (start z)) in Hpos' by lia.
  assert (backed h oldBuf) as Hbold by by eapply backed_reslice.
  destruct (swap_backed _ _ _ _ _ _ _ Hswap Hblocks Hbold)
    as (_ & _ & [(Hno & Hnl & Hnc) _] & _).
  apply reslice_Some in Hdst as (Hd0 & Hd1 & _).
  apply reslice_Some in Hroom as (_ & _ & ->).
  apply Read_spec in HR as (D & _ & Hn & Hnroom & _); [|simpl; lia].
  simpl in Hnroom. rewrite add_small in Hbuf1 by lia.
  apply reslice_Some in Hbuf1 as (_ & _ & ->).
  exists n. rewrite Hbuf'. simpl.
  split_and!; [lia|lia|done|done|].
  destruct Hres as [(? & ? & ?)|(? & ?)]; [left|right]; split_and!; try done; lia.
Qed.

(** [Peek] at an offset that is not negative, when it returns: the byte is
    the one the stream has at that offset from the cursor, or it is 0 and an
    error is recorded (and after [Peek(0)] the error query reports it). The
    bytes ahead of the cursor are the same after the call. *)
Lemma Peek_byte h z n h' z' b :
  good h z → 0 <= n < 2 ^ 63 → Peek h z n = Some (h', z', b) →
  ahead h' z' = ahead h z
  ∧ (ahead h z !! Z.to_nat n = Some b
     ∨ (b = x00 ∧ err z' ≠ None ∧ (n = 0 → Err z' ≠ None))).
Proof.
  intros Hg Hn HP.
  pose proof (Peek_spec _ _ _ _ _ _ Hg HP) as Hcar.
  pose proof (carried_ahead _ _ _ _ Hg Hcar) as Hah. split; [done|].
  pose proof Hg as [(Hs0 & Hsp & Hpl & Hlc) Hbuf _ _].
  pose proof Hbuf as [(Ho & Hl & Hc) _].
  assert (maxAlloc = 2 ^ 48) as HmA by reflexivity.
  unfold Peek in HP.
  assert (n +i pos z = n + pos z ∧ n + pos z < 2 ^ 63 ∨ n +i pos z < 0) as Hwrap.
  { destruct (decide (n + pos z < 2 ^ 63)).
    - left. split; [|done]. apply add_small. lia.
    - right. unfold GoInt.add, GoInt.wrap.
      replace (n + pos z + 2 ^ 63) with (n + pos z - 2 ^ 63 + 1 * 2 ^ 64) by lia.
      rewrite Z.mod_add by lia. rewrite Z.mod_small by lia. lia. }
  case_decide as Hge.
  - destruct Hwrap as [[Hw Hlt]|Hw]; [|lia]. rewrite Hw in HP, Hge.
    destruct (err z) as [e0|] eqn:Herr.
    + unfold read in HP. rewrite Herr in HP. rewrite decide_True in HP by done.
      injection HP as <- <- <-. right. split; [done|]. rewrite Herr.
      split; [done|]. intros ->. unfold Err. rewrite Herr.
      rewrite decide_False; [done|]. intros [_ ?]. lia.
    + destruct (read_shape _ _ _ _ _ _ Hg Herr HP)
        as (nr & Hnr & Hlen' & Hstart' & Hpos' & [(-> & -> & Herr')|(Hpos & Hidx)]).
      * right. split; [done|]. split; [done|]. intros ->.
        unfold Err. rewrite decide_False; [done|]. intros [_ ?]. lia.
      * left. rewrite <- Hah. unfold ahead.
        destruct Hcar as ([_ Hbuf' _ _] & _).
        rewrite sub_small in Hidx by lia.
        rewrite lookup_app_l.
        -- replace n with (n + pos z - start z - pos z') by lia.
           apply index_view; [done|done|lia].
        -- unfold index in Hidx. case_decide; [|done].
           destruct Hbuf' as [(? & ? & ?) ?].
           rewrite length_view; [lia|done|lia|lia].
  - destruct Hwrap as [[Hw Hlt]|Hw].
    + rewrite Hw in HP.
      destruct (index h (buf z) (n + pos z)) as [b'|] eqn:Hidx; simpl in HP; [|done].
      injection HP as <- <- <-. left. unfold ahead.
      rewrite lookup_app_l.
      * replace n with (n + pos z - pos z) at 1 by lia.
        apply index_view; [done|done|lia].
      * rewrite length_view; [lia|done|lia|lia].
    + unfold index in HP. rewrite decide_False in HP by lia. done.
Qed.

(** The bytes ahead of the cursor are the content of the source from the
    offset of the cursor on. *)
Lemma ahead_content h src size h0 z0 ops h1 z1 evs :
  input_ok h src → NewLexerSize h src size = Some (h0, z0) →
  guarded h0 z0 ops → run h0 z0 ops = Some (h1, z1, evs) →
  good h1 z1 ∧ ahead h1 z1 = drop (cursor_offset evs z1) (content h src).
Proof.
  intros Hin Hnew Hgd Hrun.
  destruct (NewLexerSize_spec _ _ _ _ _ Hin Hnew) as [Hg0 Hc0].
  destruct (run_spec _ _ _ _ _ _ Hg0 Hgd Hrun) as [Hg1 Heq].
  split; [done|].
  rewrite Hc0, Heq, (ahead_drop _ _ Hg1). unfold cursor_offset.
  rewrite <- drop_drop. by rewrite drop_app_length.
Qed.

(** X2. At any point of a run, [Peek(n)] with [n >= 0], when it returns,
    answers the byte that the source has at the offset [n] from the cursor,
    or it answers 0 and an error is recorded in the lexer; after [Peek(0)]
    the error query [Err] then reports that error. *)
Theorem Peek_returns_stream_byte h src size h0 z0 ops h1 z1 evs n h2 z2 b :
  input_ok h src → NewLexerSize h src size = Some (h0, z0) →
  guarded h0 z0 ops → run h0 z0 ops = Some (h1, z1, evs) →
  0 <= n < 2 ^ 63 → Peek h1 z1 n = Some (h2, z2, b) →
  content h src !! (cursor_offset evs z1 + Z.to_nat n)%nat = Some b
  ∨ (b = x00 ∧ err z2 ≠ None ∧ (n = 0 → Err z2 ≠ None)).
Proof.
  intros Hin Hnew Hgd Hrun Hn HP.
  destruct (ahead_content _ _ _ _ _ _ _ _ _ Hin Hnew Hgd Hrun) as [Hg1 Hah].
  destruct (Peek_byte _ _ _ _ _ _ Hg1 Hn HP) as [_ [Hb|Hz]]; [left|by right].
  by rewrite Hah, lookup_drop in Hb.
Qed.

Lemma Peek_returns_stream_byte_witness :
  ∃ h0 z0 h1 z1 evs h2 z2,
    NewLexerSize [] abc_XYZ 4 = Some (h0, z0)
    ∧ run h0 z0 [OPeek 0; OMove 1] = Some (h1, z1, evs)
    ∧ Peek h1 z1 3 = Some (h2, z2, "Y"%byte)
    ∧ (content [] abc_XYZ !! (cursor_offset evs z1 + Z.to_nat 3)%nat = Some "Y"%byte
       ∨ ("Y"%byte = x00 ∧ err z2 ≠ None ∧ (3 = 0 → Err z2 ≠ None))).
Proof.
  eexists _, _, _, _, _, _, _.
  split; [vm_compute; reflexivity|].
  split; [vm_compute; reflexivity|].
  split; [vm_compute; reflexivity|].
  eapply (Peek_returns_stream_byte [] abc_XYZ 4 _ _ [OPeek 0; OMove 1]).
  - exact I.
  - vm_compute. reflexivity.
  - check_guards.
  - vm_compute. reflexivity.
  - lia.
  - vm_compute. reflexivity.
Defined.

(** *** Marks *)

(** What holds of every [Peek] on a good state, and composes, holds of
    [PeekRune]. *)
Lemma PeekRune_lift (R : heap → Lexer → heap → Lexer → Prop) :
  (∀ h z, R h z h z) →
  (∀ h1 z1 h2 z2 h3 z3, R h1 z1 h2 z2 → R h2 z2 h3 z3 → R h1 z1 h3 z3) →
  (∀ h z n h' z' b, good h z → Peek h z n = Some (h', z', b) → R h z h' z') →
  ∀ h z n h' z' cn,
    good h z → PeekRune h z n = Some (h', z', cn) → R h z h' z'.
Proof.
  intros Hrefl Htrans HPeek h z n h' z' cn Hg. unfold PeekRune.
  destruct (Peek h z n) as [[[h0 z0] c]|] eqn:HP0; simpl; [|done].
  pose proof (HPeek _ _ _ _ _ _ Hg HP0) as R0.
  pose proof (Peek_spec _ _ _ _ _ _ Hg HP0) as [Hg0 _].
  case_decide; [by intros [= <- <- <-]|].
  destruct (Peek h0 z0 (n +i 1)) as [[[h1 z1] c1]|] eqn:HP1.
  2:{ by repeat case_decide. }
  pose proof (HPeek _ _ _ _ _ _ Hg0 HP1) as R1.
  pose proof (Peek_spec _ _ _ _ _ _ Hg0 HP1) as [Hg1 _].
  simpl. case_decide.
  { intros [= <- <- <-]. by eapply Htrans. }
  destruct (Peek h1 z1 (n +i 2)) as [[[h2 z2] c2]|] eqn:HP2.
  2:{ by repeat case_decide. }
  pose proof (HPeek _ _ _ _ _ _ Hg1 HP2) as R2.
  pose proof (Peek_spec _ _ _ _ _ _ Hg1 HP2) as [Hg2 _].
  simpl. case_decide.
  { intros [= <- <- <-]. eapply Htrans; [|done]. by eapply Htrans. }
  destruct (Peek h2 z2 (n +i 3)) as [[[h3 z3] c3]|] eqn:HP3; simpl; [|done].
  pose proof (HPeek _ _ _ _ _ _ Hg2 HP3) as R3.
  intros [= <- <- <-].
  eapply Htrans; [|done]. eapply Htrans; [|done]. by eapply Htrans.
Qed.

(** The number of buffered bytes from token-start on. *)
Lemma Peek_buffered h z n h' z' b :
  good h z → Peek h z n = Some (h', z', b) →
  len (buf z) - start z <= len (buf z') - start z'.
Proof.
  intros Hg. unfold Peek. case_decide.
  - destruct (err z) as [e|] eqn:Herr.
    + unfold read. rewrite Herr. rewrite decide_True by done.
      intros [= <- <- <-]. lia.
    + intros HP. destruct (read_shape _ _ _ _ _ _ Hg Herr HP)
        as (nr & ? & ? & ? & _). lia.
  - destruct (index h (buf z) _); simpl; [|done]. intros [= <- <- <-]. lia.
Qed.

Lemma exec_scanning h z o h' z' res :
  good h z → scanning o → exec h z o = Some (h', z', res) →
  events h z o = []
  ∧ len (buf z) - start z <= len (buf z') - start z'.
Proof.
  intros Hg Hsc Hex. destruct o; simpl in *; try done.
  - destruct (Peek h z n) as [[[h0 z0] c]|] eqn:HP; simpl in Hex; [|done].
    injection Hex as <- <- <-. split; [done|]. by eapply Peek_buffered.
  - destruct (PeekRune h z n) as [[[h0 z0] c]|] eqn:HP; simpl in Hex; [|done].
    injection Hex as <- <- <-. split; [done|].
    eapply (PeekRune_lift
              (λ h z h' z', len (buf z) - start z <= len (buf z') - start z'));
      [| |apply Peek_buffered|done|done]; simpl; intros; lia.
  - injection Hex as <- <- <-. simpl. split; [done|lia].
  - injection Hex as <- <- <-. split; [done|lia].
  - injection Hex as <- <- <-. simpl. split; [done|lia].
  - destruct (Lexeme z); simpl in Hex; [|done].
    injection Hex as <- <- <-. split; [done|lia].
  - injection Hex as <- <- <-. simpl. split; [done|lia].
  - unfold Free in Hex. destruct (Pool.free _ _); simpl in Hex; [|done].
    injection Hex as <- <- <-. simpl. split; [done|lia].
  - injection Hex as <- <- <-. split; [done|lia].
Qed.

Lemma run_scanning ops : ∀ h z h1 z1 evs,
  good h z → Forall scanning ops → guarded h z ops →
  run h z ops = Some (h1, z1, evs) →
  good h1 z1 ∧ evs = []
  ∧ view h1 (buf z1) (start z1) (len (buf z1)) ++ stream (r z1)
    = view h (buf z) (start z) (len (buf z)) ++ stream (r z)
  ∧ len (buf z) - start z <= len (buf z1) - start z1.
Proof.
  induction ops as [|o ops IH]; intros h z h1 z1 evs Hg Hsc Hgd Hrun; simpl in *.
  - injection Hrun as <- <- <-. split_and!; done || lia.
  - apply Forall_cons in Hsc as [Ho Hsc]. destruct Hgd as [Hw Hgd].
    destruct (exec h z o) as [[[h' z'] res]|] eqn:Hex; simpl in Hrun; [|done].
    destruct (run h' z' ops) as [[[h2 z2] evs']|] eqn:Hrun'; simpl in Hrun; [|done].
    injection Hrun as <- <- <-.
    destruct (exec_spec _ _ _ _ _ _ Hg Hw Hex) as [Hg' Heq].
    destruct (exec_scanning _ _ _ _ _ _ Hg Ho Hex) as [Hev Hbuf].
    destruct (IH _ _ _ _ _ Hg' Hsc Hgd Hrun') as (Hg2 & -> & Heq' & Hbuf').
    rewrite Hev in Heq |- *. simpl in Heq.
    split_and!; [done|done|congruence|lia].
Qed.

(** X3. A mark taken with [Pos] survives refills: after any calls that
    commit nothing (peeks that may refill and renumber the buffer, moves
    within the buffered bytes, [Free], ...), [Rewind] to the mark leaves the
    cursor in the buffered window, [Pos] answers the mark again, and the
    bytes ahead of the cursor are those that were ahead when the mark was
    taken. *)
Theorem Rewind_to_mark h src size h0 z0 ops0 h1 z1 evs0 ops h2 z2 evs :
  input_ok h src → NewLexerSize h src size = Some (h0, z0) →
  guarded h0 z0 ops0 → run h0 z0 ops0 = Some (h1, z1, evs0) →
  Forall scanning ops → guarded h1 z1 ops →
  run h1 z1 ops = Some (h2, z2, evs) →
  window (Rewind z2 (Pos z1))
  ∧ Pos (Rewind z2 (Pos z1)) = Pos z1
  ∧ ahead h2 (Rewind z2 (Pos z1)) = ahead h1 z1.
Proof.
  intros Hin Hnew Hgd0 Hrun0 Hsc Hgd Hrun.
  destruct (ahead_content _ _ _ _ _ _ _ _ _ Hin Hnew Hgd0 Hrun0) as [Hg1 _].
  destruct (run_scanning _ _ _ _ _ _ Hg1 Hsc Hgd Hrun) as (Hg2 & _ & Heq & Hbuf).
  pose proof Hg1 as [(Hs0 & Hsp & Hpl & Hlc) [(Ho & Hl & Hc) _] _ _].
  pose proof Hg2 as [(Hs0' & Hsp' & Hpl' & Hlc') Hbuf2 Hpool2 Hblocks2].
  pose proof Hbuf2 as [(Ho' & Hl' & Hc') _].
  assert (maxAlloc = 2 ^ 48) as HmA by reflexivity.
  assert (Pos z1 = pos z1 - start z1) as Hm by (apply sub_small; lia).
  assert (pos (Rewind z2 (Pos z1)) = start z2 + (pos z1 - start z1)) as Hp.
  { unfold Rewind. simpl. rewrite Hm. apply add_small. lia. }
  assert (window (Rewind z2 (Pos z1))) as Hw.
  { unfold window. rewrite Hp. simpl. lia. }
  split; [done|]. split.
  - change (pos (Rewind z2 (Pos z1)) -i start z2 = Pos z1).
    rewrite Hp, Hm. rewrite sub_small by lia. lia.
  - assert (good h2 (Rewind z2 (Pos z1))) as Hg3
      by (constructor; [exact Hw|exact Hbuf2|exact Hpool2|exact Hblocks2]).
    rewrite (ahead_drop _ _ Hg3), (ahead_drop _ _ Hg1), Hp. simpl.
    rewrite Heq. do 2 f_equal. lia.
Qed.

Lemma Rewind_to_mark_witness :
  ∃ h0 z0 h1 z1 evs0 h2 z2 evs,
    NewLexerSize [] abc_XYZ 4 = Some (h0, z0)
    ∧ run h0 z0 [OMove 2; OShift; OMove 1] = Some (h1, z1, evs0)
    ∧ run h1 z1 [OPeek 2; OMove 3; OPeekRune 0] = Some (h2, z2, evs)
    ∧ start z1 = 2 ∧ start z2 = 0 ∧ Pos z1 = 1
    ∧ window (Rewind z2 (Pos z1))
    ∧ Pos (Rewind z2 (Pos z1)) = Pos z1
    ∧ ahead h2 (Rewind z2 (Pos z1)) = ahead h1 z1.
Proof.
  eexists _, _, _, _, _, _, _, _.
  split; [vm_compute; reflexivity|].
  split; [vm_compute; reflexivity|].
  split; [vm_compute; reflexivity|].
  do 3 (split; [vm_compute; reflexivity|]).
  eapply (Rewind_to_mark [] abc_XYZ 4 _ _ [OMove 2; OShift; OMove 1] _ _ _
            [OPeek 2; OMove 3; OPeekRune 0]).
  - exact I.
  - vm_compute. reflexivity.
  - check_guards.
  - vm_compute. reflexivity.
  - repeat constructor.
  - check_guards.
  - vm_compute. reflexivity.
Defined.

(** *** Capacity *)

Lemma grown_bounds c q : 0 <= c → 0 <= q → c <= grown c q ∧ q <= grown c q.
Proof. intros Hc Hq. unfold grown. case_decide; lia. Qed.

(** The capacity [read] computes is [grown], as long as the offset is far
    from the limits of [int]. *)
Lemma read_asks_grown cp q :
  0 <= cp <= maxAlloc → 0 <= q < 2 ^ 61 →
  (if decide (2 *i q > cp) then 2 *i cp +i q else cp) = grown cp q.
Proof.
  intros Hc Hq. assert (maxAlloc = 2 ^ 48) as HmA by reflexivity.
  unfold grown. rewrite (mul_small 2 q) by lia.
  case_decide; [|done]. rewrite (mul_small 2 cp) by lia.
  apply add_small. lia.
Qed.

Lemma read_capacity h z p h' z' b :
  good h z → err z = None → len (buf z) <= p < 2 ^ 61 →
  read h z p = Some (h', z', b) →
  grown (cap (buf z)) (p - start z) <= cap (buf z').
Proof.
  intros Hg Herr Hp Hread.
  destruct (read_end _ _ _ _ _ _ Herr Hread)
    as (c & oldBuf & h1 & pool1 & nbuf & dst & src & room & r1 & n & e & buf1
        & _ & Hswap & Hc & _ & _ & _ & _ & Hbuf1 & Hbuf' & _).
  destruct Hg as [(Hs0 & Hsp & Hpl & Hlc) [(Ho & Hl & Hcap) _] _ _].
  assert (maxAlloc = 2 ^ 48) as HmA by reflexivity.
  rewrite (sub_small p (start z)) in Hc by lia.
  rewrite read_asks_grown in Hc by lia.
  apply PoolMore.swap_cap in Hswap.
  apply reslice_Some in Hbuf1 as (_ & _ & ->).
  rewrite Hbuf'. simpl. lia.
Qed.

(** X4. [Peek] never shrinks the buffer. When it refills for an offset that
    is [q] bytes from token-start, the new capacity is at least the old one,
    at least [2 * cap + q] when [q] is more than half the old capacity, and
    (unless the old capacity is 0) more than [q]: the byte asked for has its
    place in the new buffer. *)
Theorem Peek_capacity h src size h0 z0 ops h1 z1 evs n h2 z2 b :
  input_ok h src → NewLexerSize h src size = Some (h0, z0) →
  guarded h0 z0 ops → run h0 z0 ops = Some (h1, z1, evs) →
  0 <= n <= maxAlloc → Peek h1 z1 n = Some (h2, z2, b) →
  cap (buf z1) <= cap (buf z2)
  ∧ (err z1 = None → len (buf z1) <= pos z1 + n →
     grown (cap (buf z1)) (pos z1 + n - start z1) <= cap (buf z2)
     ∧ (0 < cap (buf z1) → pos z2 + n < cap (buf z2))).
Proof.
  intros Hin Hnew Hgd Hrun Hn HP.
  destruct (ahead_content _ _ _ _ _ _ _ _ _ Hin Hnew Hgd Hrun) as [Hg1 _].
  pose proof Hg1 as [(Hs0 & Hsp & Hpl & Hlc) [(Ho & Hl & Hcap) _] _ _].
  assert (maxAlloc = 2 ^ 48) as HmA by reflexivity.
  pose proof (Peek_spec _ _ _ _ _ _ Hg1 HP) as (_ & _ & _ & Hpos).
  unfold Peek in HP. rewrite (add_small n (pos z1)) in HP by lia.
  case_decide as Hge.
  - destruct (err z1) as [e|] eqn:Herr.
    + unfold read in HP. rewrite Herr in HP. rewrite decide_True in HP by done.
      injection HP as <- <- <-. split; [lia|done].
    + assert (len (buf z1) <= n + pos z1 < 2 ^ 61) as Hp by lia.
      pose proof (read_capacity _ _ _ _ _ _ Hg1 Herr Hp HP) as Hcap'.
      destruct (read_shape _ _ _ _ _ _ Hg1 Herr HP) as (nr & _ & _ & Hst & Hps & _).
      pose proof (grown_bounds (cap (buf z1)) (n + pos z1 - start z1)
                    ltac:(lia) ltac:(lia)) as [Hgc Hgq].
      split; [lia|]. intros _ _.
      replace (pos z1 + n - start z1) with (n + pos z1 - start z1) by lia.
      split; [done|]. intros Hpos0.
      unfold grown in Hcap'. case_decide; lia.
  - destruct (index h1 (buf z1) _); simpl in HP; [|done].
    injection HP as <- <- <-. split; [lia|]. intros _ ?. lia.
Qed.

Lemma Peek_capacity_witness :
  ∃ h0 z0 h1 z1 evs h2 z2 b,
    NewLexerSize [] abc_XYZ 4 = Some (h0, z0)
    ∧ run h0 z0 [OMove 1] = Some (h1, z1, evs)
    ∧ Peek h1 z1 3 = Some (h2, z2, b)
    ∧ cap (buf z1) = 4 ∧ cap (buf z2) = 12
    ∧ cap (buf z1) <= cap (buf z2)
    ∧ (err z1 = None → len (buf z1) <= pos z1 + 3 →
       grown (cap (buf z1)) (pos z1 + 3 - start z1) <= cap (buf z2)
       ∧ (0 < cap (buf z1) → pos z2 + 3 < cap (buf z2))).
Proof.
  eexists _, _, _, _, _, _, _, _.
  split; [vm_compute; reflexivity|].
  split; [vm_compute; reflexivity|].
  split; [vm_compute; reflexivity|].
  do 2 (split; [vm_compute; reflexivity|]).
  eapply (Peek_capacity [] abc_XYZ 4 _ _ [OMove 1]).
  - exact I.
  - vm_compute. reflexivity.
  - check_guards.
  - vm_compute. reflexivity.
  - unfold maxAlloc. lia.
  - vm_compute. reflexivity.
Defined.

(** *** When [Peek] returns *)

Lemma reslice_ok s a b :
  0 <= a <= b → b <= cap s →
  reslice s a b = Some (mkSlice (arr s) (off s + a) (b - a) (cap s - a)).
Proof. intros Hab Hb. unfold reslice. by rewrite decide_True by lia. Qed.

Lemma Read_delivered rd h p r1 h1 n e :
  Read rd h p = (r1, h1, n, e) → 0 <= len p →
  n = Z.min (next_chunk rd) (len p).
Proof.
  intros HR Hp. destruct rd as [|[data e0] rest]; simpl in *.
  - injection HR as <- <- <- <-. lia.
  - case_decide; injection HR as <- <- <- <-; lia.
Qed.

Lemma index_backed h s i :
  backed h s → 0 <= i < len s → is_Some (index h s i).
Proof.
  intros [(Ho & Hl & Hc) (a & Ha & Hlen)] Hi. unfold index.
  rewrite decide_True by done. rewrite Ha. simpl.
  apply lookup_lt_is_Some. lia.
Qed.

(** A refill returns when the pool can provide the capacity and the reader
    delivers nothing, or enough to reach the offset asked for. *)
Lemma read_total h z p :
  good h z → err z = None → len (buf z) <= p < 2 ^ 61 →
  grown (cap (buf z)) (p - start z) <= maxAlloc →
  (next_chunk (r z) = 0
   ∨ (p - len (buf z) < next_chunk (r z)
      ∧ (0 < cap (buf z) ∨ p = len (buf z)))) →
  ∃ h' z' b, read h z p = Some (h', z', b).
Proof.
  intros [(Hs0 & Hsp & Hpl & Hlc) Hbuf [l Hwf] Hblocks] Herr Hp Hgrow Hrd.
  pose proof Hbuf as [(Ho & Hl & Hc) _].
  assert (maxAlloc = 2 ^ 48) as HmA by reflexivity.
  pose proof (grown_bounds (cap (buf z)) (p - start z) ltac:(lia) ltac:(lia))
    as [Hgc Hgq].
  assert (0 < cap (buf z) → p - start z < grown (cap (buf z)) (p - start z)) as Hgs.
  { intros ?. unfold grown. case_decide; lia. }
  unfold read. rewrite decide_False by (rewrite Herr; by intros []).
  rewrite (sub_small p (start z)), (sub_small (len (buf z)) (start z)) by lia.
  rewrite read_asks_grown by lia.
  set (q := p - start z) in *. set (d := len (buf z) - start z) in *.
  set (c := grown (cap (buf z)) q) in *.
  rewrite (reslice_ok (buf z) 0 (start z)) by lia. simpl.
  set (oldBuf := mkSlice (arr (buf z)) (off (buf z) + 0) (start z - 0) (cap (buf z) - 0)).
  assert (backed h oldBuf) as Hbold.
  { eapply backed_reslice; [exact Hbuf|]. apply reslice_ok; lia. }
  destruct (PoolFacts.swap_total h (pool z) l oldBuf c Hwf (proj1 Hbold) ltac:(lia))
    as (h1 & pool1 & nbuf & Hswap & Hlen0 & Hcap & _ & _).
  rewrite Hswap. simpl.
  destruct (swap_backed _ _ _ _ _ _ _ Hswap Hblocks Hbold)
    as (_ & _ & Hnb & _).
  pose proof Hnb as [(Hno & Hnl & Hnc) _].
  rewrite (reslice_ok nbuf 0 d) by lia. simpl.
  rewrite (reslice_ok (buf z) (start z) (len (buf z))) by lia. simpl.
  rewrite (reslice_ok nbuf d (cap nbuf)) by lia. simpl.
  match goal with |- context [Read ?rr ?hh ?pp] =>
    destruct (Read rr hh pp) as [[[r1 h3] nr] e] eqn:HR end.
  pose proof (Read_delivered _ _ _ _ _ _ _ HR ltac:(simpl; lia)) as Hnr.
  apply Read_spec in HR as (D & _ & HnD & Hnroom & ->); [|simpl; lia].
  simpl in Hnr, Hnroom.
  rewrite add_small by lia. rewrite (reslice_ok nbuf 0 (d + nr)) by lia. simpl.
  destruct (decide (nr = 0)) as [Hz|Hnz]; [by eexists _, _, _|].
  match goal with |- context [index ?hh ?ss ?ii] =>
    assert (is_Some (index hh ss ii)) as [b Hb] end.
  { apply index_backed.
    - eapply backed_extends; [eapply extends_trans; apply store_extends|].
      eapply backed_reslice; [exact Hnb|]. apply reslice_ok; lia.
    - simpl. destruct Hrd as [Hrd|[Hrd Hcp]]; [lia|].
      destruct Hcp as [Hcp|Hcp]; [specialize (Hgs Hcp)|]; unfold q, d in *; lia. }
  rewrite Hb. simpl. by eexists _, _, _.
Qed.

(** X5. [Peek(n)] returns, without a panic, whenever the byte asked for is
    buffered, or an error is recorded, or the refill can have its capacity
    and the next answer of the reader is empty or reaches the offset asked
    for. In particular [Peek] at the first offset that is not buffered
    always returns. *)
Theorem Peek_returns h src size h0 z0 ops h1 z1 evs n :
  input_ok h src → NewLexerSize h src size = Some (h0, z0) →
  guarded h0 z0 ops → run h0 z0 ops = Some (h1, z1, evs) →
  0 <= n <= maxAlloc →
  (pos z1 + n < len (buf z1)
   ∨ err z1 ≠ None
   ∨ (grown (cap (buf z1)) (pos z1 + n - start z1) <= maxAlloc
      ∧ (next_chunk (r z1) = 0
         ∨ (pos z1 + n - len (buf z1) < next_chunk (r z1)
            ∧ (0 < cap (buf z1) ∨ pos z1 + n = len (buf z1)))))) →
  ∃ h2 z2 b, Peek h1 z1 n = Some (h2, z2, b).
Proof.
  intros Hin Hnew Hgd Hrun Hn Hcase.
  destruct (ahead_content _ _ _ _ _ _ _ _ _ Hin Hnew Hgd Hrun) as [Hg1 _].
  pose proof Hg1 as [(Hs0 & Hsp & Hpl & Hlc) Hbuf _ _].
  pose proof Hbuf as [(Ho & Hl & Hcap) _].
  assert (maxAlloc = 2 ^ 48) as HmA by reflexivity.
  unfold Peek. rewrite (add_small n (pos z1)) by lia.
  case_decide as Hge.
  - destruct (err z1) as [e|] eqn:Herr.
    + unfold read. rewrite Herr. rewrite decide_True by done. by eexists _, _, _.
    + destruct Hcase as [?|[?|[Hgrow Hrd]]]; [lia|done|].
      replace (pos z1 + n) with (n + pos z1) in * by lia.
      apply read_total; try done. lia.
  - destruct (index_backed h1 (buf z1) (n + pos z1) Hbuf ltac:(lia)) as [b Hb].
    rewrite Hb. simpl. by eexists _, _, _.
Qed.

Lemma Peek_returns_witness :
  ∃ h0 z0 h1 z1 evs h2 z2 b,
    NewLexerSize [] abc_XYZ 4 = Some (h0, z0)
    ∧ run h0 z0 [OMove 3] = Some (h1, z1, evs)
    ∧ pos z1 = len (buf z1)
    ∧ Peek h1 z1 0 = Some (h2, z2, b).
Proof.
  eexists _, _, _, _, _.
  assert (∃ h2 z2 b,
            Peek [["a"; "b"; "c"; x00]%byte]
              (mkLexer [(["X"; "Y"; "Z"]%byte, None)] None Pool.empty
                 (mkSlice 0 0 3 4) 0 3 0) 0 = Some (h2, z2, b))
    as (h2 & z2 & b & HP).
  { eapply (Peek_returns [] abc_XYZ 4 _ _ [OMove 3]).
    - exact I.
    - vm_compute. reflexivity.
    - check_guards.
    - vm_compute. reflexivity.
    - unfold maxAlloc. lia.
    - right. right. split; [vm_compute; discriminate|].
      right. split; [vm_compute; reflexivity|]. left. simpl. lia. }
  exists h2, z2, b.
  split; [vm_compute; reflexivity|].
  split; [vm_compute; reflexivity|].
  split; [reflexivity|]. exact HP.
Defined.

(** X6. [NewLexerSize] on a reader that is not in memory returns exactly
    when [make] accepts the size. The lexer it returns has asked the reader
    once: its buffer has the capacity [size] and holds the first answer cut
    at [size] bytes, the cursor and token-start are at 0 and the whole
    stream is ahead. With [size = 0] nothing can be read and an error
    (end-of-stream, if the reader gave none) is recorded at once. *)
Theorem NewLexerSize_streaming h rd size :
  (0 <= size <= maxAlloc →
   ∃ h0 z0,
     NewLexerSize h (Streaming rd) size = Some (h0, z0)
     ∧ start z0 = 0 ∧ pos z0 = 0 ∧ prevStart z0 = 0
     ∧ cap (buf z0) = size
     ∧ len (buf z0) = Z.min (next_chunk rd) size
     ∧ ahead h0 z0 = stream rd
     ∧ (size = 0 → err z0 ≠ None))
  ∧ (¬ 0 <= size <= maxAlloc → NewLexerSize h (Streaming rd) size = None).
Proof.
  split.
  2:{ intros Hsz. unfold NewLexerSize, make. by rewrite decide_False by done. }
  intros Hsz. assert (maxAlloc = 2 ^ 48) as HmA by reflexivity.
  unfold NewLexerSize, make. rewrite decide_True by done. simpl.
  set (h1 := h ++ [replicate (Z.to_nat size) x00]).
  set (z1 := mkLexer rd None Pool.empty (mkSlice (length h) 0 0 size) 0 0 0).
  assert (good h1 z1) as Hg.
  { constructor; simpl.
    - unfold window. simpl. lia.
    - split; [unfold slice_ok; simpl; lia|]. eexists. simpl. split.
      + unfold h1. rewrite lookup_app_r by lia. by rewrite Nat.sub_diag.
      + rewrite length_replicate. lia.
    - exists []. apply PoolFacts.wf_empty.
    - apply Forall_nil_2. }
  assert (Peek h1 z1 0 = read h1 z1 0) as HPeek.
  { unfold Peek. change (pos z1) with 0. change (len (buf z1)) with 0.
    rewrite (add_small 0 0) by lia. by rewrite decide_True by lia. }
  destruct (read_total h1 z1 0 Hg eq_refl) as (h0 & z0 & b & Hread).
  { simpl. lia. }
  { simpl. unfold grown. rewrite decide_False by lia. lia. }
  { simpl. destruct rd as [|[data e] rest]; simpl; [by left|].
    destruct data; simpl; [by left|right]. split; [lia|by right]. }
  rewrite HPeek, Hread. simpl. exists h0, z0. split; [done|].
  destruct (read_inv h1 z1 0 h0 z0 b eq_refl Hread)
    as (? & ? & ? & ? & ? & ? & ? & ? & ? & ? & ? & ?
        & _ & _ & _ & _ & _ & _ & _ & _ & _ & _ & Hstart & Hpos & Hprev & _).
  destruct (read_end h1 z1 0 h0 z0 b eq_refl Hread)
    as (c & oldBuf & h2 & pool1 & nbuf & dst & src & room & r1 & n & e & buf1
        & Hold & Hswap & Hc & _ & _ & Hroom & HR & Hbuf1 & Hbuf' & _ & Hres).
  simpl in *.
  rewrite (sub_small 0 0) in * by lia.
  change (0 - 0) with 0 in *.
  rewrite (mul_small 2 0) in Hc by lia. rewrite decide_False in Hc by lia. subst c.
  apply reslice_Some in Hold as (_ & _ & ->).
  unfold Pool.swap in Hswap. simpl in Hswap.
  rewrite decide_True in Hswap by (simpl; lia). simpl in Hswap.
  rewrite reslice_ok in Hswap by (simpl; lia). simpl in Hswap.
  injection Hswap as <- <- <-. simpl in *.
  apply reslice_Some in Hroom as (_ & _ & ->).
  apply Read_delivered in HR; [|simpl; lia]. simpl in HR.
  assert (0 <= next_chunk rd) as Hnc by (destruct rd as [|[? ?] ?]; simpl; lia).
  rewrite add_small in Hbuf1 by lia.
  apply reslice_Some in Hbuf1 as (_ & _ & ->).
  rewrite Hbuf'. simpl.
  split_and!; [done|lia|done|lia|lia| |].
  - pose proof (Peek_spec _ _ _ _ _ _ Hg (eq_trans HPeek Hread)) as Hcar.
    rewrite (carried_ahead _ _ _ _ Hg Hcar). unfold ahead, view, bytes. simpl.
    rewrite Z.sub_diag. simpl. by destruct (_ !! _).
  - intros ->. destruct Hres as [(_ & _ & ?)|(Hn & _)]; [done|]. lia.
Qed.

Lemma NewLexerSize_streaming_witness :
  ∃ h0 z0,
    NewLexerSize [] (Streaming [(["a"; "b"; "c"; "d"; "e"]%byte, None)]) 4 = Some (h0, z0)
    ∧ start z0 = 0 ∧ pos z0 = 0 ∧ prevStart z0 = 0
    ∧ cap (buf z0) = 4
    ∧ len (buf z0) = Z.min (next_chunk [(["a"; "b"; "c"; "d"; "e"]%byte, None)]) 4
    ∧ ahead h0 z0 = stream [(["a"; "b"; "c"; "d"; "e"]%byte, None)]
    ∧ (4 = 0 → err z0 ≠ None).
Proof.
  apply (proj1 (NewLexerSize_streaming [] [(["a"; "b"; "c"; "d"; "e"]%byte, None)] 4)).
  unfold maxAlloc. lia.
Defined.

(** *** Counting the committed bytes *)

Lemma exec_counts h z o h' z' res :
  good h z → err z ≠ None → o ≠ OShiftLen →
  exec h z o = Some (h', z', res) →
  err z' ≠ None ∧ prevStart z' = prevStart z
  ∧ start z' = start z
               + Z.of_nat (length (concat (map event_bytes (events h z o)))).
Proof.
  intros Hg Herr Ho Hex.
  pose proof Hg as [(Hs0 & Hsp & Hpl & Hlc) Hbuf _ _].
  assert (length (view h (buf z) (start z) (pos z)) = Z.to_nat (pos z - start z))
    as Hlen by (apply length_view; [done|lia|lia]).
  destruct o; simpl in *; try done.
  - destruct (Peek h z n) as [[[h0 z0] c]|] eqn:HP; simpl in Hex; [|done].
    injection Hex as <- <- <-.
    destruct (Peek_sticky _ _ _ _ _ _ Herr HP) as [-> ->]. split_and!; done || lia.
  - destruct (PeekRune h z n) as [[[h0 z0] c]|] eqn:HP; simpl in Hex; [|done].
    injection Hex as <- <- <-.
    destruct (PeekRune_sticky _ _ _ _ _ _ Herr HP) as [-> ->].
    split_and!; done || lia.
  - injection Hex as <- <- <-. simpl. split_and!; done || lia.
  - injection Hex as <- <- <-. split_and!; done || lia.
  - injection Hex as <- <- <-. simpl. split_and!; done || lia.
  - destruct (Lexeme z); simpl in Hex; [|done].
    injection Hex as <- <- <-. split_and!; done || lia.
  - unfold Shift in Hex. unfold Lexeme.
    destruct (reslice (buf z) (start z) (pos z)) as [s|] eqn:Hs; simpl in Hex; [|done].
    injection Hex as <- <- <-.
    apply reslice_Some in Hs as (_ & _ & ->). simpl. rewrite app_nil_r.
    fold (view h (buf z) (start z) (pos z)). rewrite Hlen.
    split_and!; done || lia.
  - injection Hex as <- <- <-. unfold Lexeme, reslice.
    rewrite decide_True by lia. simpl. rewrite app_nil_r.
    fold (view h (buf z) (start z) (pos z)). rewrite Hlen.
    split_and!; done || lia.
  - unfold Free in Hex. destruct (Pool.free _ _); simpl in Hex; [|done].
    injection Hex as <- <- <-. simpl. split_and!; done || lia.
  - injection Hex as <- <- <-. split_and!; done || lia.
Qed.

Lemma run_counts ops : ∀ h z h1 z1 evs,
  good h z → err z ≠ None → Forall (λ o, o ≠ OShiftLen) ops →
  guarded h z ops → run h z ops = Some (h1, z1, evs) →
  good h1 z1 ∧ prevStart z1 = prevStart z
  ∧ start z1 = start z + Z.of_nat (length (concat (map event_bytes evs))).
Proof.
  induction ops as [|o ops IH]; intros h z h1 z1 evs Hg Herr Hno Hgd Hrun;
    simpl in *.
  - injection Hrun as <- <- <-. simpl. split_and!; done || lia.
  - apply Forall_cons in Hno as [Ho Hno]. destruct Hgd as [Hw Hgd].
    destruct (exec h z o) as [[[h' z'] res]|] eqn:Hex; simpl in Hrun; [|done].
    destruct (run h' z' ops) as [[[h2 z2] evs']|] eqn:Hrun'; simpl in Hrun; [|done].
    injection Hrun as <- <- <-.
    destruct (exec_spec _ _ _ _ _ _ Hg Hw Hex) as [Hg' _].
    destruct (exec_counts _ _ _ _ _ _ Hg Herr Ho Hex) as (Herr' & Hp & Hs).
    destruct (IH _ _ _ _ _ Hg' Herr' Hno Hgd Hrun') as (Hg2 & Hp' & Hs').
    rewrite map_app, concat_app, length_app.
    split_and!; [done|congruence|lia].
Qed.

(** X9. As long as the buffer is not refilled, [ShiftLen] is exact: on a
    lexer that has recorded the end of its source (one built on bytes in
    memory has from the start), and after calls that kept the cursor in the
    buffered window, [ShiftLen] answers the number of bytes committed by
    [Shift] and [Skip] since the [ShiftLen] before. *)
Theorem ShiftLen_counts h src size h0 z0 ops0 h1 z1 evs0 ops h2 z2 evs :
  input_ok h src → NewLexerSize h src size = Some (h0, z0) →
  guarded h0 z0 ops0 → run h0 z0 ops0 = Some (h1, z1, evs0) →
  err z1 ≠ None →
  Forall (λ o, o ≠ OShiftLen) ops →
  guarded h1 (ShiftLen z1).1 ops →
  run h1 (ShiftLen z1).1 ops = Some (h2, z2, evs) →
  (ShiftLen z2).2 = Z.of_nat (length (concat (map event_bytes evs))).
Proof.
  intros Hin Hnew Hgd0 Hrun0 Herr Hno Hgd Hrun.
  destruct (ahead_content _ _ _ _ _ _ _ _ _ Hin Hnew Hgd0 Hrun0) as [Hg1 _].
  pose proof Hg1 as [Hw1 Hbuf1 Hpool1 Hblocks1].
  assert (good h1 (ShiftLen z1).1) as Hg1'
    by (constructor; [exact Hw1|exact Hbuf1|exact Hpool1|exact Hblocks1]).
  destruct (run_counts _ _ _ _ _ _ Hg1' Herr Hno Hgd Hrun) as (Hg2 & Hp & Hs).
  pose proof Hg2 as [(Hs0 & Hsp & Hpl & Hlc) [(Ho & Hl & Hc) _] _ _].
  assert (maxAlloc = 2 ^ 48) as HmA by reflexivity.
  destruct Hw1 as (Hs1 & _).
  simpl in Hp, Hs. unfold ShiftLen. simpl. rewrite Hp.
  rewrite sub_small by lia. lia.
Qed.

Lemma ShiftLen_counts_witness :
  ∃ h0 z0 h1 z1 evs0 h2 z2 evs,
    NewLexerSize euro_heap euro 0 = Some (h0, z0)
    ∧ run h0 z0 [OMove 1; OShift] = Some (h1, z1, evs0)
    ∧ run h1 (ShiftLen z1).1 [OMove 1; OSkip; OPeek 0; OMove 1; OShift]
      = Some (h2, z2, evs)
    ∧ (ShiftLen z1).2 = 1
    ∧ (ShiftLen z2).2 = 2
    ∧ (ShiftLen z2).2 = Z.of_nat (length (concat (map event_bytes evs))).
Proof.
  eexists _, _, _, _, _, _, _, _.
  split; [vm_compute; reflexivity|].
  split; [vm_compute; reflexivity|].
  split; [vm_compute; reflexivity|].
  do 2 (split; [vm_compute; reflexivity|]).
  eapply (ShiftLen_counts euro_heap euro 0 _ _ [OMove 1; OShift] _ _ _
            [OMove 1; OSkip; OPeek 0; OMove 1; OShift]).
  - split; [unfold slice_ok; simpl; unfold maxAlloc; lia|].
    eexists. split; [reflexivity|simpl; lia].
  - vm_compute. reflexivity.
  - check_guards.
  - vm_compute. reflexivity.
  - discriminate.
  - repeat constructor; discriminate.
  - check_guards.
  - vm_compute. reflexivity.
Defined.

(** *** What is returned stays *)

Lemma blit_same (a : list byte) i k : blit a i (take k (drop i a)) = a.
Proof.
  unfold blit. rewrite <- drop_drop.
  assert (∀ l : list byte, take k l ++ drop (length (take k l)) l = l) as Hl.
  { intros l. rewrite length_take. destruct (decide (k ≤ length l)%nat).
    - rewrite Nat.min_l by lia. apply take_drop.
    - rewrite Nat.min_r by lia. rewrite take_ge by lia.
      rewrite drop_all. apply app_nil_r. }
  rewrite Hl, take_drop. by apply take_ge.
Qed.

(** Writing to a slice the bytes it shows changes nothing. *)
Lemma store_same h t bs a k :
  h !! arr t = Some a → bs = take k (drop (Z.to_nat (off t)) a) →
  store h t bs = h.
Proof.
  intros Ha ->. unfold store. rewrite Ha, blit_same. by apply list_insert_id.
Qed.

Lemma bytes_store_other h t bs s :
  arr s ≠ arr t → bytes (store h t bs) s = bytes h s.
Proof.
  intros Hne. unfold store, bytes. destruct (h !! arr t); [|done].
  by rewrite list_lookup_insert_ne.
Qed.

Lemma bytes_store_below h t bs s a :
  h !! arr t = Some a → arr s = arr t → 0 <= off s → 0 <= len s →
  off s + len s <= off t → (Z.to_nat (off t) + length bs ≤ length a)%nat →
  bytes (store h t bs) s = bytes h s.
Proof.
  intros Ha Hs Ho Hl Hend Hfit. unfold store, bytes. rewrite Ha, Hs.
  rewrite list_lookup_insert_eq by by eapply lookup_lt_Some.
  rewrite Ha. apply list_eq. intros j.
  destruct (decide (j < Z.to_nat (len s))%nat) as [Hj|Hj].
  - rewrite !lookup_take_lt by done. rewrite !lookup_drop.
    rewrite blit_lookup by done. by rewrite decide_False by lia.
  - by rewrite !lookup_take_ge by lia.
Qed.

Lemma kept_same h z z' : pool z' = pool z → buf z' = buf z → kept h z h z'.
Proof.
  intros Hp Hb Hun. rewrite Hp. split; [done|]. intros s _ Hs.
  unfold settled in *. by rewrite Hb.
Qed.

Lemma kept_refl h z : kept h z h z.
Proof. by apply kept_same. Qed.

Lemma kept_trans h1 z1 h2 z2 h3 z3 :
  extends h1 h2 → kept h1 z1 h2 z2 → kept h2 z2 h3 z3 → kept h1 z1 h3 z3.
Proof.
  intros Hext K12 K23 Hun. destruct (K12 Hun) as [Hun2 Hs2].
  destruct (K23 Hun2) as [Hun3 Hs3]. split; [done|]. intros s Hb Hs.
  destruct (Hs2 s Hb Hs) as [Hset2 Heq2].
  destruct (Hs3 s (backed_extends _ _ _ Hext Hb) Hset2) as [Hset3 Heq3].
  split; [done|congruence].
Qed.

(** A refill on a pool nothing was reported to writes only where no slice
    can be looking: into a new array, or behind the buffered bytes. *)
Lemma read_kept h z p h' z' b :
  good h z → read h z p = Some (h', z', b) → kept h z h' z'.
Proof.
  intros Hgood Hread Hun.
  destruct (err z) as [e0|] eqn:Herr.
  { unfold read in Hread. rewrite Herr in Hread.
    rewrite decide_True in Hread by done. injection Hread as <- <- <-.
    split; [done|]. by intros s _ Hs. }
  destruct (read_inv _ _ _ _ _ _ Herr Hread)
    as (c & oldBuf & h1 & pool1 & nbuf & dst & src & room & r1 & n & e & buf1
        & Hold & Hswap & Hdst & Hsrc & Hroom & HR & Hbuf1
        & Hr' & Hpool' & Hbuf' & Hstart' & Hpos' & Hprev' & _ & _).
  destruct Hgood as [(Hs0 & Hsp & Hpl & Hlc) Hbuf [l Hwf] Hblocks].
  pose proof Hbuf as [(Ho & Hl & Hc) (a & Ha & Hlen)].
  assert (maxAlloc = 2 ^ 48) as HmA by reflexivity.
  rewrite (sub_small (len (buf z)) (start z)) in * by lia.
  set (d := len (buf z) - start z) in *.
  assert (backed h oldBuf) as Hbold by by eapply backed_reslice.
  destruct (swap_backed _ _ _ _ _ _ _ Hswap Hblocks Hbold)
    as (_ & _ & Hnb & Hlen0).
  assert (0 <= len oldBuf) as Hlo by (destruct Hbold as [(_ & ? & _) _]; lia).
  pose proof (PoolMore.swap_untouched _ _ _ _ _ _ _ Hun Hlo Hswap) as Hpath.
  apply reslice_Some in Hold as (_ & _ & ->).
  pose proof Hnb as [(Hno & Hnl & Hnc) (a1 & Ha1 & Hlen1)].
  apply reslice_Some in Hdst as (Hd0 & Hd1 & ->).
  apply reslice_Some in Hsrc as (_ & _ & ->).
  apply reslice_Some in Hroom as (_ & _ & ->).
  destruct (Read_spec _ _ _ _ _ _ _ HR) as (D & _ & Hn & Hnroom & ->);
    [simpl; lia|].
  simpl in Hnroom. rewrite add_small in Hbuf1 by lia.
  apply reslice_Some in Hbuf1 as (_ & _ & Hbuf1).
  unfold copy. simpl.
  destruct Hpath as [(-> & -> & Hst & Harr & Hoff)|(-> & Hun' & Harr)];
    simpl in *.
  - assert (start z = 0) as Hz by lia.
    rewrite Hpool'. split; [done|]. intros s Hb Hs.
    rewrite Harr, Ha in Ha1. injection Ha1 as <-.
    split.
    + unfold settled in *. rewrite Hbuf', Hbuf1. simpl. rewrite Harr.
      destruct Hs as [Hs|Hs]; [by left|right]. lia.
    + destruct (decide (arr s = arr (buf z))) as [Heq|Hne].
      2:{ rewrite !bytes_store_other by (simpl; congruence). done. }
      destruct Hs as [Hs|Hs]; [done|].
      destruct Hb as [(Hso & Hsl & _) _].
      rewrite (store_same h _ _ a (Z.to_nat (Z.min (d - 0) (len (buf z) - start z)))).
      * eapply (bytes_store_below _ _ _ _ a); simpl; [congruence|congruence|lia..].
      * simpl. congruence.
      * unfold bytes. simpl. rewrite Ha, take_take. simpl.
        rewrite Hoff, Hz. f_equal; [lia|]. do 2 f_equal. lia.
  - rewrite Hpool'. split; [done|]. intros s Hb Hs.
    assert (arr s < length h)%nat as Hlt.
    { destruct Hb as [_ (a' & Ha' & _)]. by eapply lookup_lt_Some. }
    split.
    + unfold settled. rewrite Hbuf', Hbuf1. left. simpl. lia.
    + rewrite !bytes_store_other by (simpl; lia). by apply bytes_prefix.
Qed.

Lemma Peek_kept h z n h' z' b :
  good h z → Peek h z n = Some (h', z', b) → kept h z h' z'.
Proof.
  intros Hg. unfold Peek. case_decide.
  - by apply read_kept.
  - destruct (index h (buf z) _); simpl; [|done].
    intros [= <- <- <-]. apply kept_refl.
Qed.

Lemma exec_kept h z o h' z' res :
  good h z → holding o → exec h z o = Some (h', z', res) → kept h z h' z'.
Proof.
  intros Hg Ho Hex. destruct o; simpl in *; try done.
  - destruct (Peek h z n) as [[[h0 z0] c]|] eqn:HP; simpl in Hex; [|done].
    injection Hex as <- <- <-. by eapply Peek_kept.
  - destruct (PeekRune h z n) as [[[h0 z0] c]|] eqn:HP; simpl in Hex; [|done].
    injection Hex as <- <- <-.
    apply (PeekRune_lift (λ h z h' z', extends h h' ∧ kept h z h' z'))
      with (n := n) (cn := c); [| | |done|done].
    + intros. split; [apply extends_refl|apply kept_refl].
    + intros ?????? [? ?] [? ?]. split; [by eapply extends_trans|].
      by eapply kept_trans.
    + intros ?????? Hg' HP'. split; [|by eapply Peek_kept].
      by destruct (Peek_spec _ _ _ _ _ _ Hg' HP') as (_ & ? & _).
  - injection Hex as <- <- <-. by apply kept_same.
  - injection Hex as <- <- <-. by apply kept_same.
  - injection Hex as <- <- <-. by apply kept_same.
  - destruct (Lexeme z); simpl in Hex; [|done].
    injection Hex as <- <- <-. by apply kept_same.
  - unfold Shift in Hex. destruct (reslice _ _ _); simpl in Hex; [|done].
    injection Hex as <- <- <-. by apply kept_same.
  - injection Hex as <- <- <-. by apply kept_same.
  - injection Hex as <- <- <-. by apply kept_same.
  - injection Hex as <- <- <-. by apply kept_same.
Qed.

Lemma exec_extends h z o h' z' res :
  good h z → exec h z o = Some (h', z', res) → extends h h'.
Proof.
  intros Hg Hex. destruct o; simpl in *;
    try (injection Hex as <- <- <-; apply extends_refl).
  - destruct (Peek h z n) as [[[h0 z0] c]|] eqn:HP; simpl in Hex; [|done].
    injection Hex as <- <- <-.
    by destruct (Peek_spec _ _ _ _ _ _ Hg HP) as (_ & ? & _).
  - destruct (PeekRune h z n) as [[[h0 z0] c]|] eqn:HP; simpl in Hex; [|done].
    injection Hex as <- <- <-.
    by destruct (PeekRune_spec _ _ _ _ _ _ Hg HP) as (_ & ? & _).
  - destruct (Lexeme z); simpl in Hex; [|done].
    injection Hex as <- <- <-. apply extends_refl.
  - destruct (Shift z) as [[? ?]|]; simpl in Hex; [|done].
    injection Hex as <- <- <-. apply extends_refl.
  - destruct (Free z n); simpl in Hex; [|done].
    injection Hex as <- <- <-. apply extends_refl.
Qed.

Lemma run_kept ops : ∀ h z h1 z1 evs,
  good h z → Forall holding ops → guarded h z ops →
  run h z ops = Some (h1, z1, evs) → good h1 z1 ∧ kept h z h1 z1.
Proof.
  induction ops as [|o ops IH]; intros h z h1 z1 evs Hg Hho Hgd Hrun; simpl in *.
  - injection Hrun as <- <- <-. split; [done|apply kept_refl].
  - apply Forall_cons in Hho as [Ho Hho]. destruct Hgd as [Hw Hgd].
    destruct (exec h z o) as [[[h' z'] res]|] eqn:Hex; simpl in Hrun; [|done].
    destruct (run h' z' ops) as [[[h2 z2] evs']|] eqn:Hrun'; simpl in Hrun; [|done].
    injection Hrun as <- <- <-.
    destruct (exec_spec _ _ _ _ _ _ Hg Hw Hex) as [Hg' _].
    destruct (IH _ _ _ _ _ Hg' Hho Hgd Hrun') as [Hg2 K2].
    split; [done|]. eapply kept_trans; [|by eapply exec_kept|done].
    by eapply exec_extends.
Qed.

Lemma NewLexerSize_untouched h src size h0 z0 :
  NewLexerSize h src size = Some (h0, z0) → untouched (pool z0).
Proof.
  assert (untouched Pool.empty) as He by (split; [done|constructor]).
  intros Hnew. destruct src as [b|rd]; simpl in *.
  - by injection Hnew as <- <-.
  - destruct (make h size) as [[h' b]|] eqn:Hmk; simpl in Hnew; [|done].
    destruct (Peek h' _ 0) as [[[h1 z1] c]|] eqn:HP; simpl in Hnew; [|done].
    injection Hnew as <- <-.
    unfold make in Hmk. case_decide as Hsz; [|done]. injection Hmk as <- <-.
    eapply Peek_kept in HP; [by destruct (HP He)|].
    constructor; simpl.
    + unfold window. simpl. lia.
    + split; [unfold slice_ok; simpl; lia|]. eexists. simpl. split.
      * rewrite lookup_app_r by lia. by rewrite Nat.sub_diag.
      * rewrite length_replicate. lia.
    + exists []. apply PoolFacts.wf_empty.
    + apply Forall_nil_2.
Qed.

(** X10. The lexer keeps data in memory until [Free]: as long as [Free] is
    not called, the bytes of a slice that [Lexeme] or [Shift] has returned
    do not change, whatever calls follow, refills of the buffer included. *)
Theorem returned_bytes_stay
    h src size h0 z0 ops0 h1 z1 evs0 o h1' z1' s ops h2 z2 evs :
  input_ok h src → NewLexerSize h src size = Some (h0, z0) →
  Forall holding ops0 → guarded h0 z0 ops0 →
  run h0 z0 ops0 = Some (h1, z1, evs0) →
  in_window z1 o → exec h1 z1 o = Some (h1', z1', RSlice s) →
  Forall holding ops → guarded h1' z1' ops →
  run h1' z1' ops = Some (h2, z2, evs) →
  bytes h2 s = bytes h1' s.
Proof.
  intros Hin Hnew Hho0 Hgd0 Hrun0 Hw Hex Hho Hgd Hrun.
  destruct (NewLexerSize_spec _ _ _ _ _ Hin Hnew) as [Hg0 _].
  pose proof (NewLexerSize_untouched _ _ _ _ _ Hnew) as Hun0.
  destruct (run_kept _ _ _ _ _ _ Hg0 Hho0 Hgd0 Hrun0) as [Hg1 K1].
  destruct (K1 Hun0) as [Hun1 _].
  destruct (exec_spec _ _ _ _ _ _ Hg1 Hw Hex) as [Hg1' _].
  destruct (run_kept _ _ _ _ _ _ Hg1' Hho Hgd Hrun) as [Hg2 K2].
  pose proof Hg1 as [(Hs0 & Hsp & Hpl & Hlc) Hbuf1 _ _].
  assert (h1' = h1 ∧ untouched (pool z1') ∧ buf z1' = buf z1
          ∧ reslice (buf z1) (start z1) (pos z1) = Some s)
    as (-> & Hun1' & Hb & Hs).
  { destruct o; simpl in Hex; try done.
    - destruct (Peek h1 z1 n) as [[[? ?] ?]|]; simpl in Hex; done.
    - destruct (PeekRune h1 z1 n) as [[[? ?] ?]|]; simpl in Hex; done.
    - unfold Lexeme in Hex. destruct (reslice _ _ _) eqn:Hs; simpl in Hex; [|done].
      by injection Hex as <- <- <-.
    - unfold Shift in Hex. destruct (reslice _ _ _) eqn:Hs; simpl in Hex; [|done].
      by injection Hex as <- <- <-.
    - destruct (Free z1 n); simpl in Hex; done. }
  destruct (K2 Hun1') as [_ Hkeep].
  apply (Hkeep s).
  - by eapply backed_reslice.
  - apply reslice_Some in Hs as (_ & _ & ->). right. rewrite Hb. simpl. lia.
Qed.

Lemma returned_bytes_stay_witness :
  ∃ h0 z0 h1 z1 evs0 z1' s h2 z2 evs,
    NewLexerSize [] abc_XYZ 4 = Some (h0, z0)
    ∧ run h0 z0 [OMove 2] = Some (h1, z1, evs0)
    ∧ exec h1 z1 OShift = Some (h1, z1', RSlice s)
    ∧ run h1 z1' [OMove 1; OPeek 2; OMove 3; OShift] = Some (h2, z2, evs)
    ∧ arr (buf z2) ≠ arr (buf z1)
    ∧ bytes h1 s = ["a"; "b"]%byte
    ∧ bytes h2 s = bytes h1 s.
Proof.
  eexists _, _, _, _, _, _, _, _, _, _.
  split; [vm_compute; reflexivity|].
  split; [vm_compute; reflexivity|].
  split; [vm_compute; reflexivity|].
  split; [vm_compute; reflexivity|].
  split; [vm_compute; discriminate|].
  split; [vm_compute; reflexivity|].
  eapply (returned_bytes_stay [] abc_XYZ 4 _ _ [OMove 2] _ _ _ OShift _ _ _
            [OMove 1; OPeek 2; OMove 3; OShift]).
  - exact I.
  - vm_compute. reflexivity.
  - repeat constructor.
  - check_guards.
  - vm_compute. reflexivity.
  - exact I.
  - vm_compute. reflexivity.
  - repeat constructor.
  - check_guards.
  - vm_compute. reflexivity.
Defined.

(** *** End of stream *)

Lemma grown_room c q d :
  0 < c → 0 <= d <= q → d <= c → c <= grown c q ∧ d < grown c q.
Proof. intros Hc Hd Hdc. unfold grown. case_decide; lia. Qed.

Lemma Read_orderly rd h p r1 h1 n e :
  orderly rd → 0 < len p → Read rd h p = (r1, h1, n, e) →
  orderly r1 ∧ (e = Some EOF → stream r1 = []) ∧ (n = 0 → e ≠ None).
Proof.
  intros Hord Hp HR. destruct rd as [|[data e0] rest]; simpl in *.
  - injection HR as <- <- <- <-. done.
  - destruct Hord as (Hne & Heof & Hrest). case_decide as Hfit.
    + injection HR as <- <- <- <-. split_and!; [done|done|].
      intros Hn. destruct Hne as [Hne|Hne]; [|done].
      destruct data; [done|simpl in Hn; lia].
    + injection HR as <- <- <- <-. split_and!; [|done|lia].
      simpl. split_and!; [|done|done]. left. intros Hnil.
      apply (f_equal length) in Hnil. rewrite length_drop in Hnil.
      simpl in Hnil. lia.
Qed.

Lemma read_faithful h z p h' z' b :
  good h z → faithful z → len (buf z) <= p < 2 ^ 61 →
  read h z p = Some (h', z', b) → faithful z'.
Proof.
  intros Hg (Heof & Hord & Hcap) Hp Hread.
  destruct (err z) as [e0|] eqn:Herr.
  { unfold read in Hread. rewrite Herr in Hread.
    rewrite decide_True in Hread by done. injection Hread as <- <- <-.
    unfold faithful. by rewrite Herr. }
  specialize (Hcap eq_refl).
  pose proof (read_capacity _ _ _ _ _ _ Hg Herr Hp Hread) as Hgrow.
  destruct (read_inv _ _ _ _ _ _ Herr Hread)
    as (c & oldBuf & h1 & pool1 & nbuf & dst & src & room & r1 & n & e & buf1
        & Hold & Hswap & Hdst & Hsrc & Hroom & HR & Hbuf1
        & Hr' & Hpool' & Hbuf' & Hstart' & Hpos' & Hprev' & Herr' & _).
  pose proof Hg as [(Hs0 & Hsp & Hpl & Hlc) [(Ho & Hl & Hc) _] _ _].
  assert (maxAlloc = 2 ^ 48) as HmA by reflexivity.
  rewrite (sub_small (len (buf z)) (start z)) in * by lia.
  set (d := len (buf z) - start z) in *.
  apply reslice_Some in Hroom as (Hr0 & Hr1 & ->).
  apply reslice_Some in Hbuf1 as (_ & _ & Hbuf1).
  assert (cap (buf z') = cap nbuf) as Hcn by (rewrite Hbuf', Hbuf1; simpl; lia).
  destruct (grown_room (cap (buf z)) (p - start z) d) as [Hge Hgt]; [lia..|].
  pose proof (λ Hp, Read_orderly _ _ _ _ _ _ _ Hord Hp HR) as Hro.
  simpl in Hro. destruct Hro as (Hord1 & Heof1 & Hn0); [lia|].
  assert (err z' = e) as He.
  { destruct Herr' as [?|(Hn & He & _)]; [done|]. by destruct (Hn0 Hn). }
  unfold faithful. rewrite Hr', He. split_and!; [done|done|intros; lia].
Qed.

Lemma Peek_faithful h z n h' z' b :
  good h z → faithful z → - 2 ^ 63 <= n < 2 ^ 60 + 4 →
  Peek h z n = Some (h', z', b) → faithful z'.
Proof.
  intros Hg Hf Hn. unfold Peek.
  pose proof Hg as [(Hs0 & Hsp & Hpl & Hlc) [(Ho & Hl & Hc) _] _ _].
  assert (maxAlloc = 2 ^ 48) as HmA by reflexivity.
  rewrite add_small by lia. case_decide.
  - apply read_faithful; [done|done|lia].
  - destruct (index h (buf z) _); simpl; [|done]. by intros [= <- <- <-].
Qed.

Lemma PeekRune_faithful h z n h' z' cn :
  good h z → faithful z → - 2 ^ 63 <= n < 2 ^ 60 →
  PeekRune h z n = Some (h', z', cn) → faithful z'.
Proof.
  intros Hg Hf Hn. unfold PeekRune.
  rewrite !add_small by lia.
  destruct (Peek h z n) as [[[h0 z0] c]|] eqn:HP0; simpl; [|done].
  pose proof (Peek_faithful h z n _ _ _ Hg Hf ltac:(lia) HP0) as Hf0.
  pose proof (Peek_spec _ _ _ _ _ _ Hg HP0) as [Hg0 _].
  case_decide; [by intros [= <- <- <-]|].
  destruct (Peek h0 z0 (n + 1)) as [[[h1 z1] c1]|] eqn:HP1.
  2:{ by repeat case_decide. }
  pose proof (Peek_faithful h0 z0 (n + 1) _ _ _ Hg0 Hf0 ltac:(lia) HP1) as Hf1.
  pose proof (Peek_spec _ _ _ _ _ _ Hg0 HP1) as [Hg1 _].
  simpl. case_decide; [by intros [= <- <- <-]|].
  destruct (Peek h1 z1 (n + 2)) as [[[h2 z2] c2]|] eqn:HP2.
  2:{ by repeat case_decide. }
  pose proof (Peek_faithful h1 z1 (n + 2) _ _ _ Hg1 Hf1 ltac:(lia) HP2) as Hf2.
  pose proof (Peek_spec _ _ _ _ _ _ Hg1 HP2) as [Hg2 _].
  simpl. case_decide; [by intros [= <- <- <-]|].
  destruct (Peek h2 z2 (n + 3)) as [[[h3 z3] c3]|] eqn:HP3; simpl; [|done].
  pose proof (Peek_faithful h2 z2 (n + 3) _ _ _ Hg2 Hf2 ltac:(lia) HP3) as Hf3.
  by intros [= <- <- <-].
Qed.

Lemma exec_faithful h z o h' z' res :
  good h z → faithful z → modest o → exec h z o = Some (h', z', res) →
  faithful z'.
Proof.
  intros Hg Hf Hm Hex. destruct o; simpl in *.
  - destruct (Peek h z n) as [[[h0 z0] c]|] eqn:HP; simpl in Hex; [|done].
    injection Hex as <- <- <-. eapply Peek_faithful; [done|done| |done]. lia.
  - destruct (PeekRune h z n) as [[[h0 z0] c]|] eqn:HP; simpl in Hex; [|done].
    injection Hex as <- <- <-. by eapply PeekRune_faithful.
  - by injection Hex as <- <- <-.
  - by injection Hex as <- <- <-.
  - by injection Hex as <- <- <-.
  - destruct (Lexeme z); simpl in Hex; [|done]. by injection Hex as <- <- <-.
  - unfold Shift in Hex. destruct (reslice _ _ _); simpl in Hex; [|done].
    by injection Hex as <- <- <-.
  - by injection Hex as <- <- <-.
  - by injection Hex as <- <- <-.
  - unfold Free in Hex. destruct (Pool.free _ _); simpl in Hex; [|done].
    by injection Hex as <- <- <-.
  - by injection Hex as <- <- <-.
Qed.

Lemma run_faithful ops : ∀ h z h1 z1 evs,
  good h z → faithful z → Forall modest ops → guarded h z ops →
  run h z ops = Some (h1, z1, evs) → faithful z1.
Proof.
  induction ops as [|o ops IH]; intros h z h1 z1 evs Hg Hf Hm Hgd Hrun;
    simpl in *.
  - by injection Hrun as <- <- <-.
  - apply Forall_cons in Hm as [Ho Hm]. destruct Hgd as [Hw Hgd].
    destruct (exec h z o) as [[[h' z'] res]|] eqn:Hex; simpl in Hrun; [|done].
    destruct (run h' z' ops) as [[[h2 z2] evs']|] eqn:Hrun'; simpl in Hrun; [|done].
    injection Hrun as <- <- <-.
    destruct (exec_spec _ _ _ _ _ _ Hg Hw Hex) as [Hg' _].
    apply (IH h' z' h2 z2 evs' Hg'); [|done|done|done].
    exact (exec_faithful _ _ _ _ _ _ Hg Hf Ho Hex).
Qed.

Lemma NewLexerSize_faithful h src size h0 z0 :
  trusted src size → NewLexerSize h src size = Some (h0, z0) → faithful z0.
Proof.
  intros Htr Hnew. destruct src as [b|rd]; simpl in *.
  - injection Hnew as <- <-. unfold faithful. simpl. done.
  - destruct Htr as [Hsz Hord].
    destruct (make h size) as [[h' b]|] eqn:Hmk; simpl in Hnew; [|done].
    destruct (Peek h' _ 0) as [[[h1 z1] c]|] eqn:HP; simpl in Hnew; [|done].
    injection Hnew as <- <-.
    unfold make in Hmk. case_decide as Hsz'; [|done]. injection Hmk as <- <-.
    eapply Peek_faithful in HP; [done| | |lia].
    + constructor; simpl.
      * unfold window. simpl. lia.
      * split; [unfold slice_ok; simpl; lia|]. eexists. simpl. split.
        -- rewrite lookup_app_r by lia. by rewrite Nat.sub_diag.
        -- rewrite length_replicate. lia.
      * exists []. apply PoolFacts.wf_empty.
      * apply Forall_nil_2.
    + unfold faithful. simpl. done.
Qed.

(** X11. End-of-stream is reported at the end only. On bytes in memory, or
    on a reader that keeps to its contract with a buffer size that is not
    zero, and with peeks at offsets far from overflow: when [Err] answers
    end-of-stream the cursor is at the end of the content of the source. *)
Theorem Err_EOF_at_end h src size h0 z0 ops h1 z1 evs :
  input_ok h src → trusted src size →
  NewLexerSize h src size = Some (h0, z0) →
  Forall modest ops → guarded h0 z0 ops →
  run h0 z0 ops = Some (h1, z1, evs) →
  Err z1 = Some EOF →
  cursor_offset evs z1 = length (content h src).
Proof.
  intros Hin Htr Hnew Hm Hgd Hrun HErr.
  destruct (NewLexerSize_spec _ _ _ _ _ Hin Hnew) as [Hg0 Hc0].
  pose proof (NewLexerSize_faithful _ _ _ _ _ Htr Hnew) as Hf0.
  destruct (run_spec _ _ _ _ _ _ Hg0 Hgd Hrun) as [Hg1 Heq].
  destruct (run_faithful _ _ _ _ _ _ Hg0 Hf0 Hm Hgd Hrun) as (Heof & _ & _).
  unfold Err in HErr. case_decide as Hc; [done|].
  pose proof Hg1 as [(Hs0 & Hsp & Hpl & Hlc) Hbuf _ _].
  assert (pos z1 = len (buf z1)) as Hend.
  { destruct (decide (pos z1 < len (buf z1))); [|lia]. by destruct Hc. }
  rewrite Hc0, Heq, (Heof HErr), app_nil_r, length_app.
  unfold cursor_offset. f_equal.
  rewrite length_view by (done || lia). by rewrite Hend.
Qed.

Lemma Err_EOF_at_end_witness :
  ∃ h0 z0 h1 z1 evs,
    NewLexerSize [] abc_XYZ 4 = Some (h0, z0)
    ∧ run h0 z0 [OMove 3; OPeek 0; OMove 3; OPeek 0] = Some (h1, z1, evs)
    ∧ Err z0 = None
    ∧ Err z1 = Some EOF
    ∧ cursor_offset evs z1 = length (content [] abc_XYZ).
Proof.
  eexists _, _, _, _, _.
  split; [vm_compute; reflexivity|].
  split; [vm_compute; reflexivity|].
  split; [reflexivity|].
  split; [reflexivity|].
  eapply (Err_EOF_at_end [] abc_XYZ 4 _ _ [OMove 3; OPeek 0; OMove 3; OPeek 0]).
  - exact I.
  - split; [lia|]. simpl. split_and!; (by left) || done.
  - vm_compute. reflexivity.
  - repeat constructor; simpl; lia.
  - check_guards.
  - vm_compute. reflexivity.
  - reflexivity.
Defined.

(** *** What is shifted stays until it is freed *)

Lemma arrays_in_heap h z x : good h z → x ∈ arrays z → (x < length h)%nat.
Proof.
  intros [_ [_ (a & Ha & _)] _ Hblocks] Hx. unfold arrays in Hx.
  apply elem_of_cons in Hx as [->|Hx]; [by eapply lookup_lt_Some|].
  apply list_elem_of_fmap in Hx as (sl & -> & Hsl).
  apply list_elem_of_fmap in Hsl as (b & -> & Hb).
  unfold blocks_backed in Hblocks. rewrite Forall_forall in Hblocks.
  destruct (Hblocks b Hb) as [_ (a' & Ha' & _)]. by eapply lookup_lt_Some.
Qed.

Lemma drained_snoc_le pl l s k :
  (k ≤ length l)%nat → drained pl (l ++ [s]) k = drained pl l k.
Proof. intros Hk. unfold drained. by rewrite take_app_le. Qed.

Lemma owned_move z z' F F' C C' :
  pool z' = pool z → buf z' = buf z → F' = F →
  C' - start z' = C - start z → owned z F C → owned z' F' C'.
Proof.
  intros Hp Hb -> Hs [Ha Hpos HF HB].
  assert (base z' C' = base z C) as Hbase by (unfold base; rewrite Hp; lia).
  constructor.
  - unfold arrays. by rewrite Hp, Hb.
  - by rewrite Hp, Hbase.
  - done.
  - by rewrite Hbase.
Qed.

Lemma lodged_move h z z' C C' s t bs :
  pool z' = pool z → buf z' = buf z →
  C' - start z' = C - start z → C <= C' →
  lodged h z C s t bs → lodged h z' C' s t bs.
Proof.
  intros Hp Hb Hs Hle (Hbs & Hloc).
  assert (base z' C' = base z C) as Hbase by (unfold base; rewrite Hp; lia).
  split; [done|]. destruct Hloc as [(Ha & Ht)|(k & i & b & Hk & Hi & Ha & Ht)].
  - left. rewrite Hb. split; [done|lia].
  - right. exists k, i, b. rewrite Hp, Hbase. done.
Qed.

Lemma Free_owned h z n z' F C :
  good h z → owned z F C → 0 <= n → F + n < 2 ^ 62 → C < 2 ^ 62 →
  Free z n = Some z' →
  owned z' (F + n) C
  ∧ ∀ s t bs, F + n <= t → lodged h z C s t bs → lodged h z' C s t bs.
Proof.
  intros Hg [Ha Hpos HF HB] Hn HFn HC HFree.
  unfold Free in HFree.
  destruct (Pool.free (pool z) n) as [p1|] eqn:Hfree; simpl in HFree; [|done].
  injection HFree as <-.
  destruct Hg as [(Hs0 & _) _ [l Hwf] _].
  pose proof (PoolFacts.wf_chain _ _ Hwf) as Hch.
  destruct (PoolFacts.free_spec _ l n Hwf)
    as (k & p1' & Hfree' & Hk & Hwf' & Hpos' & Hlook & Hdr & Hstop & Hlen).
  rewrite Hfree in Hfree'. injection Hfree' as <-.
  pose proof (PoolFacts.wf_chain _ _ Hwf') as Hch'.
  assert (∀ i, block_len (Pool.pool p1) i = block_len (Pool.pool (pool z)) i)
    as Hbl by by apply (PoolFacts.retired_block_len _ _ (λ i, i ∈ take k l)).
  assert (∀ m, drained (Pool.pool p1) (drop k l) m
               = drained (Pool.pool (pool z)) (drop k l) m) as Hag
    by (intros m; apply PoolFacts.drained_agree; intros; apply Hbl).
  assert (∀ m, 0 <= drained (Pool.pool (pool z)) l m) as Hd0.
  { intros m. rewrite <- (PoolFacts.drained_0 (Pool.pool (pool z)) l).
    apply PoolFacts.drained_mono; [|lia]. intros i _.
    by eapply PoolFacts.wf_block_len. }
  assert (base (mkLexer (r z) (err z) p1 (buf z) (start z) (pos z) (prevStart z)) C
          = base z C + drained (Pool.pool (pool z)) l k) as Hbase.
  { unfold base. simpl. rewrite Hch, Hch', Hag.
    replace (length l) with (k + length (drop k l))%nat
      by (rewrite length_drop; lia).
    rewrite PoolFacts.drained_app. lia. }
  assert (base z C <= C) as HBC.
  { unfold base. rewrite Hch. specialize (Hd0 (length l)). lia. }
  rewrite add_small in Hpos', Hdr, Hstop by lia.
  split.
  - constructor.
    + unfold arrays. simpl.
      by rewrite (PoolMore.free_bufs _ _ _ _ Hwf Hfree).
    + rewrite Hbase. simpl. lia.
    + lia.
    + rewrite Hbase. specialize (Hd0 k). lia.
  - intros s t bs Ht (Hbs & [(Harr & Htc)|(j & i & b & Hj & Hi & Harr & Htj)]).
    + split; [done|]. by left.
    + split; [done|]. right. rewrite Hch in Hj, Htj.
      assert (k ≤ j)%nat as Hkj.
      { destruct (decide (k ≤ j)%nat); [done|].
        specialize (Hdr j ltac:(lia)). lia. }
      exists (j - k)%nat, i, (if decide (i ∈ take k l) then retire b else b).
      simpl. rewrite Hch'. split_and!.
      * rewrite lookup_drop. rewrite <- Hj. f_equal. lia.
      * by apply Hlook.
      * by case_decide.
      * rewrite Hbase, Hag.
        replace (S j) with (k + S (j - k))%nat in Htj by lia.
        rewrite PoolFacts.drained_app in Htj. lia.
Qed.

Lemma read_owned h z p h' z' b F C :
  good h z → owned z F C → F < 2 ^ 62 → C < 2 ^ 62 →
  read h z p = Some (h', z', b) →
  owned z' F C
  ∧ ∀ s t bs, F <= t → lodged h z C s t bs → lodged h' z' C s t bs.
Proof.
  intros Hgood Hown HF HC Hread.
  destruct (err z) as [e0|] eqn:Herr.
  { unfold read in Hread. rewrite Herr in Hread.
    rewrite decide_True in Hread by done. injection Hread as <- <- <-. done. }
  destruct (read_inv _ _ _ _ _ _ Herr Hread)
    as (c & oldBuf & h1 & pool1 & nbuf & dst & src & room & r1 & n & e & buf1
        & Hold & Hswap & Hdst & Hsrc & Hroom & HR & Hbuf1
        & Hr' & Hpool' & Hbuf' & Hstart' & Hpos' & Hprev' & _ & _).
  pose proof (arrays_in_heap h z) as Hin. specialize (λ x, Hin x Hgood).
  destruct Hgood as [(Hs0 & Hsp & Hpl & Hlc) Hbuf [l Hwf] Hblocks].
  pose proof Hbuf as [(Ho & Hl & Hc) (a & Ha & Hlen)].
  assert (maxAlloc = 2 ^ 48) as HmA by reflexivity.
  rewrite (sub_small (len (buf z)) (start z)) in * by lia.
  set (d := len (buf z) - start z) in *.
  assert (backed h oldBuf) as Hbold by by eapply backed_reslice.
  destruct (swap_backed _ _ _ _ _ _ _ Hswap Hblocks Hbold)
    as (_ & _ & Hnb & Hlen0).
  pose proof (PoolFacts.swap_wf _ _ _ _ _ _ _ _ Hwf (proj1 Hbold) Hswap) as Hpathwf.
  pose proof (PoolMore.swap_arrays _ _ _ _ _ _ _ Hswap) as Hpath.
  apply reslice_Some in Hold as (_ & _ & ->).
  pose proof Hnb as [(Hno & Hnl & Hnc) _].
  apply reslice_Some in Hdst as (Hd0 & Hd1 & ->).
  apply reslice_Some in Hsrc as (_ & _ & ->).
  apply reslice_Some in Hroom as (_ & _ & ->).
  destruct (Read_spec _ _ _ _ _ _ _ HR) as (D & _ & Hn & Hnroom & ->);
    [simpl; lia|].
  simpl in Hnroom. rewrite add_small in Hbuf1 by lia.
  apply reslice_Some in Hbuf1 as (_ & _ & Hbuf1).
  unfold copy. simpl. simpl in Hpath, Hpathwf.
  destruct Hown as [Harrs Hpos HF0 HB].
  pose proof (PoolFacts.wf_chain _ _ Hwf) as Hch.
  destruct Hpath as [(-> & Hz' & Htail & Hge & Harr)
                    |(s0 & b0 & pl & Hb0 & Harr & Hbufs & Hhead & Hwhich)].
  - (* the buffer is reused in place: everything committed was freed *)
    assert (l = []) as ->.
    { destruct Hwf as [_ Hlk _ _]. rewrite Htail in Hlk.
      destruct l; [done|]. by destruct Hlk. }
    assert (PoolSpec.wf pool1 []) as Hwf'.
    { rewrite Hz'. destruct Hwf. by constructor. }
    pose proof (PoolFacts.wf_chain _ _ Hwf') as Hch'.
    unfold base in Hpos, HB. rewrite Hch in Hpos, HB.
    unfold drained in Hpos, HB. simpl in Hpos, HB.
    split.
    + constructor.
      * unfold arrays. rewrite Hbuf', Hbuf1, Hpool', Hz'. simpl.
        by rewrite Harr.
      * unfold base. rewrite Hpool', Hch', Hstart'. unfold drained. simpl.
        rewrite Hz'. simpl. rewrite sub_small by lia. lia.
      * done.
      * unfold base. rewrite Hpool', Hch', Hstart'. unfold drained. simpl. lia.
    + intros s t bs Ht (Hbs & [(Ha' & Htc)|(j & i & b' & Hj & _)]).
      * lia.
      * by rewrite Hch in Hj.
  - (* the buffer goes to the pool, another array comes out *)
    destruct Hpathwf as [(Hz' & -> & _)
                        |(s1 & Hs1 & Hwf1 & Hpos1 & _ & Hlens & Hagree)].
    { rewrite Hz' in Hhead. simpl in Hhead.
      destruct Hwf as [_ _ Hh _]. rewrite Hh in Hhead. done. }
    assert (s1 = s0) as ->.
    { destruct Hwf1 as [_ _ Hh _]. rewrite PoolFacts.last_plus_one_snoc in Hh.
      congruence. }
    pose proof (PoolFacts.wf_chain _ _ Hwf1) as Hch1.
    assert (∀ i bi, Pool.pool (pool z) !! i = Some bi → pl !! i = Some bi) as Hsub.
    { intros i bi Hi. destruct Hwhich as [(-> & _)|(-> & _)]; [done|].
      rewrite lookup_app_l; [done|]. by eapply lookup_lt_Some. }
    assert (NoDup (arr (buf z) :: (arr <$> (Pool.buf <$> pl)))) as Hnd.
    { destruct Hwhich as [(-> & _)|(-> & _)]; [done|].
      rewrite !fmap_app. simpl.
      change (NoDup ((arr (buf z) :: (arr <$> (Pool.buf <$> Pool.pool (pool z))))
                     ++ [length h])).
      apply NoDup_app. split_and!; [done| |apply NoDup_singleton].
      intros x Hx Hx'. apply list_elem_of_singleton in Hx'.
      specialize (Hin x Hx). lia. }
    assert ((arr <$> (Pool.buf <$> pl)) !! s0 = Some (arr (Pool.buf b0))) as Hl0
      by by rewrite !list_lookup_fmap, Hb0.
    assert (∀ m, (m ≤ length l)%nat →
              drained (Pool.pool pool1) (l ++ [s0]) m
              = drained (Pool.pool (pool z)) l m) as Hdr.
    { intros m Hm. rewrite drained_snoc_le by done.
      by apply PoolFacts.drained_agree. }
    assert (base z' C = base z C) as Hbase.
    { unfold base. rewrite Hpool', Hch1, Hch, Hstart'.
      rewrite PoolMore.drained_all_snoc, Hlens. simpl.
      rewrite (PoolFacts.drained_agree _ (Pool.pool pool1)) by done. lia. }
    split.
    + constructor.
      * unfold arrays. rewrite Hbuf', Hbuf1, Hpool', Hbufs. simpl.
        rewrite Harr, list_fmap_insert. simpl.
        by apply PoolMore.NoDup_exchange.
      * rewrite Hbase, Hpool', Hpos1. done.
      * done.
      * by rewrite Hbase.
    + intros s t bs Ht (Hbs & Hloc).
      assert (arr s ≠ arr (Pool.buf b0) ∧ (arr s < length h)%nat) as [Hne Hlt].
      { apply NoDup_cons in Hnd as [Hnotin Hnd'].
        destruct Hloc as [(Ha' & _)|(j & i & bi & Hj & Hi & Ha' & _)].
        - split.
          + rewrite Ha'. intros Heq. apply Hnotin. rewrite Heq.
            by eapply list_elem_of_lookup_2.
          + rewrite Ha'. by eapply lookup_lt_Some.
        - rewrite Hch in Hj. split.
          + intros Heq.
            assert ((arr <$> (Pool.buf <$> pl)) !! i = Some (arr (Pool.buf b0))) as Hli
              by (rewrite !list_lookup_fmap, (Hsub _ _ Hi); simpl; congruence).
            pose proof (NoDup_lookup _ _ _ _ Hnd' Hli Hl0) as ->.
            apply Hs1. by eapply list_elem_of_lookup_2.
          + apply Hin. unfold arrays. apply elem_of_cons. right.
            rewrite <- Ha'. apply list_elem_of_fmap.
            exists (Pool.buf bi). split; [done|].
            apply list_elem_of_fmap. exists bi. split; [done|].
            by eapply list_elem_of_lookup_2. }
      split.
      * rewrite !bytes_store_other by (simpl; congruence).
        destruct Hwhich as [(_ & ->)|(_ & ->)]; [done|]. by rewrite bytes_prefix.
      * right. destruct Hloc as [(Ha' & Htc)|(j & i & bi & Hj & Hi & Ha' & Htj)].
        -- assert (∃ b', Pool.pool pool1 !! s0 = Some b'
                         ∧ arr (Pool.buf b') = arr (buf z)) as (b' & Hb' & Hab').
           { assert ((Pool.buf <$> Pool.pool pool1) !! s0
                     = Some (mkSlice (arr (buf z)) (off (buf z) + 0)
                               (start z - 0) (cap (buf z) - 0))) as Hl1.
             { rewrite Hbufs. apply list_lookup_insert_eq.
               rewrite length_fmap. by eapply lookup_lt_Some. }
             apply list_lookup_fmap_Some_1 in Hl1 as (b' & Hbb' & Hb').
             exists b'. split; [done|]. by rewrite <- Hbb'. }
           exists (length l), s0, b'. rewrite Hpool', Hch1, Hbase.
           split_and!; [by apply list_lookup_middle|done|congruence|].
           replace (S (length l)) with (length (l ++ [s0]))
             by (rewrite length_app; simpl; lia).
           rewrite PoolMore.drained_all_snoc, Hlens. simpl.
           rewrite (PoolFacts.drained_agree _ (Pool.pool pool1)) by done.
           unfold base. rewrite Hch. lia.
        -- rewrite Hch in Hj, Htj.
           assert (i ≠ s0) as Hne0.
           { intros ->. apply Hs1. by eapply list_elem_of_lookup_2. }
           assert (∃ b', Pool.pool pool1 !! i = Some b'
                         ∧ Pool.buf b' = Pool.buf bi) as (b' & Hb' & Hbb').
           { assert ((Pool.buf <$> Pool.pool pool1) !! i = Some (Pool.buf bi)) as Hl1.
             { rewrite Hbufs, list_lookup_insert_ne by done.
               by rewrite list_lookup_fmap, (Hsub _ _ Hi). }
             apply list_lookup_fmap_Some_1 in Hl1 as (b' & Hbb' & Hb').
             exists b'. split; [done|]. by rewrite <- Hbb'. }
           exists j, i, b'. rewrite Hpool', Hch1, Hbase.
           split_and!; [by apply lookup_app_l_Some|done|congruence|].
           rewrite Hdr; [done|]. apply lookup_lt_Some in Hj. lia.
Qed.

Lemma Peek_owned h z n h' z' b F C :
  good h z → owned z F C → F < 2 ^ 62 → C < 2 ^ 62 →
  Peek h z n = Some (h', z', b) →
  owned z' F C
  ∧ ∀ s t bs, F <= t → lodged h z C s t bs → lodged h' z' C s t bs.
Proof.
  intros Hg Hown HF HC. unfold Peek. case_decide.
  - by apply read_owned.
  - destruct (index h (buf z) _); simpl; [|done]. by intros [= <- <- <-].
Qed.

Lemma freed_nonneg ops : Forall sober ops → 0 <= freed ops.
Proof.
  induction 1 as [|o ops Ho _ IH]; simpl; [done|].
  destruct o; simpl in *; lia.
Qed.

Lemma freed_app ops1 ops2 : freed (ops1 ++ ops2) = freed ops1 + freed ops2.
Proof. induction ops1 as [|o ops1 IH]; simpl; lia. Qed.

Lemma exec_owned h z o h' z' res F F' C C' :
  good h z → in_window z o → sober o → owned z F C →
  F' = F + freed_by o → F' < 2 ^ 62 →
  C' = C + Z.of_nat (length (concat (map event_bytes (events h z o)))) →
  C' < 2 ^ 62 →
  exec h z o = Some (h', z', res) →
  owned z' F' C'
  ∧ ∀ s t bs, F' <= t → lodged h z C s t bs → lodged h' z' C' s t bs.
Proof.
  intros Hg Hw Ho Hown HF' HFb HC' HCb Hex.
  pose proof Hg as [(Hs0 & Hsp & Hpl & Hlc) Hbuf _ _].
  assert (length (view h (buf z) (start z) (pos z)) = Z.to_nat (pos z - start z))
    as Hlen by (apply length_view; [done|lia|lia]).
  destruct o; simpl in *.
  - destruct (Peek h z n) as [[[h0 z0] c]|] eqn:HP; simpl in Hex; [|done].
    injection Hex as <- <- <-.
    replace F' with F by lia. replace C' with C by lia.
    eapply Peek_owned; [done|done|lia|lia|done].
  - destruct (PeekRune h z n) as [[[h0 z0] c]|] eqn:HP; simpl in Hex; [|done].
    injection Hex as <- <- <-.
    replace F' with F by lia. replace C' with C in * by lia.
    assert (F < 2 ^ 62) as HFb' by lia. revert Hown.
    apply (PeekRune_lift
             (λ h z h' z',
                owned z F C →
                owned z' F C
                ∧ ∀ s t bs, F <= t → lodged h z C s t bs → lodged h' z' C s t bs))
      with (n := n) (cn := c); [| | |done|done].
    + intros. done.
    + intros ?????? R1 R2 Hown1. destruct (R1 Hown1) as [Hown2 L1].
      destruct (R2 Hown2) as [Hown3 L2]. split; [done|].
      intros s t bs Ht Hl. by apply L2, L1.
    + intros ?????? Hg' HP' Hown'. by eapply Peek_owned.
  - injection Hex as <- <- <-. split.
    + eapply owned_move; [| | | |done]; simpl; done || lia.
    + intros ? t bs _. apply lodged_move; simpl; done || lia.
  - injection Hex as <- <- <-. split.
    + eapply owned_move; [| | | |done]; simpl; done || lia.
    + intros ? t bs _. apply lodged_move; simpl; done || lia.
  - injection Hex as <- <- <-. split.
    + eapply owned_move; [| | | |done]; simpl; done || lia.
    + intros ? t bs _. apply lodged_move; simpl; done || lia.
  - destruct (Lexeme z); simpl in Hex; [|done]. injection Hex as <- <- <-. split.
    + eapply owned_move; [| | | |done]; simpl; done || lia.
    + intros ? t bs _. apply lodged_move; simpl; done || lia.
  - unfold Shift in Hex. unfold Lexeme in HC'.
    destruct (reslice (buf z) (start z) (pos z)) as [sl|] eqn:Hsl;
      simpl in Hex; [|done].
    injection Hex as <- <- <-.
    apply reslice_Some in Hsl as (_ & _ & ->). simpl in HC'.
    rewrite app_nil_r in HC'.
    fold (view h (buf z) (start z) (pos z)) in HC'. rewrite Hlen in HC'.
    split.
    + eapply owned_move; [| | | |done]; simpl; done || lia.
    + intros ? t bs _. apply lodged_move; simpl; done || lia.
  - injection Hex as <- <- <-. split.
    + eapply owned_move; [| | | |done]; simpl; done || lia.
    + intros ? t bs _. apply lodged_move; simpl; done || lia.
  - injection Hex as <- <- <-. unfold Lexeme, reslice in HC'.
    rewrite decide_True in HC' by lia. simpl in HC'. rewrite app_nil_r in HC'.
    fold (view h (buf z) (start z) (pos z)) in HC'. rewrite Hlen in HC'.
    split.
    + eapply owned_move; [| | | |done]; simpl; done || lia.
    + intros ? t bs _. apply lodged_move; simpl; done || lia.
  - destruct (Free z n) as [z1|] eqn:HFree; simpl in Hex; [|done].
    injection Hex as <- <- <-.
    replace C' with C in * by lia. subst F'.
    eapply Free_owned; [done|done|done|lia|lia|done].
  - injection Hex as <- <- <-. split.
    + eapply owned_move; [| | | |done]; simpl; done || lia.
    + intros ? t bs _. apply lodged_move; simpl; done || lia.
Qed.

Lemma run_owned ops : ∀ h z h1 z1 evs F C,
  good h z → guarded h z ops → Forall sober ops → owned z F C →
  F + freed ops < 2 ^ 62 →
  C + Z.of_nat (length (concat (map event_bytes evs))) < 2 ^ 62 →
  run h z ops = Some (h1, z1, evs) →
  good h1 z1
  ∧ owned z1 (F + freed ops)
      (C + Z.of_nat (length (concat (map event_bytes evs))))
  ∧ ∀ s t bs, F + freed ops <= t → lodged h z C s t bs →
      lodged h1 z1 (C + Z.of_nat (length (concat (map event_bytes evs)))) s t bs.
Proof.
  induction ops as [|o ops IH];
    intros h z h1 z1 evs F C Hg Hgd Hso Hown HF HC Hrun; simpl in *.
  - injection Hrun as <- <- <-. simpl. rewrite !Z.add_0_r. done.
  - apply Forall_cons in Hso as [Ho Hso]. destruct Hgd as [Hw Hgd].
    destruct (exec h z o) as [[[h' z'] res]|] eqn:Hex; simpl in Hrun; [|done].
    destruct (run h' z' ops) as [[[h2 z2] evs']|] eqn:Hrun'; simpl in Hrun; [|done].
    injection Hrun as <- <- <-.
    pose proof (freed_nonneg _ Hso) as Hnn.
    rewrite map_app, concat_app, length_app, Nat2Z.inj_add in HC |- *.
    set (k := Z.of_nat (length (concat (map event_bytes (events h z o))))) in *.
    set (k' := Z.of_nat (length (concat (map event_bytes evs')))) in *.
    assert (0 <= k ∧ 0 <= k') as [Hk Hk'] by (unfold k, k'; lia).
    destruct (exec_spec _ _ _ _ _ _ Hg Hw Hex) as [Hg' _].
    destruct (exec_owned h z o h' z' res F (F + freed_by o) C (C + k)
                Hg Hw Ho Hown eq_refl ltac:(lia) eq_refl ltac:(lia) Hex)
      as [Hown' Hlod'].
    destruct (IH h' z' h2 z2 evs' (F + freed_by o) (C + k)
                Hg' Hgd Hso Hown' ltac:(lia) ltac:(fold k'; lia) Hrun')
      as (Hg2 & Hown2 & Hlod2).
    fold k' in Hown2, Hlod2.
    replace (F + (freed_by o + freed ops)) with (F + freed_by o + freed ops) by lia.
    replace (C + (k + k')) with (C + k + k') by lia.
    split_and!; [done|done|].
    intros s t bs Ht Hl. apply Hlod2; [done|]. apply Hlod'; [lia|done].
Qed.

Lemma NewLexerSize_owned h src size h0 z0 :
  NewLexerSize h src size = Some (h0, z0) → owned z0 0 0.
Proof.
  assert (∀ rd e b, owned (mkLexer rd e Pool.empty b 0 0 0) 0 0) as Hnew.
  { intros rd e b. constructor; simpl; try done.
    unfold arrays. simpl. apply NoDup_singleton. }
  intros Hmk0. destruct src as [b|rd]; simpl in *.
  - injection Hmk0 as <- <-. apply Hnew.
  - destruct (make h size) as [[h' b]|] eqn:Hmk; simpl in Hmk0; [|done].
    destruct (Peek h' _ 0) as [[[h1 z1] c]|] eqn:HP; simpl in Hmk0; [|done].
    injection Hmk0 as <- <-.
    unfold make in Hmk. case_decide as Hsz; [|done]. injection Hmk as <- <-.
    eapply Peek_owned in HP as [Hown _]; [done| |apply Hnew|lia|lia].
    constructor; simpl.
    + unfold window. simpl. lia.
    + split; [unfold slice_ok; simpl; lia|]. eexists. simpl. split.
      * rewrite lookup_app_r by lia. by rewrite Nat.sub_diag.
      * rewrite length_replicate. lia.
    + exists []. apply PoolFacts.wf_empty.
    + apply Forall_nil_2.
Qed.

(** X12. What [Shift] has returned stays until it is freed. On a source of
    less than 2^62 bytes: as long as the counts passed to [Free] (none of
    them negative) add up to no more than the number of bytes committed
    before a call to [Shift], the slice that call returned shows the same
    bytes, whatever calls follow: the pool reuses no array that holds
    bytes not yet reported as consumed. *)
Theorem shifted_bytes_stay
    h src size h0 z0 ops0 h1 z1 evs0 z1' s ops h2 z2 evs :
  input_ok h src → NewLexerSize h src size = Some (h0, z0) →
  Z.of_nat (length (content h src)) < 2 ^ 62 →
  Forall sober (ops0 ++ ops) →
  guarded h0 z0 ops0 → run h0 z0 ops0 = Some (h1, z1, evs0) →
  Shift z1 = Some (z1', s) →
  guarded h1 z1' ops → run h1 z1' ops = Some (h2, z2, evs) →
  freed (ops0 ++ ops) <= Z.of_nat (length (concat (map event_bytes evs0))) →
  bytes h2 s = bytes h1 s.
Proof.
  intros Hin Hnew Hsmall Hso Hgd0 Hrun0 Hsh Hgd Hrun Hfreed.
  apply Forall_app in Hso as [Hso0 Hso].
  rewrite freed_app in Hfreed.
  pose proof (freed_nonneg _ Hso0) as Hn0. pose proof (freed_nonneg _ Hso) as Hn1.
  destruct (NewLexerSize_spec _ _ _ _ _ Hin Hnew) as [Hg0 Hc0].
  pose proof (NewLexerSize_owned _ _ _ _ _ Hnew) as Hown0.
  destruct (run_spec _ _ _ _ _ _ Hg0 Hgd0 Hrun0) as [Hg1 Heq0].
  assert (exec h1 z1 OShift = Some (h1, z1', RSlice s)) as Hex
    by (simpl; by rewrite Hsh).
  destruct (exec_spec h1 z1 OShift _ _ _ Hg1 I Hex) as [Hg1' Heq1].
  destruct (run_spec _ _ _ _ _ _ Hg1' Hgd Hrun) as [Hg2 Heq2].
  set (C0 := Z.of_nat (length (concat (map event_bytes evs0)))) in *.
  set (k := Z.of_nat (length (concat (map event_bytes (events h1 z1 OShift))))).
  set (k' := Z.of_nat (length (concat (map event_bytes evs)))).
  assert (C0 + k + k' < 2 ^ 62) as Hbound.
  { rewrite Hc0, Heq0, Heq1, Heq2, !length_app in Hsmall. unfold C0, k, k'. lia. }
  assert (0 <= C0 ∧ 0 <= k ∧ 0 <= k') as (HC0 & Hk & Hk') by (unfold C0, k, k'; lia).
  destruct (run_owned ops0 h0 z0 h1 z1 evs0 0 0 Hg0 Hgd0 Hso0 Hown0
              ltac:(lia) ltac:(fold C0; lia) Hrun0) as (_ & Hown1 & _).
  fold C0 in Hown1. rewrite !Z.add_0_l in Hown1.
  destruct (exec_owned h1 z1 OShift h1 z1' (RSlice s) (freed ops0)
              (freed ops0) C0 (C0 + k)
              Hg1 I I Hown1 ltac:(simpl; lia) ltac:(lia) eq_refl ltac:(lia) Hex)
    as [Hown1' _].
  destruct (run_owned ops h1 z1' h2 z2 evs (freed ops0) (C0 + k)
              Hg1' Hgd Hso Hown1' ltac:(lia) ltac:(fold k'; lia) Hrun)
    as (_ & _ & Hlod).
  pose proof Hg1 as [(Hs0 & Hsp & Hpl & Hlc) Hbuf1 _ _].
  unfold Shift in Hsh.
  destruct (reslice (buf z1) (start z1) (pos z1)) as [sl|] eqn:Hsl;
    simpl in Hsh; [|done].
  injection Hsh as <- <-.
  assert (k = pos z1 - start z1) as Hkv.
  { unfold k. simpl. unfold Lexeme. rewrite Hsl. simpl. rewrite app_nil_r.
    pose proof Hsl as (_ & _ & ->)%reslice_Some.
    fold (view h1 (buf z1) (start z1) (pos z1)).
    rewrite length_view by (done || lia). lia. }
  apply reslice_Some in Hsl as (_ & _ & ->).
  destruct (decide (pos z1 = start z1)) as [Hemp|Hne].
  { unfold bytes. simpl. rewrite Hemp, Z.sub_diag. simpl.
    by destruct (h2 !! _), (h1 !! _). }
  eapply (Hlod _ C0 (bytes h1 _)); [lia|].
  split; [done|]. left. simpl. split; [done|lia].
Qed.

Lemma shifted_bytes_stay_witness :
  ∃ h0 z0 h1 z1 evs0 z1' s h2 z2 evs,
    NewLexerSize [] abcdefgh 4 = Some (h0, z0)
    ∧ run h0 z0 [OMove 2; OShift; OFree 2; OMove 1] = Some (h1, z1, evs0)
    ∧ Shift z1 = Some (z1', s)
    ∧ run h1 z1' [OMove 1; OPeek 0; OFree 0; OMove 2; OPeek 1]
      = Some (h2, z2, evs)
    ∧ bytes h1 s = ["c"%byte]
    ∧ bytes h2 s = bytes h1 s.
Proof.
  eexists _, _, _, _, _, _, _, _, _, _.
  split; [vm_compute; reflexivity|].
  split; [vm_compute; reflexivity|].
  split; [vm_compute; reflexivity|].
  split; [vm_compute; reflexivity|].
  split; [vm_compute; reflexivity|].
  eapply (shifted_bytes_stay [] abcdefgh 4 _ _
            [OMove 2; OShift; OFree 2; OMove 1] _ _ _ _ _
            [OMove 1; OPeek 0; OFree 0; OMove 2; OPeek 1]).
  - exact I.
  - vm_compute. reflexivity.
  - vm_compute. reflexivity.
  - repeat constructor; simpl; lia.
  - check_guards.
  - vm_compute. reflexivity.
  - vm_compute. reflexivity.
  - check_guards.
  - vm_compute. reflexivity.
  - vm_compute. discriminate.
Defined.

End LexMore.
